(** * Bug-bounty URL fuzzer: scan server and URL checker

    A shallow embedding of the three JavaScript programs of the repository:

    - [FetchPool]: the worker pool of [url-checker.js] (the second program
      in src/others/main.js, function [runMain]) and of [route-checker.js]
      (src/url-checker.js, function [run]): a shared cursor, a fixed number
      of asynchronous workers, the classification of each response and the
      result list.
    - [Pipeline]: the inline worker program of [server.js] (the first
      program in src/others/main.js; the text handed to [new Worker]): six
      tasks, their messages and their files.
    - [Coordinator]: the job table of [server.js] with its event handlers and
      the Express routes.
    - [Checker]: what the two checkers do around the pool: [readLines],
      [buildUrl], [parseArgs] and the flag loop, the final counts.
    - [Spawn]: [spawnCmd] of the worker program, its listeners and its
      timer.
    - [Outcome] and [Lifecycle] hold the vocabulary for properties of whole
      runs of the worker and of the job table.

    [server.js] holds the worker program as a template literal. Two
    substitutions of its line 103 are written without the backslash that
    the others have, so they are evaluated when a scan is started, where
    their names are unbound: [startScanWorker] throws before it builds a
    worker ([Coordinator.workerCode_error]). [Pipeline] follows the text of
    the worker program as it is meant to reach the worker; [Coordinator]
    models the handlers for either outcome of building that text, and what
    is said of whole runs of [server.js] as it is is proved with the
    outcome it has (section [ShippedFacts]).

    JavaScript runs each callback to its next [await] without interruption.
    The models follow that: a step is one such run, and the environment
    (network, file system, worker threads) chooses which pending operation
    resolves next and with which outcome. *)

From stdpp Require Import gmap strings list fin_maps pretty.
From Stdlib Require Import ZArith Lia.
From Stdlib Require QArith.

Local Open Scope Z_scope.

(** The line feed character, as a string. *)
Definition LF : string := String (Ascii.ascii_of_nat 10) EmptyString.

(** A thrown or rejected JavaScript error object: its [name] and its
    [message]. *)
Record jsError := { err_name : string; err_message : string }.

(** [String(err)] for an error object (Error.prototype.toString). *)
Definition String_of_error (e : jsError) : string :=
  if decide (err_message e = "") then err_name e
  else if decide (err_name e = "") then err_message e
  else err_name e +:+ ": " +:+ err_message e.

(** [a || b] on strings: the empty string is falsy. *)
Definition str_or (a b : string) : string :=
  if decide (a = "") then b else a.

(* ===================================================================== *)
(** * FetchPool: url-checker.js and route-checker.js                      *)
(* ===================================================================== *)

Module FetchPool.

(** The two programs share the pool; they differ in the result object, in
    the error text and in what follows a failed fetch. *)
Inductive variant := UrlChecker | RouteChecker.

(** [fetchWithTimeout] returns [{ ok: true, res }] or [{ ok: false, err }];
    of [res] only [res.status] is read. *)
Inductive fetchOutcome :=
| FetchOk (status : Z)
| FetchErr (err : jsError).

(** [status] of a result object: the string "ERROR" or the numeric code. *)
Inductive statusField := StatusERROR | StatusCode (s : Z).

(** The object pushed on [results]. route-checker.js leaves out [index]
    everywhere and [tag] and [time] on errors. *)
Record resultObj := {
  r_index : option nat;
  r_url : string;
  r_suffix : string;
  r_status : statusField;
  r_tag : option string;
  r_time : option Z;
  r_detail : option string
}.

(** The tag chosen from [res.status]:
<<
  let tag = "UNKNOWN";
  if (status >= 200 && status < 300) tag = "OK";
  else if (status >= 300 && status < 400) tag = "REDIRECT";
  else if (status >= 400 && status < 500) tag = "NOTFOUND/CLIENT";
  else if (status >= 500) tag = "SERVERERROR";
>> *)
Definition classify (status : Z) : string :=
  if (200 <=? status) && (status <? 300) then "OK"
  else if (300 <=? status) && (status <? 400) then "REDIRECT"
  else if (400 <=? status) && (status <? 500) then "NOTFOUND/CLIENT"
  else if 500 <=? status then "SERVERERROR"
  else "UNKNOWN".

(** The text of a timeout: [`TIMEOUT (${timeoutMs}ms)`]. *)
Definition timeout_reason (timeoutMs : Z) : string :=
  "TIMEOUT (" +:+ pretty timeoutMs +:+ "ms)".

(** The [reason] of a failed fetch.
    url-checker.js:
      [err && err.name === "AbortError" ? `TIMEOUT (...)`
         : (err && (err.message || String(err))) || "UNKNOWN"]
    route-checker.js:
      [err.name === "AbortError" ? `TIMEOUT (...)` : (err.message || String(err))] *)
Definition reason (v : variant) (timeoutMs : Z) (err : jsError) : string :=
  if decide (err_name err = "AbortError") then timeout_reason timeoutMs
  else
    let m := str_or (err_message err) (String_of_error err) in
    match v with
    | UrlChecker => str_or m "UNKNOWN"
    | RouteChecker => m
    end.

(** [makeReadableLine] of url-checker.js. *)
Definition makeReadableLine (r : resultObj) : string :=
  let i := from_option (fun n => pretty (Z.of_nat n)) "undefined" (r_index r) in
  let t := from_option pretty "undefined" (r_time r) in
  match r_status r with
  | StatusERROR =>
      "[" +:+ i +:+ "] " +:+ r_url r +:+ " -> ERROR: "
        +:+ default "undefined" (r_detail r) +:+ " (" +:+ t +:+ "ms)"
  | StatusCode c =>
      "[" +:+ i +:+ "] " +:+ r_url r +:+ " -> " +:+ pretty c +:+ " "
        +:+ default "undefined" (r_tag r) +:+ " (" +:+ t +:+ "ms)"
  end.

(** The result object built from a fetch outcome for the task
    [(index, suffix, url)]. *)
Definition make_result (v : variant) (timeoutMs : Z)
    (index : nat) (suffix url : string) (o : fetchOutcome) (duration : Z)
  : resultObj :=
  match o, v with
  | FetchErr err, UrlChecker =>
      {| r_index := Some (S index); r_url := url; r_suffix := suffix;
         r_status := StatusERROR; r_tag := Some "ERROR";
         r_time := Some duration;
         r_detail := Some (reason v timeoutMs err) |}
  | FetchErr err, RouteChecker =>
      {| r_index := None; r_url := url; r_suffix := suffix;
         r_status := StatusERROR; r_tag := None; r_time := None;
         r_detail := Some (reason v timeoutMs err) |}
  | FetchOk status, UrlChecker =>
      {| r_index := Some (S index); r_url := url; r_suffix := suffix;
         r_status := StatusCode status; r_tag := Some (classify status);
         r_time := Some duration; r_detail := None |}
  | FetchOk status, RouteChecker =>
      {| r_index := None; r_url := url; r_suffix := suffix;
         r_status := StatusCode status; r_tag := Some (classify status);
         r_time := Some duration; r_detail := None |}
  end.

(** ** The pool *)

(** Where a worker is suspended: at [await fetchWithTimeout(...)], at
    [await fs.appendFile(...)] (url-checker.js only), at [await wait(50)],
    or returned from its loop. *)
Inductive pc :=
| AwaitFetch (index : nat) (suffix url : string)
| AwaitAppend (line : string)
| AwaitWait
| Finished.

#[global] Instance pc_eq_dec : EqDecision pc.
Proof. solve_decision. Defined.

(** The variables shared by the workers: the cursor [idx] ([i] in
    route-checker.js), [results], the lines appended to the results file,
    and the suspended workers. [claimed] is a history variable: the pairs
    (worker, index) for every [const index = idx++] that passed the bound
    check, in the order they happened. *)
Record pool := {
  idx : nat;
  results : list resultObj;
  appended : list string;
  workers : list pc;
  claimed : list (nat * nat)
}.

(** What the environment resolves. *)
Inductive resolution :=
| FetchResolved (o : fetchOutcome) (duration : Z)
| AppendResolved (ok : bool)
| WaitResolved.

Section Pool.

(** [buildUrl(baseUrl, suffix)] rests on the platform's [URL] parser; the
    pool only stores its result. *)
Variable buildUrl : string → string → string.
Variable v : variant.
Variable baseUrl : string.
Variable timeoutMs : Z.
Variable lines : list string.

Definition set_pc (k : nat) (p : pc) (st : pool) : pool :=
  {| idx := idx st; results := results st; appended := appended st;
     workers := <[k := p]> (workers st); claimed := claimed st |}.

(** The head of the loop, run by worker [k]:
<<
    const index = idx++;
    if (index >= lines.length) break;
    const suffix = lines[index];
    const url = buildUrl(baseUrl, suffix);
    ... await fetchWithTimeout(url, timeoutMs);
>> *)
Definition claim (k : nat) (st : pool) : pool :=
  let index := idx st in
  match lines !! index with
  | None =>
      {| idx := S index; results := results st; appended := appended st;
         workers := <[k := Finished]> (workers st);
         claimed := claimed st |}
  | Some suffix =>
      {| idx := S index; results := results st; appended := appended st;
         workers :=
           <[k := AwaitFetch index suffix (buildUrl baseUrl suffix)]>
             (workers st);
         claimed := claimed st ++ [(k, index)] |}
  end.

Definition push_result (r : resultObj) (st : pool) : pool :=
  {| idx := idx st; results := results st ++ [r]; appended := appended st;
     workers := workers st; claimed := claimed st |}.

Definition append_line (line : string) (st : pool) : pool :=
  {| idx := idx st; results := results st;
     appended := appended st ++ [line];
     workers := workers st; claimed := claimed st |}.

(** Worker [k] resumes with resolution [r] and runs to its next [await].
    [None]: worker [k] is not waiting for that. *)
Definition resume (k : nat) (r : resolution) (st : pool) : option pool :=
  match workers st !! k, r with
  | Some (AwaitFetch index suffix url), FetchResolved o duration =>
      let res := make_result v timeoutMs index suffix url o duration in
      let st := push_result res st in
      match v, o with
      | UrlChecker, _ =>
          Some (set_pc k (AwaitAppend (makeReadableLine res +:+ LF)) st)
      | RouteChecker, FetchErr _ => Some (claim k st)   (* [continue] *)
      | RouteChecker, FetchOk _ => Some (set_pc k AwaitWait st)
      end
  | Some (AwaitAppend line), AppendResolved ok =>
      (* a failed append is logged and the loop goes on *)
      Some (set_pc k AwaitWait (if ok then append_line line st else st))
  | Some AwaitWait, WaitResolved => Some (claim k st)
  | _, _ => None
  end.

(** A schedule: which worker resumes with what, in order. *)
Fixpoint run (sched : list (nat * resolution)) (st : pool) : option pool :=
  match sched with
  | [] => Some st
  | (k, r) :: sched => st' ← resume k r st; run sched st'
  end.

(** [worker()] called for the [k]-th time: it runs to its first [await]
    inside the [map] callback. *)
Definition spawn_worker (st : pool) : pool :=
  let k := length (workers st) in
  claim k {| idx := idx st; results := results st; appended := appended st;
             workers := workers st ++ [Finished]; claimed := claimed st |}.

Definition empty_pool : pool :=
  {| idx := 0%nat; results := []; appended := []; workers := [];
     claimed := [] |}.

(** [Array(Math.min(concurrency, lines.length)).fill(0).map(() => worker())].
    [Array(n)] throws a RangeError for a negative [n]. Both programs return
    before this point when [lines] is empty; here that case is the pool
    without workers and without results. *)
Definition start_workers (concurrency : Z) : option pool :=
  let workerCount := Z.min concurrency (Z.of_nat (length lines)) in
  if workerCount <? 0 then None
  else Some (Nat.iter (Z.to_nat workerCount) spawn_worker empty_pool).

Definition all_finished (st : pool) : Prop :=
  Forall (fun p => p = Finished) (workers st).

(** ** Vocabulary for the properties of the pool *)

Local Open Scope nat_scope.

(** The tasks whose fetch is pending. *)
Definition in_flight (ws : list pc) : list (nat * string) :=
  omap (λ p, match p with AwaitFetch i s _ => Some (i, s) | _ => None end) ws.

(** What identifies the task in a result object: its suffix, and in
    url-checker.js its one-based index. *)
Definition task_of (r : resultObj) : option nat * string :=
  (r_index r, r_suffix r).

Definition key (t : nat * string) : option nat * string :=
  (match v with UrlChecker => Some (S t.1) | RouteChecker => None end, t.2).

(** Steps a worker at [p] still takes before its next claim. *)
Definition weight (p : pc) : nat :=
  match p with
  | AwaitFetch _ _ _ => 3
  | AwaitAppend _ => 2
  | AwaitWait => 1
  | Finished => 0
  end.

Definition remaining (st : pool) : nat :=
  4 * (length lines - idx st) + sum_list_with weight (workers st).

(** What holds between two steps of the pool. *)
Record pool_inv (st : pool) : Prop := {
  inv_claimed : (claimed st).*2 = seq 0 (idx st `min` length lines);
  inv_tasks :
    (task_of <$> results st) ++ (key <$> in_flight (workers st))
    ≡ₚ imap (λ i s, key (i, s)) (take (idx st) lines);
  inv_finished : Finished ∈ workers st → length lines ≤ idx st
}.

End Pool.

End FetchPool.

(* ===================================================================== *)
(** * Pipeline: the worker program of server.js                           *)
(* ===================================================================== *)

Module Pipeline.

Definition SQ : string := String (Ascii.ascii_of_nat 39) EmptyString.
Definition DQ : string := String (Ascii.ascii_of_nat 34) EmptyString.

(** [s.split(c)] for a one-character separator. *)
Fixpoint split_on (c : Ascii.ascii) (s : string) : list string :=
  match s with
  | EmptyString => [EmptyString]
  | String a s' =>
      if decide (a = c) then EmptyString :: split_on c s'
      else match split_on c s' with
           | [] => [String a EmptyString]
           | w :: ws => String a w :: ws
           end
  end.

(** [s.replace(/c/g, r)] for a one-character pattern. *)
Fixpoint replace_char (c : Ascii.ascii) (r : string) (s : string) : string :=
  match s with
  | EmptyString => EmptyString
  | String a s' =>
      (if decide (a = c) then r else String a EmptyString)
        +:+ replace_char c r s'
  end.

(** [path.join(dir, name)] for a normalized [dir] and a plain file name. *)
Definition path_join (dir name : string) : string := dir +:+ "/" +:+ name.

(** A value produced by [JSON.parse]. *)
Unset Elimination Schemes.
Inductive json :=
| JNull
| JBool (b : bool)
| JNum (q : QArith_base.Q)
| JStr (s : string)
| JArr (items : list json)
| JObj (fields : list (string * json)).
Set Elimination Schemes.

(** [it.k]: [None] is [undefined]. Reading a property of [null] throws
    and is handled where it happens. With a repeated key the last wins. *)
Definition prop (it : json) (k : string) : option json :=
  match it with
  | JObj fields => last (snd <$> filter (λ f, f.1 = k) fields)
  | _ => None
  end.

Definition truthy (v : json) : bool :=
  match v with
  | JNull => false
  | JBool b => b
  | JNum q => negb (QArith_base.Qeq_bool q (QArith_base.Qmake 0 1))
  | JStr s => if decide (s = "") then false else true
  | JArr _ | JObj _ => true
  end.

Record workerData := { jobId : string; hostname : string; workdir : string }.

(** [{ name, duration_minutes }]. [minutesFromMs] only changes the unit,
    by a floating-point division and rounding; the model keeps the
    milliseconds. *)
Record task := { name : string; duration_ms : Z }.

Record Meta := {
  m_jobId : string;
  m_hostname : string;
  m_tasks : list task;
  m_startedAt : string;
  m_finishedAt : option string
}.

(** What the worker posts on [parentPort]. *)
Inductive message :=
| Log (text : string)
| Done (meta : Meta)
| Error (error : string).

(** What the worker does to the outside, in order: messages posted,
    commands spawned, directories asked for, files written, and writes that
    failed. *)
Inductive effect :=
| Post (m : message)
| Spawn (cmd : string) (args : list string) (timeout : Z)
| Mkdir (path : string)
| WriteFile (path content : string)
| WriteFailed (path : string).

(** The platform the worker runs on: external commands acting on the
    files, failures of the file system, the JSON built-ins, the clock. *)
Record platform := {
  (** [spawnCmd]: the files after the command, and the rejection if it
      exits non-zero, cannot start, or runs into the timeout *)
  exec : string → list string → Z → gmap string string
         → gmap string string * option jsError;
  mkdir_error : string → option jsError;
  write_error : string → option jsError;
  JSON_parse : string → option json;
  stringify_records : list json → string;
  stringify_meta : Meta → string;
  (** what string concatenation makes of a value ([None] is [undefined]):
      its text, or the TypeError thrown for a value without a primitive
      form, such as an object whose own [toString] is not a function *)
  ToString : option json → jsError + string;
  (** [t1 - t0] around the named task *)
  elapsed : string → Z;
  startedAt_iso : string;
  finishedAt_iso : string
}.

(** ** The worker monad: files and effects so far, and a thrown error *)

Record wstate := { files : gmap string string; trace : list effect }.

Definition W (A : Type) : Type := wstate → wstate * (jsError + A).

#[global] Instance W_ret : MRet W := λ A x s, (s, inr x).

#[global] Instance W_bind : MBind W := λ A B f m s,
  match m s with
  | (s', inr x) => f x s'
  | (s', inl e) => (s', inl e)
  end.

Definition throw {A} (e : jsError) : W A := λ s, (s, inl e).

(** [try { m } catch (err) { h(err) }], and [m.catch(h)] on a promise. *)
Definition try_catch {A} (m : W A) (h : jsError → W A) : W A := λ s,
  match m s with
  | (s', inl e) => h e s'
  | r => r
  end.

Definition emit (e : effect) : W unit := λ s,
  ({| files := files s; trace := trace s ++ [e] |}, inr ()).

Section Worker.

Variable P : platform.
Variable wd : workerData.

(** [parentPort.postMessage(m)] *)
Definition post (m : message) : W unit := emit (Post m).

(** [spawnCmd(cmd, args, { timeout })] *)
Definition spawnCmd (cmd : string) (args : list string) (timeout : Z)
  : W unit := λ s,
  let '(fs, r) := exec P cmd args timeout (files s) in
  ({| files := fs; trace := trace s ++ [Spawn cmd args timeout] |},
   match r with Some e => inl e | None => inr () end).

(** [fs.mkdir(path, { recursive: true })] *)
Definition mkdir (path : string) : W unit := λ s,
  ({| files := files s; trace := trace s ++ [Mkdir path] |},
   match mkdir_error P path with Some e => inl e | None => inr () end).

(** [fs.writeFile(path, content)] *)
Definition writeFile (path content : string) : W unit := λ s,
  match write_error P path with
  | Some e =>
      ({| files := files s; trace := trace s ++ [WriteFailed path] |}, inl e)
  | None =>
      ({| files := <[path := content]> (files s);
          trace := trace s ++ [WriteFile path content] |}, inr ())
  end.

(** [fs.readFile(path, 'utf8')] *)
Definition readFile (path : string) : W string := λ s,
  match files s !! path with
  | Some c => (s, inr c)
  | None =>
      (s, inl {| err_name := "Error";
                 err_message := "ENOENT: no such file or directory, open '"
                                +:+ path +:+ "'" |})
  end.

(** [try { await fs.access(path); ... } catch(e){}]: does the file exist *)
Definition access (path : string) : W bool := λ s,
  (s, inr (bool_decide (is_Some (files s !! path)))).

Definition subfinderOut : string := path_join (workdir wd) "subfinder.txt".
Definition amassOut : string := path_join (workdir wd) "amass.txt".
Definition allList : string := path_join (workdir wd) "all.txt".
Definition httpxOut : string := path_join (workdir wd) "httpx.jsonl".
Definition resultsJson : string := path_join (workdir wd) "results.json".
Definition resultsTxt : string := path_join (workdir wd) "results.txt".
Definition metaJson : string := path_join (workdir wd) "meta.json".

Definition mk_task (n : string) : task :=
  {| name := n; duration_ms := elapsed P n |}.

Definition push_task (n : string) (m : Meta) : Meta :=
  {| m_jobId := m_jobId m; m_hostname := m_hostname m;
     m_tasks := m_tasks m ++ [mk_task n];
     m_startedAt := m_startedAt m; m_finishedAt := m_finishedAt m |}.

(** TASK 1 *)
Definition task_subfinder : W unit :=
  post (Log "[TASK] About to run subfinder (passive discovery). Estimated time: ~1.5 minutes");;
  try_catch
    (spawnCmd "subfinder" ["-d"; hostname wd; "-silent"; "-o"; subfinderOut]
       (2 * 60 * 1000))
    (λ err, post (Log ("[TASK] subfinder failed or not present: "
                       +:+ err_message err))).

(** TASK 2 *)
Definition task_amass : W unit :=
  post (Log "[TASK] About to run amass (passive). Estimated time: ~2.5 minutes");;
  try_catch
    (spawnCmd "amass" ["enum"; "-passive"; "-d"; hostname wd; "-o"; amassOut]
       (3 * 60 * 1000))
    (λ err, post (Log ("[TASK] amass failed or not present: "
                       +:+ err_message err))).

(** [p => "'" + p.replace(/'/g, "'\''") + "'"], as the worker program
    has it: the template literal that holds the program turns the two
    backslashes of server.js into one, as it turns ['\\n'] into the line
    feed of [split] and [join]; in the worker the replacement text is
    three single quotes. *)
Definition shquote (p : string) : string :=
  SQ +:+ replace_char (Ascii.ascii_of_nat 39) (SQ +:+ SQ +:+ SQ) p +:+ SQ.

(** The text line 103 means to hand to [bash -lc]:
    [cat ${parts.map(shquote).join(' ')} | sort -u > "${allList}"],
    with the substitutions made in the worker, where [parts] and [allList]
    are bound. server.js does not get there: the two [${...}] stand without
    a backslash inside the template literal that holds the worker program,
    so they belong to that literal and are evaluated by the main thread
    (see [Coordinator.workerCode_error]). *)
Definition merge_script (parts : list string) : string :=
  "cat " +:+ String.concat " " (shquote <$> parts)
         +:+ " | sort -u > " +:+ DQ +:+ allList +:+ DQ.

(** TASK 3, for any text [script parts allList] in the place of the second
    argument on line 103. *)
Definition task_merge_with (script : list string → string → string)
  : W unit :=
  post (Log "[TASK] Merging and deduplicating subdomain lists. Estimated time: ~0.2 minutes");;
  has_subfinder ← access subfinderOut;
  has_amass ← access amassOut;
  let parts := (if has_subfinder : bool then [subfinderOut] else [])
               ++ (if has_amass : bool then [amassOut] else []) in
  if decide (0 < length parts)%nat
  then spawnCmd "bash" ["-lc"; script parts allList] (30 * 1000)
  else writeFile allList "".

(** TASK 3 *)
Definition task_merge : W unit :=
  task_merge_with (λ parts _, merge_script parts).

(** TASK 4 *)
Definition task_httpx : W unit :=
  post (Log "[TASK] About to run httpx to probe HTTP(s) and collect status codes. Estimated time: ~2.0 minutes");;
  try_catch
    (spawnCmd "httpx"
       ["-l"; allList; "-silent"; "-status-code"; "-title"; "-cl"; "-json";
        "-o"; httpxOut] (3 * 60 * 1000))
    (λ err,
       post (Log ("[TASK] httpx failed or not present: "
                  +:+ err_message err));;
       writeFile httpxOut "").

(** [{ _parseError: true, raw: l }] *)
Definition parse_error_record (l : string) : json :=
  JObj [("_parseError", JBool true); ("raw", JStr l)].

(** [l => { try { return JSON.parse(l); }
            catch(e) { return { _parseError: true, raw: l }; } }] *)
Definition parse_line (l : string) : json :=
  match JSON_parse P l with
  | Some v => v
  | None => parse_error_record l
  end.

(** [filter(Boolean)] on strings keeps the non-empty ones. *)
Definition nonempty_lines (raw : string) : list string :=
  filter (λ l, l ≠ "") (split_on (Ascii.ascii_of_nat 10) raw).

(** [raw.split('\n').filter(Boolean).map(parse_line)] *)
Definition parse_lines (raw : string) : list json :=
  parse_line <$> nonempty_lines raw.

(** TASK 5 *)
Definition task_parse : W (list json) :=
  post (Log "[TASK] Parsing httpx output into JSON. Estimated time: ~0.05 minutes");;
  try_catch (raw ← readFile httpxOut; mret (parse_lines raw))
            (λ _, mret []).

(** [label + (a || b || '')]: the first truthy candidate, or the empty
    string, converted and appended to the label. *)
Definition labelled (label : string) (cands : list (option json))
  : jsError + string :=
  match filter (λ c, from_option truthy false c = true) cands with
  | c :: _ =>
      match ToString P c with
      | inl e => inl e
      | inr text => inr (label +:+ text)
      end
  | [] => inr label
  end.

(** The elements of an array literal, evaluated from left to right up to
    the first that throws. *)
Fixpoint in_order (cells : list (jsError + string))
  : jsError + list string :=
  match cells with
  | [] => inr []
  | inl e :: _ => inl e
  | inr c :: cells =>
      match in_order cells with
      | inl e => inl e
      | inr cs => inr (c :: cs)
      end
  end.

(** [TypeError: Cannot read properties of null (reading '_parseError')] *)
Definition null_read : jsError :=
  {| err_name := "TypeError";
     err_message := "Cannot read properties of null (reading '_parseError')" |}.

(** One entry of results.txt. [it._parseError] on [null] throws, and so
    does the concatenation of a field that has no primitive form. *)
Definition txt_entry (it : json) : jsError + string :=
  match it with
  | JNull => inl null_read
  | _ =>
      if from_option truthy false (prop it "_parseError")
      then match ToString P (prop it "raw") with
           | inl e => inl e
           | inr text => inr ("PARSE_ERROR: " +:+ text)
           end
      else
        match in_order
                [ labelled "url: " [prop it "url"; prop it "input"];
                  labelled "status: " [prop it "status_code"];
                  labelled "title: " [prop it "title"];
                  labelled "content_length: " [prop it "content_length"];
                  labelled "ip: " [prop it "ip"; prop it "host"];
                  inr "---" ] with
        | inl e => inl e
        | inr cells => inr (String.concat LF cells)
        end
  end.

Fixpoint txt_entries (its : list json) : jsError + list string :=
  match its with
  | [] => inr []
  | it :: its =>
      match txt_entry it with
      | inl e => inl e
      | inr l =>
          match txt_entries its with
          | inl e => inl e
          | inr ls => inr (l :: ls)
          end
      end
  end.

Definition txtLines (its : list json) : W string :=
  match txt_entries its with
  | inl e => throw e
  | inr ls => mret (String.concat LF ls)
  end.

(** TASK 6. meta.json is written before the sixth task is pushed and
    before [finishedAt] is set. *)
Definition task_save (meta : Meta) (jsonLines : list json) : W unit :=
  post (Log "[TASK] Saving results and metadata to server. Estimated time: ~0.02 minutes");;
  writeFile resultsJson (stringify_records P jsonLines);;
  txt ← txtLines jsonLines;
  writeFile resultsTxt txt;;
  writeFile metaJson (stringify_meta P meta).

(** The body of the [try] block. *)
Definition pipeline : W Meta :=
  mkdir (workdir wd);;
  let meta := {| m_jobId := jobId wd; m_hostname := hostname wd;
                 m_tasks := []; m_startedAt := startedAt_iso P;
                 m_finishedAt := None |} in
  post (Log ("[JOB " +:+ jobId wd +:+ "] Starting scan for: "
             +:+ hostname wd));;
  task_subfinder;;
  let meta := push_task "subfinder" meta in
  task_amass;;
  let meta := push_task "amass" meta in
  task_merge;;
  let meta := push_task "merge" meta in
  task_httpx;;
  let meta := push_task "httpx" meta in
  jsonLines ← task_parse;
  let meta := push_task "parse_httpx" meta in
  task_save meta jsonLines;;
  let meta := push_task "save_results" meta in
  mret {| m_jobId := m_jobId meta; m_hostname := m_hostname meta;
          m_tasks := m_tasks meta; m_startedAt := m_startedAt meta;
          m_finishedAt := Some (finishedAt_iso P) |}.

(** The whole worker:
    [try { ...; postMessage({ type: 'done', meta }) }
     catch (err) { postMessage({ type: 'error', error: err.message || String(err) }) }] *)
Definition worker_main : W unit :=
  try_catch
    (meta ← pipeline; post (Done meta))
    (λ err, post (Error (str_or (err_message err) (String_of_error err)))).

(** The worker started on the files [fs]. *)
Definition run_worker (fs : gmap string string) : wstate :=
  (worker_main {| files := fs; trace := [] |}).1.

Definition posted (s : wstate) : list message :=
  omap (λ e, match e with Post m => Some m | _ => None end) (trace s).

(** The discovery outputs that exist, in the order [parts] collects them. *)
Definition present_parts (fs : gmap string string) : list string :=
  (if bool_decide (is_Some (fs !! subfinderOut)) then [subfinderOut] else [])
  ++ (if bool_decide (is_Some (fs !! amassOut)) then [amassOut] else []).

(** ** Vocabulary for the properties of the worker *)

Local Open Scope nat_scope.

(** The log line and the one action of the merge stage. *)
Definition merge_log : effect :=
  Post (Log "[TASK] Merging and deduplicating subdomain lists. Estimated time: ~0.2 minutes").

(** A computation of the worker appends some effects [t] to the trace and
    ends with a result [r]; [emits m Φ] says [Φ t r] for every start. *)
Definition emits {A} (m : W A) (Φ : list effect → jsError + A → Prop)
  : Prop :=
  ∀ s, ∃ t, trace (m s).1 = trace s ++ t ∧ Φ t (m s).2.

(** Effects that neither end the run's messages nor touch meta.json: log
    messages, commands, and writes to other files. *)
Definition quiet_effect (e : effect) : Prop :=
  match e with
  | Post (Log _) => True
  | Post _ => False
  | WriteFile p _ => p ≠ metaJson
  | _ => True
  end.

Definition quiet (t : list effect) : Prop := Forall quiet_effect t.

Definition Quiet {A} (t : list effect) (r : jsError + A) : Prop := quiet t.

(** The save stage either fails without touching meta.json or ends with
    the three writes. *)
Definition saved {A} (t : list effect) (r : jsError + A) : Prop :=
  (∃ e, r = inl e ∧ quiet t)
  ∨ (∃ x pre rj rt c,
       r = inr x ∧ quiet pre
       ∧ t = pre ++ [WriteFile resultsJson rj;
                     WriteFile resultsTxt rt;
                     WriteFile metaJson c]).

End Worker.

(** The number of non-empty lines of a text, counted on the text itself:
    the positions where a character other than the line feed stands at the
    start of the text or right after a line feed. *)
Fixpoint line_starts (at_start : bool) (s : string) : nat :=
  match s with
  | EmptyString => 0%nat
  | String a s' =>
      if decide (a = Ascii.ascii_of_nat 10) then line_starts true s'
      else ((if at_start then 1 else 0) + line_starts false s')%nat
  end.

Definition count_nonempty (ls : list string) : nat :=
  length (filter (λ l, l ≠ "") ls).

(** ** What [cat ... | sort -u > out] means

    The shell, [cat] and [sort] are not part of the repository. Their
    meaning is POSIX's, in the C locale: [cat] concatenates the files,
    [sort -u] orders the lines by their bytes and keeps one of each, and
    every line of the output ends in a line feed. *)

Fixpoint insert_u (x : string) (l : list string) : list string :=
  match l with
  | [] => [x]
  | y :: l' =>
      match String.compare x y with
      | Lt => x :: y :: l'
      | Eq => y :: l'
      | Gt => y :: insert_u x l'
      end
  end.

Definition sort_u (l : list string) : list string := foldr insert_u [] l.

(** The lines of a text: the pieces between line feeds, without the empty
    piece after a final line feed. *)
Definition posix_lines (c : string) : list string :=
  match reverse (split_on (Ascii.ascii_of_nat 10) c) with
  | EmptyString :: r => reverse r
  | _ => split_on (Ascii.ascii_of_nat 10) c
  end.

Definition unlines (ls : list string) : string :=
  String.concat "" ((λ l, l +:+ LF) <$> ls).

Definition cat_files (fs : gmap string string) (parts : list string) : string :=
  String.concat "" ((λ p, default "" (fs !! p)) <$> parts).

Definition sh_cat_sort_u (fs : gmap string string) (parts : list string)
  : string :=
  unlines (sort_u (posix_lines (cat_files fs parts))).

End Pipeline.

(* ===================================================================== *)
(** * Coordinator: the job table and the routes of server.js              *)
(* ===================================================================== *)

Module Coordinator.
Import Pipeline.

Inductive status := queued | running | done | failed.

#[global] Instance status_eq_dec : EqDecision status.
Proof. solve_decision. Defined.

(** A value of the [jobs] map:
    [{ status, worker?: Worker, meta?: {...}, error? }]. Of the worker
    handle only its presence matters. *)
Record job := {
  j_status : status;
  j_worker : bool;
  j_meta : option Meta;
  j_error : option string
}.

(** The worker thread of a job, seen from the main thread: running and not
    yet past its last message; past a [done] or [error] message or an
    uncaught error; gone, with its exit code. *)
Inductive thread := Alive | Signalled | Exited (code : Z).

#[global] Instance thread_eq_dec : EqDecision thread.
Proof. solve_decision. Defined.

(** The main thread's state. [jobs] is the program's map and [disk] the
    regular files of the file system, by path; the rest records the
    environment and the past: the worker threads, the job ids handed out
    so far, the DELETE requests waiting on [fs.rm], the workers
    [terminate()] was called on, every [jobs.set] ([Some status]) and
    every [jobs.delete] that removed an entry ([None]) in the order they
    ran, and the directories asked of [fsSync.mkdirSync], in order. *)
Record server := {
  jobs : gmap string job;
  disk : gmap string string;
  threads : gmap string thread;
  issued : gset string;
  removing : list string;
  terminated : gset string;
  writes : list (string * option status);
  made : list string
}.

Inductive method := GET | POST | DELETE.

#[global] Instance method_eq_dec : EqDecision method.
Proof. solve_decision. Defined.

(** A request: the path as its non-empty segments, and [req.body.url].
    Express hands a parameter to the handler percent-decoded, so the
    segment of a parameter is its decoded text and may hold a slash. *)
Record request := {
  rq_method : method;
  rq_path : list string;
  rq_url : option string
}.

Inductive body :=
| ScanStarted (jobId : string)
| ErrorBody (error : string)
| JobStatus (jobId : string) (st : status) (error : option string)
            (meta : option Meta)
| StoredStatus (jobId : string) (st : status) (meta : json)
| Deleted (jobId : string)
| Health (ok : bool)
| Attachment (filename content : string)
| NoRoute.

Record response := { code : Z; payload : body }.

(** How [fs.rm(workdir, { recursive: true, force: true })] settles: the
    directory is gone, or the call is rejected after it has removed the
    files [gone] of the directory (none, some or all of them). *)
Inductive removal := Removed | Rejected (gone : list string).

(** What the main thread is handed. A request comes with what the
    environment decides during its handler: [rnd], the text
    [randomBytes(6).toString('hex')] returns, and [started], whether
    [new Worker] returns a worker (both are used by POST /scan only, and
    [started] only when [new Worker] is reached). *)
Inductive event :=
| Http (rq : request) (rnd : string) (started : bool)
| RmSettled (jobId : string) (outcome : removal)
| Message (jobId : string) (m : message)
| ThreadError (jobId : string) (err : jsError)
| ThreadExit (jobId : string) (code : Z)
| ThreadWrite (jobId : string) (file content : string).

(** ** Routing *)

Inductive segment := Lit (s : string) | Param (name : string).

Inductive endpoint := EScan | EStatus | EDownload | EDelete | EHealth.

Definition lower (c : Ascii.ascii) : Ascii.ascii :=
  let n := Ascii.nat_of_ascii c in
  if (65 <=? n)%nat && (n <=? 90)%nat then Ascii.ascii_of_nat (n + 32) else c.

Fixpoint toLowerCase (s : string) : string :=
  match s with
  | EmptyString => EmptyString
  | String c s' => String (lower c) (toLowerCase s')
  end.

(** Express matches a literal segment without regard to case and a
    parameter against any one segment. *)
Fixpoint match_path (pat : list segment) (path : list string)
  : option (list string) :=
  match pat, path with
  | [], [] => Some []
  | Lit l :: pat, s :: path =>
      if decide (toLowerCase l = toLowerCase s) then match_path pat path
      else None
  | Param _ :: pat, s :: path => cons s <$> match_path pat path
  | _, _ => None
  end.

(** The routes in the order server.js registers them. *)
Definition routes : list (method * list segment * endpoint) :=
  [ (POST, [Lit "scan"], EScan);
    (GET, [Lit "status"; Param "jobId"], EStatus);
    (GET, [Lit "download"; Param "jobId"], EDownload);
    (DELETE, [Lit "results"; Param "jobId"], EDelete);
    (GET, [Lit "status"; Lit "health"], EHealth) ].

(** The first route whose method and path match handles the request; none
    of the handlers calls [next()]. *)
Fixpoint find_route (rs : list (method * list segment * endpoint))
    (m : method) (path : list string) : option (endpoint * list string) :=
  match rs with
  | [] => None
  | (m', pat, e) :: rs =>
      if decide (m' = m) then
        match match_path pat path with
        | Some params => Some (e, params)
        | None => find_route rs m path
        end
      else find_route rs m path
  end.

Definition dispatch (rq : request) : option (endpoint * list string) :=
  find_route routes (rq_method rq) (rq_path rq).

(** ** Paths

    Paths are POSIX paths, as the shell commands of the worker take them.
    A directory is written without a final slash, and the root as the
    empty text. *)

Definition SLc : Ascii.ascii := Ascii.ascii_of_nat 47.

Definition segments (p : string) : list string := split_on SLc p.

(** What [path.normalize] does to the segments of an absolute path: empty
    segments and ["."] are dropped, [".."] takes back the segment before it
    and is dropped at the root. [stack] holds the path so far, its last
    segment first. *)
Fixpoint resolve (stack segs : list string) : list string :=
  match segs with
  | [] => reverse stack
  | s :: segs =>
      if decide (s = "" ∨ s = ".") then resolve stack segs
      else if decide (s = "..") then resolve (tail stack) segs
      else resolve (s :: stack) segs
  end.

Definition of_segments (segs : list string) : string :=
  String.concat "" ((λ s, "/" +:+ s) <$> segs).

(** [path.join(dir, name)] for an absolute [dir] and any [name]. *)
Definition join (dir name : string) : string :=
  of_segments (resolve [] (segments dir ++ segments name)).

(** [path] is below the directory [dir]. *)
Definition under (dir path : string) : bool := String.prefix (dir +:+ "/") path.

(** [path] is what [fs.rm(dir, { recursive: true })] removes: the file
    [dir] itself, or a file below the directory [dir]. *)
Definition reaches (dir path : string) : bool :=
  String.eqb dir path || under dir path.

(** ** The text of the worker program

    [startScanWorker] builds the program of the worker as a template
    literal (lines 29 to 166), the initialiser of [const workerCode]. In
    that literal the backquotes and the [${] that belong to the program
    are written with a backslash (lines 50, 56 and 69). On line 103 they
    are not: [${parts.map(...).join(' ')}] and [${allList}] are
    substitutions of the literal itself, evaluated in the promise executor
    of [startScanWorker] before [new Worker] is reached. *)

(** The identifier each substitution of line 103 reads first, in the
    order of evaluation. *)
Definition template_reads : list string := ["parts"; "allList"].

(** The bindings in scope where the literal is evaluated: the parameters
    of the executor and of [startScanWorker], the declarations of the
    module and the parameters of the module wrapper; [workerCode] itself
    is not yet initialised. None of the names read is a property of Node's
    global object either. *)
Definition executor_scope : list string :=
  [ "resolve"; "reject"; "jobId"; "hostname"; "workdir";
    "express"; "Worker"; "fs"; "fsSync"; "path"; "os"; "randomBytes";
    "app"; "SCANS_DIR"; "jobs"; "validateHostname"; "startScanWorker";
    "PORT";
    "exports"; "require"; "module"; "__filename"; "__dirname" ].

(** [ReferenceError: x is not defined] *)
Definition ReferenceError (x : string) : jsError :=
  {| err_name := "ReferenceError"; err_message := x +:+ " is not defined" |}.

(** Evaluating a template literal throws at the first substitution that
    reads an unbound identifier. *)
Definition template_error (scope reads : list string) : option jsError :=
  ReferenceError <$> head (filter (λ x, x ∉ scope) reads).

(** What the initialiser of [workerCode] throws in server.js. *)
Definition workerCode_error : option jsError :=
  template_error executor_scope template_reads.

(** ** Host names

    A JavaScript string is a sequence of 16-bit code units, here numbers;
    [units] gives those of a text of 8-bit characters. *)

Definition units (s : string) : list N :=
  Ascii.N_of_ascii <$> String.list_ascii_of_string s.

(** What [toLowerCase] makes of one code unit, as far as code units below
    128 are concerned: Unicode's lower-case mapping takes [A] to [Z] to
    [a] to [z], the Kelvin sign U+212A to [k], and U+0130 to [i] followed
    by the combining dot U+0307; nothing else has a code unit below 128 in
    its image that it does not have itself. The other code units are left
    as they are here. *)
Definition lower_case (c : N) : list N :=
  if ((65 <=? c) && (c <=? 90))%N then [(c + 32)%N]
  else if (c =? 8490)%N then [107%N]
  else if (c =? 304)%N then [105%N; 775%N]
  else [c].

(** A code unit of the class [[a-z0-9.-]]. *)
Definition in_class (c : N) : bool :=
  ((97 <=? c) && (c <=? 122) || (48 <=? c) && (c <=? 57)
   || (c =? 46) || (c =? 45))%N.

(** [if (!hostname) return false;
     return /^[a-z0-9.-]+$/.test(hostname.toLowerCase())
            && hostname.includes('.');] *)
Definition validateHostname (hostname : list N) : bool :=
  match hostname with
  | [] => false
  | _ =>
      forallb in_class (hostname ≫= lower_case)
      && bool_decide (46%N ∈ hostname)
  end.

(** ** Handlers *)

Section Server.

(** [path.resolve(__dirname, 'scans')], and the platform's [URL] and
    [JSON.parse]. The host name of a URL is ASCII text. *)
Variable SCANS_DIR : string.
Variable URL_hostname : string → option string.
Variable JSON_parse : string → option json.

(** What the initialiser of [workerCode] throws, if anything. For
    server.js as it is this is [workerCode_error]. The handlers are
    modelled for either outcome, so that what is proved of them holds with
    and without the defect of line 103; what is proved of whole runs of
    server.js is proved for [workerCode_error]. *)
Variable template_throws : option jsError.

(** [path.join(SCANS_DIR, `scan-${jobId}`)] *)
Definition workdir_of (jobId : string) : string :=
  join SCANS_DIR ("scan-" +:+ jobId).

Definition jobs_set (jobId : string) (j : job) (st : server) : server :=
  {| jobs := <[jobId := j]> (jobs st); disk := disk st;
     threads := threads st; issued := issued st; removing := removing st;
     terminated := terminated st;
     writes := writes st ++ [(jobId, Some (j_status j))];
     made := made st |}.

Definition jobs_delete (jobId : string) (st : server) : server :=
  {| jobs := delete jobId (jobs st); disk := disk st;
     threads := threads st; issued := issued st; removing := removing st;
     terminated := terminated st;
     writes := writes st ++ match jobs st !! jobId with
                            | Some _ => [(jobId, None)]
                            | None => []
                            end;
     made := made st |}.

Definition set_thread (jobId : string) (t : thread) (st : server) : server :=
  {| jobs := jobs st; disk := disk st;
     threads := <[jobId := t]> (threads st); issued := issued st;
     removing := removing st; terminated := terminated st;
     writes := writes st; made := made st |}.

(** [fsSync.mkdirSync(workdir, { recursive: true })] inside
    [try { } catch(e){}]: the call is recorded; it creates directories
    only, and what it throws is dropped. *)
Definition mkdirSync (dir : string) (st : server) : server :=
  {| jobs := jobs st; disk := disk st; threads := threads st;
     issued := issued st; removing := removing st;
     terminated := terminated st; writes := writes st;
     made := made st ++ [dir] |}.

(** [startScanWorker], the executor of its promise: the initialiser of
    [workerCode] comes first; when it throws, the promise is rejected and
    nothing after it runs. So it is with [new Worker] ([started = false]).
    Otherwise [jobs.set(jobId, { status: 'running', worker })], and the
    handlers of the worker are attached. *)
Definition startScanWorker (jobId : string) (started : bool) (st : server)
  : server :=
  match template_throws with
  | Some _ => st
  | None =>
      if started then
        jobs_set jobId {| j_status := running; j_worker := true;
                          j_meta := None; j_error := None |}
                 (set_thread jobId Alive st)
      else st
  end.

(** [app.post('/scan', ...)] *)
Definition post_scan (url : option string) (rnd : string) (started : bool)
    (st : server) : server * response :=
  match url with
  | None => (st, {| code := 400; payload := ErrorBody "url required" |})
  | Some u =>
      if decide (u = "")
      then (st, {| code := 400; payload := ErrorBody "url required" |})
      else
        match URL_hostname u with
        | None => (st, {| code := 400; payload := ErrorBody "invalid url" |})
        | Some hostname =>
            if validateHostname (units hostname) then
              let st := {| jobs := jobs st; disk := disk st;
                           threads := threads st;
                           issued := {[rnd]} ∪ issued st;
                           removing := removing st;
                           terminated := terminated st;
                           writes := writes st; made := made st |} in
              let st := mkdirSync (workdir_of rnd) st in
              let st := jobs_set rnd {| j_status := queued; j_worker := false;
                                        j_meta := None; j_error := None |}
                                 st in
              (startScanWorker rnd started st,
               {| code := 200; payload := ScanStarted rnd |})
            else (st, {| code := 400;
                         payload := ErrorBody "invalid hostname" |})
        end
  end.

(** [worker.on('message', ...)] *)
Definition on_message (jobId : string) (m : message) (st : server) : server :=
  match m with
  | Log _ => st
  | Done meta =>
      jobs_set jobId {| j_status := done; j_worker := false;
                        j_meta := Some meta; j_error := None |} st
  | Error e =>
      jobs_set jobId {| j_status := failed; j_worker := false;
                        j_meta := None; j_error := Some e |} st
  end.

(** [worker.on('error', ...)] *)
Definition on_error (jobId : string) (err : jsError) (st : server) : server :=
  jobs_set jobId {| j_status := failed; j_worker := false; j_meta := None;
                    j_error := Some (err_message err) |} st.

(** [worker.on('exit', ...)]:
<<
    if (code !== 0) {
      const job = jobs.get(jobId) || {};
      if (job.status !== 'done' && job.status !== 'failed') {
        jobs.set(jobId, { status: 'failed', error: 'worker exited with code ' + code });
>> *)
Definition on_exit (jobId : string) (code : Z) (st : server) : server :=
  if decide (code ≠ 0) then
    let st_job := j_status <$> jobs st !! jobId in
    if decide (st_job ≠ Some done ∧ st_job ≠ Some failed) then
      jobs_set jobId
        {| j_status := failed; j_worker := false; j_meta := None;
           j_error := Some ("worker exited with code " +:+ pretty code) |} st
    else st
  else st.

(** [app.get('/status/:jobId', ...)]. The handler reads meta.json only
    when the table has no entry; the read is taken at the time of the
    request. *)
Definition get_status (jobId : string) (st : server) : response :=
  match jobs st !! jobId with
  | None =>
      match disk st !! path_join (workdir_of jobId) "meta.json" with
      | Some raw =>
          match JSON_parse raw with
          | Some meta =>
              {| code := 200; payload := StoredStatus jobId done meta |}
          | None => {| code := 404; payload := ErrorBody "job not found" |}
          end
      | None => {| code := 404; payload := ErrorBody "job not found" |}
      end
  | Some j =>
      {| code := 200;
         payload := JobStatus jobId (j_status j)
                      (match j_error j with
                       | Some e => if decide (e = "") then None else Some e
                       | None => None
                       end)
                      (j_meta j) |}
  end.

(** [app.get('/download/:jobId', ...)] *)
Definition get_download (jobId : string) (st : server) : response :=
  match disk st !! path_join (workdir_of jobId) "results.txt" with
  | Some c =>
      {| code := 200;
         payload := Attachment ("results-" +:+ jobId +:+ ".txt") c |}
  | None => {| code := 404; payload := ErrorBody "results not found" |}
  end.

(** [app.delete('/results/:jobId', ...)] up to [await fs.rm(...)]:
    [if (job && job.worker) job.worker.terminate()]. *)
Definition delete_start (jobId : string) (st : server) : server :=
  {| jobs := jobs st; disk := disk st; threads := threads st;
     issued := issued st; removing := removing st ++ [jobId];
     terminated :=
       match jobs st !! jobId with
       | Some j => if j_worker j then {[jobId]} ∪ terminated st
                   else terminated st
       | None => terminated st
       end;
     writes := writes st; made := made st |}.

Fixpoint remove_first (x : string) (l : list string) : list string :=
  match l with
  | [] => []
  | y :: l => if decide (x = y) then l else y :: remove_first x l
  end.

(** The files [fs.rm] has removed when it settles. *)
Definition removed_by (jobId : string) (o : removal) (path : string) : bool :=
  reaches (workdir_of jobId) path
  && match o with
     | Removed => true
     | Rejected gone => bool_decide (path ∈ gone)
     end.

(** ... and after it: on success the directory is gone, then
    [jobs.delete(jobId)] and 200; on failure 500, with whatever [fs.rm]
    had removed by then gone. *)
Definition delete_finish (jobId : string) (o : removal) (st : server)
  : server * response :=
  let st := {| jobs := jobs st;
               disk := filter (λ kv, removed_by jobId o kv.1 = false)
                              (disk st);
               threads := threads st; issued := issued st;
               removing := remove_first jobId (removing st);
               terminated := terminated st; writes := writes st;
               made := made st |} in
  match o with
  | Removed =>
      (jobs_delete jobId st, {| code := 200; payload := Deleted jobId |})
  | Rejected _ =>
      (st, {| code := 500; payload := ErrorBody "failed to delete" |})
  end.

(** A request, up to its response or to its first wait on the disk. *)
Definition on_request (rq : request) (rnd : string) (started : bool)
    (st : server) : server * option response :=
  match dispatch rq with
  | Some (EScan, _) =>
      let '(st, r) := post_scan (rq_url rq) rnd started st in (st, Some r)
  | Some (EStatus, [jobId]) => (st, Some (get_status jobId st))
  | Some (EDownload, [jobId]) => (st, Some (get_download jobId st))
  | Some (EDelete, [jobId]) => (delete_start jobId st, None)
  | Some (EHealth, _) => (st, Some {| code := 200; payload := Health true |})
  | _ => (st, Some {| code := 404; payload := NoRoute |})
  end.

(** The worker of [jobId] writes a file of its working directory. *)
Definition thread_write (jobId file content : string) (st : server) : server :=
  {| jobs := jobs st;
     disk := <[path_join (workdir_of jobId) file := content]> (disk st);
     threads := threads st; issued := issued st; removing := removing st;
     terminated := terminated st; writes := writes st; made := made st |}.

(** One turn of the event loop. *)
Definition handle (ev : event) (st : server) : server * option response :=
  match ev with
  | Http rq rnd started => on_request rq rnd started st
  | RmSettled jobId o =>
      let '(st, r) := delete_finish jobId o st in (st, Some r)
  | Message jobId m =>
      (on_message jobId m
         (match m with
          | Log _ => st
          | _ => set_thread jobId Signalled st
          end), None)
  | ThreadError jobId err =>
      (on_error jobId err (set_thread jobId Signalled st), None)
  | ThreadExit jobId code =>
      (on_exit jobId code (set_thread jobId (Exited code) st), None)
  | ThreadWrite jobId file content =>
      (thread_write jobId file content st, None)
  end.

(** What the environment can do next. [randomBytes(6)] is taken never to
    repeat a job id. A worker posts log messages and then at most one of
    [done] and [error] (see [Pipeline.worker_main]), or dies of an uncaught
    error; it exits once and is silent afterwards. A worker whose program
    runs to its end has posted [done] or [error], and that message is
    delivered before the exit event; [terminate()] and an uncaught error
    end a worker with code 1. So a worker that exits before its last
    message exits with a code other than 0. [fs.rm] settles only for a
    DELETE request that is waiting for it. *)
Definition allowed (ev : event) (st : server) : bool :=
  match ev with
  | Http rq rnd _ =>
      match dispatch rq with
      | Some (EScan, _) => bool_decide (rnd ∉ issued st)
      | _ => true
      end
  | RmSettled jobId _ => bool_decide (jobId ∈ removing st)
  | Message jobId _ | ThreadError jobId _ | ThreadWrite jobId _ _ =>
      bool_decide (threads st !! jobId = Some Alive)
  | ThreadExit jobId c =>
      bool_decide (threads st !! jobId = Some Signalled
                   ∨ (threads st !! jobId = Some Alive ∧ c ≠ 0))
  end.

Fixpoint run_events (evs : list event) (st : server) : option server :=
  match evs with
  | [] => Some st
  | ev :: evs =>
      if allowed ev st then run_events evs (handle ev st).1 else None
  end.

(** The server after start: an empty job table over whatever the disk
    holds from earlier runs. *)
Definition boot (files : gmap string string) : server :=
  {| jobs := ∅; disk := files; threads := ∅; issued := ∅; removing := [];
     terminated := ∅; writes := []; made := [] |}.

(** The statuses written for [jobId], with the deletions. *)
Definition history (jobId : string) (st : server) : list (option status) :=
  omap (λ w, if decide (w.1 = jobId) then Some w.2 else None) (writes st).

(** The statuses of a job from its creation to the first removal of its
    entry. *)
Fixpoint lifetime (h : list (option status)) : list status :=
  match h with
  | Some s :: h => s :: lifetime h
  | _ => []
  end.

End Server.

(** ** Vocabulary for the properties of the coordinator *)

Definition terminal (s : status) : Prop := s = done ∨ s = failed.

(** The statuses in a history, deletions left out. *)
Definition statuses (h : list (option status)) : list status := omap id h.

(** No deletion yet. *)
Definition intact (h : list (option status)) : Prop := Forall is_Some h.

(** What the state holds about one job id. *)
Record summary := {
  s_status : option status;
  s_thread : option thread;
  s_issued : bool;
  s_history : list (option status)
}.

Definition summarize (jobId : string) (st : server) : summary :=
  {| s_status := j_status <$> jobs st !! jobId;
     s_thread := threads st !! jobId;
     s_issued := bool_decide (jobId ∈ issued st);
     s_history := history jobId st |}.

(** How one turn of the event loop can change the summary of a job. *)
Inductive sstep : summary → summary → Prop :=
| ss_scan_started e th h :
    sstep {| s_status := e; s_thread := th; s_issued := false;
             s_history := h |}
          {| s_status := Some running; s_thread := Some Alive;
             s_issued := true;
             s_history := (h ++ [Some queued]) ++ [Some running] |}
| ss_scan_queued e th h :
    sstep {| s_status := e; s_thread := th; s_issued := false;
             s_history := h |}
          {| s_status := Some queued; s_thread := th; s_issued := true;
             s_history := h ++ [Some queued] |}
| ss_signal e i h t :
    terminal t →
    sstep {| s_status := e; s_thread := Some Alive; s_issued := i;
             s_history := h |}
          {| s_status := Some t; s_thread := Some Signalled; s_issued := i;
             s_history := h ++ [Some t] |}
| ss_exit_failed e th i h c :
    th = Alive ∨ th = Signalled →
    c ≠ 0 → e ≠ Some done → e ≠ Some failed →
    sstep {| s_status := e; s_thread := Some th; s_issued := i;
             s_history := h |}
          {| s_status := Some failed; s_thread := Some (Exited c);
             s_issued := i; s_history := h ++ [Some failed] |}
| ss_exit_quiet e th i h c :
    th = Alive ∨ th = Signalled →
    c = 0 ∨ e = Some done ∨ e = Some failed →
    sstep {| s_status := e; s_thread := Some th; s_issued := i;
             s_history := h |}
          {| s_status := e; s_thread := Some (Exited c); s_issued := i;
             s_history := h |}
| ss_delete e th i h :
    sstep {| s_status := Some e; s_thread := th; s_issued := i;
             s_history := h |}
          {| s_status := None; s_thread := th; s_issued := i;
             s_history := h ++ [None] |}.

(** What every reachable summary satisfies. *)
Record good (s : summary) : Prop := {
  g_fresh :
    s_issued s = false →
    s_history s = [] ∧ s_thread s = None ∧ s_status s = None;
  g_life :
    lifetime (s_history s) `prefix_of` [queued; running; done]
    ∨ lifetime (s_history s) `prefix_of` [queued; running; failed];
  g_intact :
    intact (s_history s) → s_issued s = true →
    match s_thread s with
    | None => s_history s = [Some queued] ∧ s_status s = Some queued
    | Some Alive =>
        s_history s = [Some queued; Some running]
        ∧ s_status s = Some running
    | Some Signalled =>
        ∃ t, terminal t
             ∧ s_history s = [Some queued; Some running; Some t]
             ∧ s_status s = Some t
    | Some (Exited c) =>
        (s_history s = [Some queued; Some running]
         ∧ s_status s = Some running ∧ c = 0)
        ∨ (∃ t, terminal t
                ∧ s_history s = [Some queued; Some running; Some t]
                ∧ s_status s = Some t)
    end;
  g_statuses :
    match s_thread s with
    | None => s_issued s = true → statuses (s_history s) = [queued]
    | Some _ =>
        ∃ ts, statuses (s_history s) = [queued; running] ++ ts
              ∧ Forall terminal ts
    end;
  g_alive :
    s_thread s = Some Alive →
    s_status s = None ∨ s_status s = Some running;
  g_exited :
    ∀ c, s_thread s = Some (Exited c) → c ≠ 0 →
    s_status s = None ∨ s_status s = Some done ∨ s_status s = Some failed
}.

End Coordinator.

(* ===================================================================== *)
(** * Checker: the input, the arguments and the summary of the checkers   *)
(* ===================================================================== *)

(** What url-checker.js and route-checker.js do around the pool: they read
    try.txt, parse the command line, build one URL per line, and count the
    results at the end. A string stands for its sequence of code units, all
    taken below 128 (ASCII text); the white space of Unicode beyond that
    range is outside the model. *)
Module Checker.
Import FetchPool.

(** ** [readLines], the same function in both programs *)

(** The white space and line terminators [trim] removes: tab, line feed,
    vertical tab, form feed, carriage return, space. *)
Definition is_ws (c : Ascii.ascii) : bool :=
  let n := Ascii.nat_of_ascii c in
  ((9 <=? n) && (n <=? 13) || (n =? 32))%nat.

Definition LFc : Ascii.ascii := Ascii.ascii_of_nat 10.
Definition CRc : Ascii.ascii := Ascii.ascii_of_nat 13.
Definition SLc : Ascii.ascii := Ascii.ascii_of_nat 47.

(** A character put in front of the first piece. *)
Definition push_char (a : Ascii.ascii) (ps : list string) : list string :=
  match ps with
  | [] => [String a EmptyString]
  | w :: ws => String a w :: ws
  end.

(** [raw.split(/\r?\n/)]: the text is cut at every line feed, and a
    carriage return right before the line feed goes with it. *)
Fixpoint split_lines (s : string) : list string :=
  match s with
  | EmptyString => [EmptyString]
  | String a s' =>
      if decide (a = LFc) then EmptyString :: split_lines s'
      else
        match s' with
        | String b s'' =>
            if decide (a = CRc ∧ b = LFc) then EmptyString :: split_lines s''
            else push_char a (split_lines s')
        | EmptyString => [String a EmptyString]
        end
  end.

Fixpoint trimStart (s : string) : string :=
  match s with
  | EmptyString => EmptyString
  | String c s' => if is_ws c then trimStart s' else s
  end.

Fixpoint trimEnd (s : string) : string :=
  match s with
  | EmptyString => EmptyString
  | String c s' =>
      match trimEnd s' with
      | EmptyString => if is_ws c then EmptyString else String c EmptyString
      | t => String c t
      end
  end.

(** [l.trim()] *)
Definition trim (s : string) : string := trimEnd (trimStart s).

(** [l.length > 0 && !l.startsWith("#")] *)
Definition kept (l : string) : Prop := l ≠ "" ∧ String.prefix "#" l = false.

#[global] Instance kept_dec l : Decision (kept l).
Proof. unfold kept. apply _. Defined.

(** [readLines], after the file is read:
    [raw.split(/\r?\n/).map(l => l.trim()).filter(...)]. *)
Definition readLines (raw : string) : list string :=
  filter kept (trim <$> split_lines raw).

(** ** [buildUrl] *)

(** [/^https?:\/\//i.test(s)] *)
Definition is_absolute (s : string) : bool :=
  String.prefix "http://" (Coordinator.toLowerCase s)
  || String.prefix "https://" (Coordinator.toLowerCase s).

(** [s.replace(/^\/+/, "")] *)
Fixpoint strip_slashes (s : string) : string :=
  match s with
  | String c s' => if decide (c = SLc) then strip_slashes s' else s
  | EmptyString => EmptyString
  end.

Fixpoint last_char (s : string) : option Ascii.ascii :=
  match s with
  | EmptyString => None
  | String c EmptyString => Some c
  | String _ s' => last_char s'
  end.

(** [s.endsWith("/")] and [s.startsWith("/")] *)
Definition endsWith_slash (s : string) : bool :=
  bool_decide (last_char s = Some SLc).

Definition startsWith_slash (s : string) : bool := String.prefix "/" s.

Section BuildUrl.

(** [new URL(s, base).toString()] of the platform; [None]: it throws. *)
Variable URL : string → string → option string.

(** [buildUrl] of url-checker.js (src/others/main.js). *)
Definition buildUrl (base suffix : string) : string :=
  let sRaw := trim suffix in
  if is_absolute sRaw then sRaw
  else
    let s := if String.prefix "?" sRaw then sRaw else strip_slashes sRaw in
    let baseNorm := if endsWith_slash base then base else base +:+ "/" in
    match URL s baseNorm with
    | Some u => u
    | None =>
        if negb (endsWith_slash baseNorm) && negb (startsWith_slash s)
        then baseNorm +:+ "/" +:+ s
        else baseNorm +:+ s
    end.

(** [buildUrl] of route-checker.js (src/url-checker.js): no normalizing
    of [base] and [suffix], and the fallback joins the untrimmed suffix. *)
Definition buildUrl_route (base suffix : string) : string :=
  let s := trim suffix in
  if is_absolute s then s
  else
    match URL s base with
    | Some u => u
    | None =>
        if negb (endsWith_slash base) && negb (startsWith_slash suffix)
        then base +:+ "/" +:+ suffix
        else base +:+ suffix
    end.

End BuildUrl.

(** ** The command line *)

Definition DEFAULT_BASE_URL : string := "https://api.crm.luminartechnolab.com/api".
Definition DEFAULT_CONCURRENCY : Z := 10.
Definition DEFAULT_TIMEOUT_MS : Z := 5000.
Definition DEFAULT_OUT_FILE : string := "results.txt".
Definition DEFAULT_PORT : Z := 3000.

(** [{ baseUrl, concurrency, timeoutMs, outFile, port }] *)
Record args := {
  a_baseUrl : string;
  a_concurrency : Z;
  a_timeoutMs : Z;
  a_outFile : string;
  a_port : Z
}.

(** What route-checker.js reads from its command line. *)
Record route_args := {
  ra_baseUrl : string;
  ra_concurrency : Z;
  ra_timeoutMs : Z
}.

Section Args.

(** [parseInt(s, 10)] of the platform, as an integer; [None] is NaN. *)
Variable parseInt : string → option Z.

(** [parseInt(s, 10) || d]: NaN and 0 are falsy. *)
Definition int_or (s : string) (d : Z) : Z :=
  match parseInt s with
  | Some n => if decide (n = 0) then d else n
  | None => d
  end.

(** The loop of [parseArgs]. A flag counts only when a non-empty argument
    follows it, and then that argument is skipped:
<<
    for (let i = 0; i < argv.length; i++) {
      const a = argv[i];
      if ((a === "-c" || a === "--concurrency") && argv[i + 1]) {
        concurrency = parseInt(argv[i + 1], 10) || concurrency; i++;
      } else if ((a === "-t" || a === "--timeout") && argv[i + 1]) { ... }
      else if (a === "--out" && argv[i + 1]) { outFile = argv[i + 1]; i++; }
      else if (a === "--port" && argv[i + 1]) { ... }
    }
>> *)
Fixpoint parse_flags (argv : list string) (a : args) : args :=
  match argv with
  | [] => a
  | x :: rest =>
      match rest with
      | [] => a
      | v :: rest' =>
          if decide (v = "") then parse_flags rest a
          else if decide (x = "-c" ∨ x = "--concurrency") then
            parse_flags rest'
              {| a_baseUrl := a_baseUrl a;
                 a_concurrency := int_or v (a_concurrency a);
                 a_timeoutMs := a_timeoutMs a; a_outFile := a_outFile a;
                 a_port := a_port a |}
          else if decide (x = "-t" ∨ x = "--timeout") then
            parse_flags rest'
              {| a_baseUrl := a_baseUrl a; a_concurrency := a_concurrency a;
                 a_timeoutMs := int_or v (a_timeoutMs a);
                 a_outFile := a_outFile a; a_port := a_port a |}
          else if decide (x = "--out") then
            parse_flags rest'
              {| a_baseUrl := a_baseUrl a; a_concurrency := a_concurrency a;
                 a_timeoutMs := a_timeoutMs a; a_outFile := v;
                 a_port := a_port a |}
          else if decide (x = "--port") then
            parse_flags rest'
              {| a_baseUrl := a_baseUrl a; a_concurrency := a_concurrency a;
                 a_timeoutMs := a_timeoutMs a; a_outFile := a_outFile a;
                 a_port := int_or v (a_port a) |}
          else parse_flags rest a
      end
  end.

Definition defaults : args :=
  {| a_baseUrl := DEFAULT_BASE_URL; a_concurrency := DEFAULT_CONCURRENCY;
     a_timeoutMs := DEFAULT_TIMEOUT_MS; a_outFile := DEFAULT_OUT_FILE;
     a_port := DEFAULT_PORT |}.

(** [parseArgs] of url-checker.js: the first argument is the base URL
    unless it starts with two dashes. *)
Definition parseArgs (argvRaw : list string) : args :=
  match argvRaw with
  | first :: rest =>
      if String.prefix "--" first then parse_flags argvRaw defaults
      else parse_flags rest
             {| a_baseUrl := first; a_concurrency := DEFAULT_CONCURRENCY;
                a_timeoutMs := DEFAULT_TIMEOUT_MS;
                a_outFile := DEFAULT_OUT_FILE; a_port := DEFAULT_PORT |}
  | [] => defaults
  end.

(** The flag loop of route-checker.js, over the arguments after the
    first. *)
Fixpoint parse_route_flags (argv : list string) (a : route_args)
  : route_args :=
  match argv with
  | [] => a
  | x :: rest =>
      match rest with
      | [] => a
      | v :: rest' =>
          if decide (v = "") then parse_route_flags rest a
          else if decide (x = "--concurrency") then
            parse_route_flags rest'
              {| ra_baseUrl := ra_baseUrl a;
                 ra_concurrency := int_or v (ra_concurrency a);
                 ra_timeoutMs := ra_timeoutMs a |}
          else if decide (x = "--timeout") then
            parse_route_flags rest'
              {| ra_baseUrl := ra_baseUrl a;
                 ra_concurrency := ra_concurrency a;
                 ra_timeoutMs := int_or v (ra_timeoutMs a) |}
          else parse_route_flags rest a
      end
  end.

(** The start of [run] in route-checker.js; [None]: the usage text and
    [process.exit(1)]. *)
Definition route_arguments (argv : list string) : option route_args :=
  match argv with
  | [] => None
  | first :: rest =>
      Some (parse_route_flags rest
              {| ra_baseUrl := first; ra_concurrency := 10;
                 ra_timeoutMs := 8000 |})
  end.

End Args.

(** ** The summary *)

#[global] Instance statusField_eq_dec : EqDecision statusField.
Proof. solve_decision. Defined.

(** [r.status === "OK" || (typeof r.status === "number" && r.status >= 200
    && r.status < 300)]: the status of a result is a number or the string
    "ERROR", so the first test never holds. *)
Definition counts_as_ok (r : resultObj) : bool :=
  match r_status r with
  | StatusERROR => false
  | StatusCode s => (200 <=? s) && (s <? 300)
  end.

Definition okCount (results : list resultObj) : nat :=
  length (filter (λ r, counts_as_ok r = true) results).

(** [results.filter(r => r.tag === "REDIRECT").length] *)
Definition redirectCount (results : list resultObj) : nat :=
  length (filter (λ r, r_tag r = Some "REDIRECT") results).

(** ** Vocabulary for the properties of the results *)

Section Results.

Variable buildUrl : string → string → string.
Variable v : variant.
Variable baseUrl : string.
Variable lines : list string.

(** What every result object of a run looks like. *)
Definition well_formed (r : resultObj) : Prop :=
  r_suffix r ∈ lines
  ∧ r_url r = buildUrl baseUrl (r_suffix r)
  ∧ match r_status r with
    | StatusCode s =>
        r_tag r = Some (classify s) ∧ r_detail r = None
        ∧ is_Some (r_time r)
    | StatusERROR =>
        is_Some (r_detail r)
        ∧ r_tag r = match v with
                    | UrlChecker => Some "ERROR"
                    | RouteChecker => None
                    end
    end.

(** A pending fetch is for a line of try.txt and its URL. *)
Definition fetch_ok (p : pc) : Prop :=
  match p with
  | AwaitFetch i s u => lines !! i = Some s ∧ u = buildUrl baseUrl s
  | _ => True
  end.

(** What holds of the results and of the pending fetches between two
    steps of the pool. *)
Definition shaped (st : pool) : Prop :=
  Forall well_formed (results st) ∧ Forall fetch_ok (workers st).

End Results.

(** A result whose status is a number from [lo] up to, not including,
    [hi]. *)
Definition status_in (lo hi : Z) (r : resultObj) : bool :=
  match r_status r with
  | StatusCode s => (lo <=? s) && (s <? hi)
  | StatusERROR => false
  end.

(** The lines whose [appendFile] is pending. *)
Definition pending_lines (ws : list pc) : list string :=
  omap (λ p, match p with AwaitAppend l => Some l | _ => None end) ws.

(** The line url-checker.js appends for a result. *)
Definition file_line (r : resultObj) : string := makeReadableLine r +:+ LF.

(** A schedule in which no [appendFile] fails. *)
Definition appends_succeed (sched : list (nat * resolution)) : Prop :=
  Forall (λ kr, kr.2 ≠ AppendResolved false) sched.

End Checker.

(* ===================================================================== *)
(** * Spawn: [spawnCmd] of the worker program                             *)
(* ===================================================================== *)

(** [spawnCmd(cmd, args, opts)] returns a promise and attaches listeners to
    the child process; with [opts.timeout] it also starts a timer that is
    never cleared. The model follows the executor of the promise and the
    listeners: what each does to the collected output and to the promise,
    which settles once. *)
Module Spawn.

(** What the child process and the timer can deliver. The exit code of
    ['close'] is [null] when a signal ended the child. *)
Inductive child_event :=
| StdoutData (d : string)
| StderrData (d : string)
| ChildError (err : jsError)
| ChildClose (code : option Z)
| TimerFired.

(** The variables of one call: the collected output, the promise, and how
    often [child.kill('SIGTERM')] was called. *)
Record call := {
  sp_stdout : string;
  sp_stderr : string;
  sp_settled : option (jsError + string * string);
  sp_kills : nat
}.

(** [resolve(...)] and [reject(...)]: only the first call counts. *)
Definition settle (r : jsError + string * string) (c : call) : call :=
  match sp_settled c with
  | Some _ => c
  | None =>
      {| sp_stdout := sp_stdout c; sp_stderr := sp_stderr c;
         sp_settled := Some r; sp_kills := sp_kills c |}
  end.

Definition code_text (code : option Z) : string :=
  match code with
  | Some n => pretty n
  | None => "null"
  end.

Section Call.

Variable cmd : string.
Variable timeout : Z.

(** What [spawn(cmd, args, { ...opts, stdio })] throws, if it refuses its
    arguments: [opts] is handed on to [spawn], which has a [timeout] option
    of its own and throws a RangeError for a negative one, as it throws
    for an empty command. The call is the first statement of the executor,
    so the promise is then rejected with that error, and no listener and no
    timer exists. *)
Variable refused : option jsError.

(** [new Error(`${cmd} exited ${code}: ${stderr}`)] *)
Definition exit_error (code : option Z) (stderr : string) : jsError :=
  {| err_name := "Error";
     err_message := cmd +:+ " exited " +:+ code_text code +:+ ": "
                    +:+ stderr |}.

(** [new Error(`${cmd} timed out after ${opts.timeout}ms`)] *)
Definition timeout_error : jsError :=
  {| err_name := "Error";
     err_message := cmd +:+ " timed out after " +:+ pretty timeout
                    +:+ "ms" |}.

(** One event, handled by its listener:
<<
    child.stdout.on('data', (d) => { stdout += d.toString(); });
    child.stderr.on('data', (d) => { stderr += d.toString(); });
    child.on('error', (err) => reject(err));
    child.on('close', (code) => {
      if (code === 0) resolve({ stdout, stderr });
      else reject(new Error(`${cmd} exited ${code}: ${stderr}`));
    });
    if (opts.timeout) {
      setTimeout(() => {
        try { child.kill('SIGTERM'); } catch(e){}
        reject(new Error(`${cmd} timed out after ${opts.timeout}ms`));
      }, opts.timeout);
    }
>>
    Without a timeout (0 is falsy) no timer is started, and [TimerFired]
    does nothing. The events are those of a child that [spawn] returned;
    after a refusal none of them occurs. *)
Definition step (c : call) (ev : child_event) : call :=
  match ev with
  | StdoutData d =>
      {| sp_stdout := sp_stdout c +:+ d; sp_stderr := sp_stderr c;
         sp_settled := sp_settled c; sp_kills := sp_kills c |}
  | StderrData d =>
      {| sp_stdout := sp_stdout c; sp_stderr := sp_stderr c +:+ d;
         sp_settled := sp_settled c; sp_kills := sp_kills c |}
  | ChildError err => settle (inl err) c
  | ChildClose code =>
      if decide (code = Some 0)
      then settle (inr (sp_stdout c, sp_stderr c)) c
      else settle (inl (exit_error code (sp_stderr c))) c
  | TimerFired =>
      if decide (timeout = 0) then c
      else settle (inl timeout_error)
             {| sp_stdout := sp_stdout c; sp_stderr := sp_stderr c;
                sp_settled := sp_settled c; sp_kills := S (sp_kills c) |}
  end.

(** The call when the executor has run: rejected if [spawn] threw,
    pending otherwise. *)
Definition started : call :=
  {| sp_stdout := ""; sp_stderr := "";
     sp_settled := match refused with
                   | Some e => Some (inl e)
                   | None => None
                   end;
     sp_kills := 0 |}.

(** The call after a list of events. *)
Definition after (evs : list child_event) : call := foldl step started evs.

End Call.

(** ** Vocabulary *)

Definition is_data (ev : child_event) : Prop :=
  match ev with
  | StdoutData _ | StderrData _ => True
  | _ => False
  end.

(** The text collected from the data events of one stream. *)
Definition collected_out (evs : list child_event) : string :=
  String.concat ""
    (omap (λ ev, match ev with StdoutData d => Some d | _ => None end) evs).

Definition collected_err (evs : list child_event) : string :=
  String.concat ""
    (omap (λ ev, match ev with StderrData d => Some d | _ => None end) evs).

End Spawn.

(* ===================================================================== *)
(** * Outcome: vocabulary for whole runs of the worker program            *)
(* ===================================================================== *)

Module Outcome.
Import Pipeline.

(** The messages, the commands and the paths written, of a list of
    effects. *)
Definition messages (t : list effect) : list message :=
  omap (λ e, match e with Post m => Some m | _ => None end) t.

Definition commands (t : list effect) : list string :=
  omap (λ e, match e with Spawn cmd _ _ => Some cmd | _ => None end) t.

Definition written (t : list effect) : list string :=
  omap (λ e, match e with WriteFile p _ => Some p | _ => None end) t.

(** A computation of the worker, started on files that satisfy [Pre],
    appends some effects [t], leaves files [fs] and ends with a result [r]
    such that [Post fs t r]. *)
Definition triple {A} (Pre : gmap string string → Prop) (m : W A)
    (Post : gmap string string → list effect → jsError + A → Prop) : Prop :=
  ∀ s, Pre (files s) →
    ∃ t, trace (m s).1 = trace s ++ t ∧ Post (files (m s).1) t (m s).2.

(** Log messages only, no command and no write. *)
Definition only_logs (t : list effect) : Prop :=
  Forall (λ e, ∃ txt, e = Post (Log txt)) t.

Section Metadata.

Variable P : platform.
Variable wd : workerData.

(** The metadata as the save task writes it to meta.json: five tasks, no
    finish time. *)
Definition stored_meta : Meta :=
  push_task P "parse_httpx"
    (push_task P "httpx"
       (push_task P "merge"
          (push_task P "amass"
             (push_task P "subfinder"
                {| m_jobId := jobId wd; m_hostname := hostname wd;
                   m_tasks := []; m_startedAt := startedAt_iso P;
                   m_finishedAt := None |})))).

(** The metadata of the [done] message: the sixth task and the finish
    time are added after meta.json is written. *)
Definition reported_meta : Meta :=
  {| m_jobId := jobId wd; m_hostname := hostname wd;
     m_tasks := m_tasks (push_task P "save_results" stored_meta);
     m_startedAt := startedAt_iso P;
     m_finishedAt := Some (finishedAt_iso P) |}.

(** [err.message || String(err)], the text of the [error] message. *)
Definition error_text (e : jsError) : string :=
  str_or (err_message e) (String_of_error e).

(** A record the save stage can turn into an entry of results.txt: not
    [null], and with fields that string concatenation can convert. *)
Definition writable (it : json) : Prop := ∃ l, txt_entry P it = inr l.

End Metadata.

End Outcome.

(* ===================================================================== *)
(** * Lifecycle: vocabulary for the job table over a whole run            *)
(* ===================================================================== *)

Module Lifecycle.
Import Pipeline Coordinator.

(** The optional fields of an entry go with its status: the worker handle
    with [running], the metadata with [done], the error text with
    [failed]. *)
Definition entry_ok (j : job) : Prop :=
  (j_worker j = true ↔ j_status j = running)
  ∧ (is_Some (j_meta j) ↔ j_status j = done)
  ∧ (is_Some (j_error j) ↔ j_status j = failed).

(** The status of an entry goes with the state of the job's worker
    thread. *)
Definition tracks (s : summary) : Prop :=
  match s_status s with
  | None => True
  | Some queued => s_thread s = None
  | Some running =>
      s_thread s = Some Alive ∨ s_thread s = Some (Exited 0)
  | Some _ => ∃ th, s_thread s = Some th ∧ th ≠ Alive
  end.

(** A [done] or [error] message of the worker of [jobId]. *)
Definition last_message (jobId : string) (ev : event) : Prop :=
  match ev with
  | Message id (Done _) | Message id (Error _) => id = jobId
  | _ => False
  end.

(** An ['error'] event of the worker of [jobId]. *)
Definition worker_error (jobId : string) (ev : event) : Prop :=
  match ev with
  | ThreadError id _ => id = jobId
  | _ => False
  end.

(** The entry the exit handler writes:
    [{ status: 'failed', error: 'worker exited with code ' + code }]. *)
Definition exit_entry (c : Z) : job :=
  {| j_status := failed; j_worker := false; j_meta := None;
     j_error := Some ("worker exited with code " +:+ pretty c) |}.

(** An entry that reports a failure: [failed], with an error text and no
    metadata. *)
Definition failure (j : job) : Prop :=
  j_status j = failed ∧ is_Some (j_error j) ∧ j_meta j = None.

(** The entry POST /scan writes first: [{ status: 'queued' }]. *)
Definition queued_entry : job :=
  {| j_status := queued; j_worker := false; j_meta := None;
     j_error := None |}.

(** A server without a worker thread, with queued jobs only. *)
Definition idle (st : server) : Prop :=
  threads st = ∅ ∧ ∀ id j, jobs st !! id = Some j → j = queued_entry.

(** A deleted job: no worker, no entry, nothing at or below the path of
    its work directory. *)
Definition forgotten (SCANS_DIR : string) (id : string) (st : server)
  : Prop :=
  threads st = ∅ ∧ id ∈ issued st ∧ jobs st !! id = None
  ∧ ∀ p, reaches (workdir_of SCANS_DIR id) p = true → disk st !! p = None.

(** [GET /status/<id>] *)
Definition status_query (id : string) : request :=
  {| rq_method := GET; rq_path := ["status"; id]; rq_url := None |}.

(** An event of the main thread alone: a request or a settled [fs.rm]. *)
Definition own_event (ev : event) : Prop :=
  match ev with
  | Http _ _ _ | RmSettled _ _ => True
  | _ => False
  end.

(** A job id as [randomBytes(6).toString('hex')] spells it: lower-case
    hexadecimal digits. *)
Definition hex_digit (c : Ascii.ascii) : bool :=
  let n := Ascii.nat_of_ascii c in
  ((48 <=? n) && (n <=? 57) || (97 <=? n) && (n <=? 102))%nat.

Definition hex_id (s : string) : Prop :=
  Forall (λ c, hex_digit c = true) (String.list_ascii_of_string s).

(** An absolute path in the form [path.resolve] gives: segments that are
    not empty, not ["."] and not [".."], each after a slash. *)
Definition plain_segment (s : string) : Prop :=
  (SLc ∉ String.list_ascii_of_string s) ∧ s ≠ "" ∧ s ≠ "." ∧ s ≠ "..".

Definition resolved (p : string) : Prop :=
  ∃ segs, Forall plain_segment segs ∧ p = of_segments segs.

(** An ASCII letter, a digit, a dot, a hyphen, or the Kelvin sign. *)
Definition host_unit (c : N) : bool :=
  ((48 <=? c) && (c <=? 57) || (65 <=? c) && (c <=? 90)
   || (97 <=? c) && (c <=? 122) || (c =? 45) || (c =? 46)
   || (c =? 8490))%N.

(** A letter, a digit, a dot or a hyphen. *)
Definition host_char (c : Ascii.ascii) : bool :=
  let n := Ascii.nat_of_ascii c in
  ((48 <=? n) && (n <=? 57) || (65 <=? n) && (n <=? 90)
   || (97 <=? n) && (n <=? 122) || (n =? 45) || (n =? 46))%nat.

End Lifecycle.

(* ===================================================================== *)
(** * Concrete inputs                                                     *)
(* ===================================================================== *)

Module Demo.
Import Pipeline Coordinator.

(** *** The URL checker on three suffixes with two workers *)

Definition buildUrl (base suffix : string) : string := base +:+ "/" +:+ suffix.
Definition baseUrl : string := "https://example.test".
Definition timeoutMs : Z := 5000.
Definition lines : list string := ["ok"; "missing"; "slow"].

Definition abort : jsError :=
  {| err_name := "AbortError"; err_message := "This operation was aborted" |}.

(** [ok] answers 200, [missing] 404, [slow] runs into the timeout. *)
Definition schedule : list (nat * FetchPool.resolution) :=
  [ (0%nat, FetchPool.FetchResolved (FetchPool.FetchOk 200) 12);
    (0%nat, FetchPool.AppendResolved true);
    (0%nat, FetchPool.WaitResolved);
    (1%nat, FetchPool.FetchResolved (FetchPool.FetchOk 404) 20);
    (1%nat, FetchPool.AppendResolved true);
    (1%nat, FetchPool.WaitResolved);
    (0%nat, FetchPool.FetchResolved (FetchPool.FetchErr abort) 5001);
    (0%nat, FetchPool.AppendResolved true);
    (0%nat, FetchPool.WaitResolved) ].

(** *** A job *)

Definition SCANS_DIR : string := "/srv/scans".
Definition id : string := "a1b2c3d4e5f6".

Definition wd : workerData :=
  {| jobId := id; hostname := "example.test";
     workdir := "/srv/scans/scan-a1b2c3d4e5f6" |}.

Definition URL_hostname (u : string) : option string :=
  if decide (u = "https://example.test/") then Some "example.test" else None.

(** A parser that knows three texts. *)
Definition JSON_parse (l : string) : option json :=
  if decide (l = "{}") then Some (JObj [])
  else if decide (l = "true") then Some (JBool true)
  else if decide (l = "null") then Some JNull
  else None.

(** A platform where the discovery tools and the shell work and [httpx]
    is not installed. *)
Definition platform : Pipeline.platform :=
  {| exec := λ cmd args timeout fs,
       if decide (cmd = "subfinder") then
         (<[subfinderOut wd := "b.example.test" +:+ LF +:+ "a.example.test"
                               +:+ LF]> fs, None)
       else if decide (cmd = "amass") then
         (<[amassOut wd := "a.example.test" +:+ LF +:+ "c.example.test"
                           +:+ LF]> fs, None)
       else if decide (cmd = "bash") then
         (<[allList wd := sh_cat_sort_u fs (present_parts wd fs)]> fs, None)
       else
         (fs, Some {| err_name := "Error";
                      err_message := "spawn " +:+ cmd +:+ " ENOENT" |});
     mkdir_error := λ _, None;
     write_error := λ _, None;
     Pipeline.JSON_parse := JSON_parse;
     stringify_records := λ _, "[]";
     stringify_meta := λ _, "{}";
     ToString := λ _, inr "";
     elapsed := λ _, 0;
     startedAt_iso := "2024-01-01T00:00:00.000Z";
     finishedAt_iso := "2024-01-01T00:00:01.000Z" |}.

(** Both discovery outputs exist; one entry occurs in both. *)
Definition discovered : wstate :=
  {| files := {[ subfinderOut wd := "b.example.test" +:+ LF
                                    +:+ "a.example.test" +:+ LF;
                 amassOut wd := "a.example.test" +:+ LF
                                +:+ "c.example.test" +:+ LF ]};
     trace := [] |}.

(** A probe output of four lines, one of them empty. *)
Definition probe_output : string :=
  "true" +:+ LF +:+ LF +:+ "not json" +:+ LF +:+ "{}".

Definition probed : wstate :=
  {| files := {[ httpxOut wd := probe_output ]}; trace := [] |}.

Definition scan_request : request :=
  {| rq_method := POST; rq_path := ["scan"];
     rq_url := Some "https://example.test/" |}.

Definition delete_request : request :=
  {| rq_method := DELETE; rq_path := ["results"; id]; rq_url := None |}.

Definition health_request : request :=
  {| rq_method := GET; rq_path := ["status"; "health"]; rq_url := None |}.

Definition meta : Meta :=
  {| m_jobId := id; m_hostname := "example.test"; m_tasks := [];
     m_startedAt := "2024-01-01T00:00:00.000Z";
     m_finishedAt := Some "2024-01-01T00:00:01.000Z" |}.

(** The events below are run on a server whose worker program could be
    built. *)
Definition run_events :=
  Coordinator.run_events SCANS_DIR URL_hostname JSON_parse None.
Definition get_status := Coordinator.get_status SCANS_DIR JSON_parse.

(** A job that ran to its [done] message. *)
Definition finished_run : list event :=
  [ Http scan_request id true; Message id (Log "[TASK] ...");
    Message id (Done meta); ThreadExit id 0 ].

(** A job whose worker is running. *)
Definition started : list event := [ Http scan_request id true ].

(** A job whose worker exits with code 1 and no message. *)
Definition crashed : list event :=
  [ Http scan_request id true; ThreadExit id 1 ].

(** The state after a list of events, from an empty disk. *)
Definition after (evs : list event) : server :=
  default (boot ∅) (run_events evs (boot ∅)).

(** A restarted server whose disk holds the metadata of an earlier job. *)
Definition restarted : server :=
  boot {[ path_join (workdir_of SCANS_DIR id) "meta.json" := "{}" ]}.

End Demo.

(* ===================================================================== *)
(** * Further concrete inputs                                             *)
(* ===================================================================== *)

Module Cases.
Import Pipeline Coordinator.

(** *** The command line *)

(** A [parseInt] that knows three texts. *)
Definition parseInt (s : string) : option Z :=
  if String.eqb s "20" then Some 20
  else if String.eqb s "-3" then Some (-3)
  else if String.eqb s "0" then Some 0
  else None.

(** *** The pool of [Demo] at its start and after [Demo.schedule] *)

Definition pool_start : FetchPool.pool :=
  default FetchPool.empty_pool
    (FetchPool.start_workers Demo.buildUrl Demo.baseUrl Demo.lines 2).

Definition pool_end : FetchPool.pool :=
  default pool_start
    (FetchPool.run Demo.buildUrl FetchPool.UrlChecker Demo.baseUrl
       Demo.timeoutMs Demo.lines Demo.schedule pool_start).

(** *** Platforms *)

Definition enoent (cmd : string) : jsError :=
  {| err_name := "Error"; err_message := "spawn " +:+ cmd +:+ " ENOENT" |}.

(** Only the shell is installed; no line parses. *)
Definition bare : platform :=
  {| exec := λ cmd args timeout fs,
       if String.eqb cmd "bash" then (<[allList Demo.wd := ""]> fs, None)
       else (fs, Some (enoent cmd));
     mkdir_error := λ _, None;
     write_error := λ _, None;
     Pipeline.JSON_parse := λ _, None;
     stringify_records := λ _, "[]";
     stringify_meta := λ _, "{}";
     ToString := λ _, inr "";
     elapsed := λ _, 0;
     startedAt_iso := "2024-01-01T00:00:00.000Z";
     finishedAt_iso := "2024-01-01T00:00:01.000Z" |}.

(** Only subfinder is installed: no amass, no shell, no httpx. *)
Definition no_shell : platform :=
  {| exec := λ cmd args timeout fs,
       if String.eqb cmd "subfinder"
       then (<[subfinderOut Demo.wd := "a.example.test" +:+ LF]> fs, None)
       else (fs, Some (enoent cmd));
     mkdir_error := λ _, None;
     write_error := λ _, None;
     Pipeline.JSON_parse := λ _, None;
     stringify_records := λ _, "[]";
     stringify_meta := λ _, "{}";
     ToString := λ _, inr "";
     elapsed := λ _, 0;
     startedAt_iso := "2024-01-01T00:00:00.000Z";
     finishedAt_iso := "2024-01-01T00:00:01.000Z" |}.

(** The work directory cannot be made. *)
Definition read_only : platform :=
  {| exec := λ cmd args timeout fs, (fs, Some (enoent cmd));
     mkdir_error := λ p,
       Some {| err_name := "Error";
               err_message := "EACCES: permission denied, mkdir '" +:+ p
                              +:+ "'" |};
     write_error := λ _, None;
     Pipeline.JSON_parse := λ _, None;
     stringify_records := λ _, "[]";
     stringify_meta := λ _, "{}";
     ToString := λ _, inr "";
     elapsed := λ _, 0;
     startedAt_iso := "2024-01-01T00:00:00.000Z";
     finishedAt_iso := "2024-01-01T00:00:01.000Z" |}.

(** A probe output of three lines, the second of them [null]. *)
Definition null_output : string := "{}" +:+ LF +:+ "null" +:+ LF +:+ "true".

(** httpx works and reports those lines. *)
Definition null_probe : platform :=
  {| exec := λ cmd args timeout fs,
       if String.eqb cmd "httpx"
       then (<[httpxOut Demo.wd := null_output]> fs, None)
       else if String.eqb cmd "bash" then (fs, None)
       else (fs, Some (enoent cmd));
     mkdir_error := λ _, None;
     write_error := λ _, None;
     Pipeline.JSON_parse := Demo.JSON_parse;
     stringify_records := λ _, "[{},null,true]";
     stringify_meta := λ _, "{}";
     ToString := λ _, inr "";
     elapsed := λ _, 0;
     startedAt_iso := "2024-01-01T00:00:00.000Z";
     finishedAt_iso := "2024-01-01T00:00:01.000Z" |}.

(** [TypeError: Cannot convert object to primitive value] *)
Definition no_primitive : jsError :=
  {| err_name := "TypeError";
     err_message := "Cannot convert object to primitive value" |}.

(** String concatenation on texts and on objects: an object without a
    [toString] of its own becomes [[object Object]]; one with a [toString]
    of its own, which in a parsed value is never a function, has no
    primitive form. *)
Definition concatenated (v : option json) : jsError + string :=
  match v with
  | Some (JStr s) => inr s
  | Some (JObj fields) =>
      if bool_decide (is_Some (prop (JObj fields) "toString"))
      then inl no_primitive
      else inr "[object Object]"
  | _ => inr ""
  end.

(** A probe line whose [url] is such an object:
    [{"url":{"toString":1}}]. *)
Definition unprintable_output : string :=
  "{" +:+ DQ +:+ "url" +:+ DQ +:+ ":{" +:+ DQ +:+ "toString" +:+ DQ
      +:+ ":1}}".

Definition unprintable_record : json :=
  JObj [("url", JObj [("toString", JNum (QArith_base.Qmake 1 1))])].

(** httpx works and reports that line. *)
Definition unprintable_probe : platform :=
  {| exec := λ cmd args timeout fs,
       if String.eqb cmd "httpx"
       then (<[httpxOut Demo.wd := unprintable_output]> fs, None)
       else if String.eqb cmd "bash" then (fs, None)
       else (fs, Some (enoent cmd));
     mkdir_error := λ _, None;
     write_error := λ _, None;
     Pipeline.JSON_parse := λ l,
       if String.eqb l unprintable_output then Some unprintable_record
       else None;
     stringify_records := λ _, unprintable_output;
     stringify_meta := λ _, "{}";
     ToString := concatenated;
     elapsed := λ _, 0;
     startedAt_iso := "2024-01-01T00:00:00.000Z";
     finishedAt_iso := "2024-01-01T00:00:01.000Z" |}.

(** *** A second job id *)

Definition other_id : string := "0f0f0f0f0f0f".

(** A job id with dot segments that [path.join] resolves to the work
    directory of [other_id]. *)
Definition crafted_id : string := "x/../scan-0f0f0f0f0f0f".

(** Two jobs that are done, with a result file each. *)
Definition two_jobs : server :=
  {| jobs := {[ Demo.id := {| j_status := done; j_worker := false;
                              j_meta := Some Demo.meta; j_error := None |};
                other_id := {| j_status := done; j_worker := false;
                               j_meta := Some Demo.meta;
                               j_error := None |} ]};
     disk := {[ path_join (workdir_of Demo.SCANS_DIR Demo.id) "results.txt"
                := "url: https://b.example.test";
                path_join (workdir_of Demo.SCANS_DIR other_id) "results.txt"
                := "url: https://a.example.test" ]};
     threads := {[ Demo.id := Exited 0; other_id := Exited 0 ]};
     issued := {[ Demo.id; other_id ]};
     removing := [];
     terminated := ∅;
     writes := [];
     made := [] |}.

(** *** server.js as it is *)

Definition shipped_events :=
  Coordinator.run_events Demo.SCANS_DIR Demo.URL_hostname Demo.JSON_parse
    workerCode_error.

(** A scan is asked for. *)
Definition scanned : list event := [ Http Demo.scan_request Demo.id false ].

(** The job is deleted, and its directory removed. *)
Definition deleted : list event :=
  scanned ++ [ Http Demo.delete_request "" false ].

(** Afterwards its status is asked for, and a second scan. *)
Definition afterwards : list event :=
  [ Http (Lifecycle.status_query Demo.id) "" false;
    Http Demo.scan_request other_id false ].

(** The state after a list of events, from an empty disk. *)
Definition shipped_after (evs : list event) : server :=
  default (boot ∅) (shipped_events evs (boot ∅)).

(** *** Output of a command before it closes *)

Definition output : list Spawn.child_event :=
  [Spawn.StdoutData "a.example.test"; Spawn.StderrData "warning";
   Spawn.StdoutData LF].

(** What [spawn] throws for the timeout -5. *)
Definition out_of_range : jsError :=
  {| err_name := "RangeError";
     err_message := "The value of " +:+ DQ +:+ "timeout" +:+ DQ
                    +:+ " is out of range. It must be an unsigned integer. Received -5" |}.

End Cases.

(* ===================================================================== *)
(** * Properties of the fetch pool                                        *)
(* ===================================================================== *)

Section PoolFacts.
Import FetchPool.
Local Open Scope nat_scope.

Variable buildUrl : string → string → string.
Variable v : variant.
Variable baseUrl : string.
Variable timeoutMs : Z.
Variable lines : list string.

Local Abbreviation claim := (claim buildUrl baseUrl lines).
Local Abbreviation resume := (resume buildUrl v baseUrl timeoutMs lines).
Local Abbreviation run := (run buildUrl v baseUrl timeoutMs lines).
Local Abbreviation spawn_worker := (spawn_worker buildUrl baseUrl lines).
Local Abbreviation start_workers := (start_workers buildUrl baseUrl lines).
Local Abbreviation key := (key v).
Local Abbreviation remaining := (remaining lines).
Local Abbreviation pool_inv := (pool_inv v lines).

Lemma make_result_task i s url o d :
  task_of (make_result v timeoutMs i s url o d) = key (i, s).
Proof. unfold task_of, key, make_result. destruct o; destruct v; reflexivity. Qed.

Lemma in_flight_split (ws : list pc) k q :
  ws !! k = Some q →
  in_flight ws ≡ₚ in_flight [q] ++ in_flight (delete k ws).
Proof.
  intros Hk. rewrite <- (take_drop_middle ws k q Hk) at 1.
  rewrite delete_take_drop. unfold in_flight.
  rewrite !omap_app. change (q :: drop (S k) ws) with ([q] ++ drop (S k) ws).
  rewrite omap_app. by rewrite Permutation_app_swap_app.
Qed.

Lemma delete_insert_same (ws : list pc) k p :
  delete k (<[k:=p]> ws) = delete k ws.
Proof.
  destruct (decide (k < length ws)) as [Hlt|Hge].
  - rewrite !delete_take_drop, insert_take_drop by done.
    rewrite take_app_le by (rewrite length_take; lia).
    rewrite take_take, Nat.min_id.
    f_equal.
    rewrite drop_app_ge by (rewrite length_take; lia).
    rewrite length_take, Nat.min_l by lia.
    replace (S k - k) with 1 by lia. done.
  - by rewrite list_insert_ge by lia.
Qed.

Lemma in_flight_insert (ws : list pc) k p :
  k < length ws →
  in_flight (<[k:=p]> ws) ≡ₚ in_flight [p] ++ in_flight (delete k ws).
Proof.
  intros Hk. rewrite (in_flight_split (<[k:=p]> ws) k p).
  - by rewrite delete_insert_same.
  - by apply list_lookup_insert_eq.
Qed.

Lemma weight_split (ws : list pc) k q :
  ws !! k = Some q →
  sum_list_with weight ws = weight q + sum_list_with weight (delete k ws).
Proof.
  intros Hk. rewrite <- (take_drop_middle ws k q Hk) at 1.
  rewrite delete_take_drop, !sum_list_with_app. simpl. lia.
Qed.

Lemma weight_insert (ws : list pc) k p :
  k < length ws →
  sum_list_with weight (<[k:=p]> ws)
  = weight p + sum_list_with weight (delete k ws).
Proof.
  intros Hk. rewrite (weight_split (<[k:=p]> ws) k p).
  - by rewrite delete_insert_same.
  - by apply list_lookup_insert_eq.
Qed.

Lemma elem_of_insert_delete (ws : list pc) k p x :
  x ∈ <[k:=p]> ws → x = p ∨ x ∈ delete k ws.
Proof.
  destruct (decide (k < length ws)) as [Hlt|Hge].
  - rewrite insert_take_drop, delete_take_drop by done.
    rewrite !elem_of_app, elem_of_cons. tauto.
  - rewrite list_insert_ge by lia. intros Hx. right.
    rewrite delete_take_drop, take_ge, drop_ge by lia.
    by rewrite app_nil_r.
Qed.

Lemma claim_inv k st q :
  workers st !! k = Some q →
  (claimed st).*2 = seq 0 (idx st `min` length lines) →
  (task_of <$> results st) ++ (key <$> in_flight (delete k (workers st)))
    ≡ₚ imap (λ i s, key (i, s)) (take (idx st) lines) →
  (Finished ∈ delete k (workers st) → length lines ≤ idx st) →
  pool_inv (claim k st).
Proof.
  intros Hk Hc Ht Hf.
  assert (Hlen : k < length (workers st)) by by eapply lookup_lt_Some.
  unfold FetchPool.claim. destruct (lines !! idx st) as [s|] eqn:E.
  - assert (Hi : idx st < length lines) by by eapply lookup_lt_Some.
    split; cbn [claimed idx results workers].
    + rewrite fmap_app, Hc.
      rewrite !Nat.min_l by lia. by rewrite seq_S.
    + rewrite in_flight_insert by done.
      rewrite (take_S_r _ _ _ E), imap_app.
      rewrite length_take, Nat.min_l by lia.
      cbn [imap in_flight omap list_omap app fmap list_fmap].
      rewrite Nat.add_0_r, <- Ht.
      by rewrite <- Permutation_middle, <- Permutation_cons_append.
    + intros Hin. apply elem_of_insert_delete in Hin as [?|Hin]; [done|].
      specialize (Hf Hin). lia.
  - apply lookup_ge_None in E.
    split; cbn [claimed idx results workers].
    + rewrite Hc. f_equal. lia.
    + rewrite in_flight_insert by done.
      cbn [in_flight omap list_omap app].
      rewrite Ht. by rewrite !take_ge by lia.
    + lia.
Qed.

Lemma claim_remaining k st q :
  workers st !! k = Some q →
  remaining (claim k st)
  ≤ 4 * (length lines - idx st) + sum_list_with weight (delete k (workers st)).
Proof.
  intros Hk.
  assert (Hlen : k < length (workers st)) by by eapply lookup_lt_Some.
  unfold FetchPool.claim, remaining.
  destruct (lines !! idx st) as [s|] eqn:E; simpl.
  - assert (Hi : idx st < length lines) by by eapply lookup_lt_Some.
    rewrite weight_insert by done. simpl. lia.
  - apply lookup_ge_None in E.
    rewrite weight_insert by done. simpl. lia.
Qed.

Lemma claim_length k st : length (workers (claim k st)) = length (workers st).
Proof.
  unfold FetchPool.claim. destruct (lines !! idx st); simpl;
    by rewrite length_insert.
Qed.

Lemma set_pc_inv k p st i sfx url :
  workers st !! k = Some (AwaitFetch i sfx url) →
  p ≠ Finished → in_flight [p] = [] →
  pool_inv st → ∀ r, task_of r = key (i, sfx) →
  pool_inv (set_pc k p (push_result r st)).
Proof.
  intros Hk Hp Hfl [Hc Ht Hf] r Hr.
  assert (Hlen : k < length (workers st)) by by eapply lookup_lt_Some.
  split; cbn [set_pc push_result claimed idx results workers].
  - done.
  - rewrite in_flight_insert, Hfl by done.
    rewrite <- Ht, (in_flight_split _ _ _ Hk), !fmap_app.
    cbn [in_flight omap list_omap app fmap list_fmap].
    by rewrite Hr, <- app_assoc.
  - intros Hin. apply elem_of_insert_delete in Hin as [?|Hin]; [done|].
    eauto using list_elem_of_delete_inv.
Qed.

Lemma set_pc_idle_inv k p q st :
  workers st !! k = Some q →
  p ≠ Finished → in_flight [p] = [] → in_flight [q] = [] →
  pool_inv st → pool_inv (set_pc k p st).
Proof.
  intros Hk Hp Hfp Hfq [Hc Ht Hf].
  assert (Hlen : k < length (workers st)) by by eapply lookup_lt_Some.
  split; cbn [set_pc claimed idx results workers].
  - done.
  - rewrite in_flight_insert, Hfp by done.
    by rewrite <- Ht, (in_flight_split _ _ _ Hk), Hfq.
  - intros Hin. apply elem_of_insert_delete in Hin as [?|Hin]; [done|].
    eauto using list_elem_of_delete_inv.
Qed.

(** What a worker does when its fetch resolves. *)
Lemma resume_fetch_cases k o d st st' i sfx url :
  workers st !! k = Some (AwaitFetch i sfx url) →
  resume k (FetchResolved o d) st = Some st' →
  ∃ res, task_of res = key (i, sfx)
    ∧ (st' = set_pc k (AwaitAppend (makeReadableLine res +:+ LF))
                    (push_result res st)
       ∨ st' = claim k (push_result res st)
       ∨ st' = set_pc k AwaitWait (push_result res st)).
Proof.
  intros Hk. unfold FetchPool.resume. rewrite Hk. cbv zeta.
  intros Hst'. exists (make_result v timeoutMs i sfx url o d).
  split; [apply make_result_task|].
  destruct v; [|destruct o]; injection Hst' as <-; auto.
Qed.

(** Every step of the pool keeps the invariant. *)
Lemma resume_inv k r st st' :
  pool_inv st → resume k r st = Some st' → pool_inv st'.
Proof.
  intros Hinv Hst'.
  destruct (workers st !! k) as [[i sfx url|line| |]|] eqn:Hk;
    destruct r as [o d|ok|];
    try (unfold FetchPool.resume in Hst'; rewrite Hk in Hst'; discriminate).
  - destruct (resume_fetch_cases _ _ _ _ _ _ _ _ Hk Hst')
      as (res & Hr & [-> | [-> | ->]]).
    + by eapply set_pc_inv.
    + destruct Hinv as [Hc Ht Hf].
      eapply claim_inv; cbn [push_result claimed idx results workers].
      * exact Hk.
      * done.
      * rewrite <- Ht, (in_flight_split _ _ _ Hk), !fmap_app.
        cbn [in_flight omap list_omap app fmap list_fmap].
        by rewrite Hr, <- app_assoc.
      * eauto using list_elem_of_delete_inv.
    + by eapply set_pc_inv.
  - unfold FetchPool.resume in Hst'. rewrite Hk in Hst'.
    injection Hst' as <-. destruct ok.
    + destruct Hinv as [Hc Ht Hf].
      eapply (set_pc_idle_inv k AwaitWait (AwaitAppend line)); try done.
    + by eapply (set_pc_idle_inv k AwaitWait (AwaitAppend line)).
  - unfold FetchPool.resume in Hst'. rewrite Hk in Hst'.
    injection Hst' as <-. destruct Hinv as [Hc Ht Hf].
    eapply claim_inv; [exact Hk|done| |eauto using list_elem_of_delete_inv].
    by rewrite <- Ht, (in_flight_split _ _ _ Hk).
Qed.

(** Every step of the pool uses up some of the remaining work. *)
Lemma resume_remaining k r st st' :
  resume k r st = Some st' → remaining st' < remaining st.
Proof.
  unfold FetchPool.resume.
  destruct (workers st !! k) as [[i sfx url|line| |]|] eqn:Hk;
    destruct r as [o d|ok|]; try discriminate;
    assert (Hlen : k < length (workers st)) by (by eapply lookup_lt_Some).
  - destruct v; [|destruct o]; intros [= <-].
    + unfold remaining. cbn [set_pc push_result idx workers].
      rewrite weight_insert, (weight_split _ _ _ Hk) by done. simpl. lia.
    + unfold remaining. cbn [set_pc push_result idx workers].
      rewrite weight_insert, (weight_split _ _ _ Hk) by done. simpl. lia.
    + etrans; [eapply Nat.lt_succ_r, (claim_remaining k _ _)|];
        cbn [push_result idx workers]; [exact Hk|].
      unfold remaining. rewrite (weight_split _ _ _ Hk). simpl. lia.
  - intros [= <-]. unfold remaining.
    destruct ok; cbn [set_pc append_line idx workers];
      rewrite weight_insert, (weight_split _ _ _ Hk) by done; simpl; lia.
  - intros [= <-].
    eapply Nat.le_lt_trans; [by eapply claim_remaining|].
    unfold remaining. rewrite (weight_split _ _ _ Hk). simpl. lia.
Qed.

Lemma resume_length k r st st' :
  resume k r st = Some st' → length (workers st') = length (workers st).
Proof.
  unfold FetchPool.resume.
  destruct (workers st !! k) as [[i sfx url|line| |]|] eqn:Hk;
    destruct r as [o d|ok|]; try discriminate.
  - destruct v; [|destruct o]; intros [= <-];
      rewrite ?claim_length; cbn [set_pc push_result workers];
      by rewrite ?length_insert.
  - intros [= <-]. destruct ok; cbn [set_pc append_line workers];
      by rewrite length_insert.
  - intros [= <-]. by rewrite claim_length.
Qed.

(** The cursor never goes back. *)
Lemma resume_idx k r st st' : resume k r st = Some st' → idx st ≤ idx st'.
Proof.
  assert (Hclaim : ∀ k st, idx st ≤ idx (claim k st)).
  { intros k0 st0. unfold FetchPool.claim.
    destruct (lines !! idx st0); simpl; lia. }
  unfold FetchPool.resume.
  destruct (workers st !! k) as [[i sfx url|line| |]|] eqn:Hk;
    destruct r as [o d|ok|]; try discriminate.
  - destruct v; [|destruct o]; intros [= <-];
      [reflexivity|reflexivity|].
    etrans; [|apply Hclaim]. reflexivity.
  - intros [= <-]. destruct ok; reflexivity.
  - intros [= <-]. apply Hclaim.
Qed.

Lemma run_inv sched : ∀ st st',
  pool_inv st → run sched st = Some st' →
  pool_inv st' ∧ length sched + remaining st' ≤ remaining st
  ∧ length (workers st') = length (workers st)
  ∧ idx st ≤ idx st'.
Proof.
  induction sched as [|[k r] sched IH]; intros st st' Hinv; simpl.
  - intros [= <-]. split; [done|split; [lia|done]].
  - destruct (resume k r st) as [st1|] eqn:Hst1; [|done]. simpl.
    intros Hrun.
    destruct (IH st1 st' (resume_inv _ _ _ _ Hinv Hst1) Hrun) as (?&?&?&?).
    pose proof (resume_remaining _ _ _ _ Hst1).
    pose proof (resume_length _ _ _ _ Hst1).
    pose proof (resume_idx _ _ _ _ Hst1).
    split; [done|split; [lia|split; [congruence|lia]]].
Qed.

(** A worker that has not returned is waiting for something. *)
Lemma resume_progress st :
  ¬ all_finished st → ∃ k r st', resume k r st = Some st'.
Proof.
  unfold all_finished. intros Hnot.
  apply not_Forall_Exists in Hnot; [|apply _].
  apply Exists_exists in Hnot as (p & Hin & Hp). simpl in Hp.
  apply list_elem_of_lookup in Hin as [k Hk].
  exists k. unfold FetchPool.resume. rewrite Hk.
  destruct p as [i sfx url|line| |]; [| | |done].
  - exists (FetchResolved (FetchOk 200) 0%Z).
    destruct v; eauto.
  - exists (AppendResolved true). eauto.
  - exists WaitResolved. eauto.
Qed.

Lemma delete_last (ws : list pc) p : delete (length ws) (ws ++ [p]) = ws.
Proof.
  rewrite delete_take_drop, take_app_length, drop_app_ge by lia.
  replace (S (length ws) - length ws) with 1 by lia. simpl.
  by rewrite app_nil_r.
Qed.

(** The pool after [n] calls of [worker()]: worker [k] holds index [k]. *)
Lemma spawn_workers_inv n :
  n ≤ length lines →
  idx (Nat.iter n spawn_worker empty_pool) = n
  ∧ length (workers (Nat.iter n spawn_worker empty_pool)) = n
  ∧ pool_inv (Nat.iter n spawn_worker empty_pool)
  ∧ remaining (Nat.iter n spawn_worker empty_pool) + n = 4 * length lines.
Proof.
  induction n as [|n IH]; intros Hn.
  - simpl. split; [done|split; [done|split]].
    + split; simpl; [done|done|]. by intros ?%elem_of_nil.
    + unfold remaining. simpl. lia.
  - destruct IH as (Hidx & Hlen & Hinv & Hrem); [lia|].
    rewrite Nat.iter_succ.
    set (st := Nat.iter n spawn_worker empty_pool) in *.
    unfold FetchPool.spawn_worker.
    set (st1 := {| idx := idx st; results := results st;
                   appended := appended st;
                   workers := workers st ++ [Finished];
                   claimed := claimed st |}).
    assert (Hk : workers st1 !! length (workers st) = Some Finished).
    { subst st1. simpl. by rewrite lookup_app_r, Nat.sub_diag by lia. }
    assert (Hdel : delete (length (workers st)) (workers st1) = workers st).
    { subst st1. simpl. apply delete_last. }
    destruct Hinv as [Hc Ht Hf].
    split; [|split; [|split]].
    + unfold FetchPool.claim.
      by destruct (lines !! idx st1); simpl; rewrite Hidx.
    + rewrite claim_length. subst st1. simpl. rewrite length_app. simpl. lia.
    + eapply claim_inv; [exact Hk|done|by rewrite Hdel|by rewrite Hdel].
    + unfold FetchPool.claim, remaining.
      change (idx st1) with (idx st). rewrite Hidx.
      destruct (lines !! n) as [s|] eqn:E.
      2:{ apply lookup_ge_None in E. lia. }
      cbn [idx workers].
      rewrite weight_insert, Hdel.
      2:{ subst st1. simpl. rewrite length_app. simpl. lia. }
      unfold remaining in Hrem. rewrite Hidx in Hrem. simpl. lia.
Qed.

Lemma all_finished_in_flight st : all_finished st → in_flight (workers st) = [].
Proof.
  unfold all_finished. induction 1 as [|p ws -> _ IH]; [done|]. exact IH.
Qed.

Lemma imap_key_suffix (l : list string) :
  (imap (λ i s, key (i, s)) l).*2 = l.
Proof.
  rewrite fmap_imap. unfold key, compose. simpl.
  rewrite (imap_const (λ s : string, s)). apply list_fmap_id.
Qed.

Lemma imap_key_index (l : list string) :
  v = UrlChecker →
  (imap (λ i s, key (i, s)) l).*1 = Some <$> seq 1 (length l).
Proof.
  intros Hv. rewrite fmap_imap. unfold key, compose. simpl. rewrite Hv.
  rewrite (imap_seq_0 l (λ i, Some (S i))).
  by rewrite <- fmap_S_seq, <- list_fmap_compose.
Qed.

(** ** C1 *)

(** C1. For every concurrency [>= 1] and every list of [N] suffixes, the
    pool starts with [min(concurrency, N)] workers. In every run the shared
    cursor never decreases, and the indices that passed the bound check so
    far are [0, 1, ..., min(cursor, N) - 1] in the order they were read:
    none twice, none skipped, each paired in [claimed] with the one worker
    that read it. Every run takes at most [4 * N] steps and can go on until
    all workers have returned; once they have, the claimed indices are
    exactly [0 .. N-1], [results] holds exactly [N] objects, one per suffix,
    and in url-checker.js their [index] fields are [1..N] in some order. *)
Theorem pool_claims_each_index_once (concurrency : Z) :
  (1 ≤ concurrency)%Z →
  ∃ st0,
    start_workers concurrency = Some st0
    ∧ Z.of_nat (length (workers st0))
      = Z.min concurrency (Z.of_nat (length lines))
    ∧ ∀ sched st, run sched st0 = Some st →
        length sched ≤ 4 * length lines
        ∧ idx st0 ≤ idx st
        ∧ (claimed st).*2 = seq 0 (idx st `min` length lines)
        ∧ (¬ all_finished st → ∃ k r st', resume k r st = Some st')
        ∧ (all_finished st →
             (claimed st).*2 = seq 0 (length lines)
             ∧ length (results st) = length lines
             ∧ r_suffix <$> results st ≡ₚ lines
             ∧ (v = UrlChecker →
                  r_index <$> results st ≡ₚ Some <$> seq 1 (length lines))).
Proof.
  intros HC. unfold FetchPool.start_workers.
  set (n := Z.to_nat (Z.min concurrency (Z.of_nat (length lines)))).
  destruct (Z.ltb_spec (Z.min concurrency (Z.of_nat (length lines))) 0);
    [lia|].
  assert (Hn : n ≤ length lines) by lia.
  destruct (spawn_workers_inv n Hn) as (Hidx & Hlen & Hinv & Hrem).
  eexists. split; [done|]. split; [lia|].
  intros sched st Hrun.
  destruct (run_inv _ _ _ Hinv Hrun) as (Hinv' & Hmeasure & Hlen' & Hmono).
  split; [lia|]. split; [done|]. split; [by destruct Hinv'|].
  split; [apply resume_progress|].
  intros Hfin. destruct Hinv' as [Hc Ht Hf].
  assert (Hge : length lines ≤ idx st).
  { destruct (decide (length lines = 0)) as [|Hne]; [lia|].
    apply Hf. destruct (workers st) as [|p ws] eqn:Hws.
    - simpl in Hlen'. lia.
    - unfold all_finished in Hfin. rewrite Hws in Hfin.
      apply Forall_cons in Hfin as [-> _]. by left. }
  rewrite all_finished_in_flight, app_nil_r, take_ge in Ht by done.
  assert (Hsuffix : r_suffix <$> results st ≡ₚ lines).
  { rewrite <- (imap_key_suffix lines), <- Ht.
    by rewrite <- list_fmap_compose. }
  split; [by rewrite Hc, Nat.min_r by lia|].
  split; [by rewrite <- (length_fmap r_suffix), Hsuffix|].
  split; [done|].
  intros Hv. rewrite <- (imap_key_index lines Hv), <- Ht.
  by rewrite <- list_fmap_compose.
Qed.

End PoolFacts.

(* ===================================================================== *)
(** * Properties of the worker program                                    *)
(* ===================================================================== *)

Section PipelineFacts.
Import Pipeline.
Local Open Scope nat_scope.

Variable P : platform.
Variable wd : workerData.

Local Abbreviation LFc := (Ascii.ascii_of_nat 10).
Local Abbreviation quiet := (quiet wd).
Local Abbreviation Quiet := (Quiet wd).
Local Abbreviation saved := (saved wd).

(** ** C7: the parse stage *)

Lemma split_on_cons c s : ∃ w ws, split_on c s = w :: ws.
Proof.
  destruct s as [|a s]; simpl; [by eexists _, _|].
  destruct (decide (a = c)); [by eexists _, _|].
  destruct (split_on c s); by eexists _, _.
Qed.

Lemma line_starts_split s :
  ∀ w ws, split_on LFc s = w :: ws →
  line_starts true s = (if decide (w = "") then 0 else 1) + count_nonempty ws
  ∧ line_starts false s = count_nonempty ws.
Proof.
  induction s as [|a s IH]; intros w ws; simpl.
  - by intros [= <- <-].
  - destruct (split_on_cons LFc s) as (w' & ws' & Hs).
    destruct (IH w' ws' Hs) as [IHt IHf]. rewrite Hs.
    destruct (decide (a = LFc)) as [->|Hne].
    + intros [= <- <-]. rewrite IHt. unfold count_nonempty in *.
      rewrite filter_cons.
      repeat case_decide; simplify_eq; simpl; split; lia.
    + intros [= <- <-]. rewrite IHf. unfold count_nonempty in *.
      repeat case_decide; simplify_eq; simpl; split; lia.
Qed.

Lemma nonempty_lines_count raw :
  length (nonempty_lines raw) = line_starts true raw.
Proof.
  unfold nonempty_lines.
  destruct (split_on_cons LFc raw) as (w & ws & Hs). rewrite Hs.
  destruct (line_starts_split raw w ws Hs) as [-> _].
  rewrite filter_cons. unfold count_nonempty.
  repeat case_decide; simplify_eq; simpl; lia.
Qed.

(** C7. For a probe output [raw] with [M] non-empty lines, the parse stage
    returns exactly [M] records, in the order of the lines: for a line that
    [JSON.parse] accepts the parsed value, for any other line the record
    [{ _parseError: true, raw: <the line> }]. The stage itself never
    fails. *)
Theorem parse_keeps_every_line (raw : string) (s : wstate) :
  files s !! httpxOut wd = Some raw →
  ∃ s', task_parse P wd s = (s', inr (parse_lines P raw))
        ∧ files s' = files s
        ∧ length (parse_lines P raw) = line_starts true raw
        ∧ Forall2 (λ l r, match JSON_parse P l with
                          | Some v => r = v
                          | None => r = parse_error_record l
                                    ∧ prop r "raw" = Some (JStr l)
                          end)
                  (nonempty_lines raw) (parse_lines P raw).
Proof.
  intros Hraw. eexists. split; [|split; [|split]].
  - unfold task_parse, post, emit, try_catch, readFile, mbind, W_bind, mret,
      W_ret. cbn. rewrite Hraw. reflexivity.
  - done.
  - unfold parse_lines. by rewrite length_fmap, nonempty_lines_count.
  - unfold parse_lines. apply Forall2_fmap_r, Forall_Forall2_diag.
    apply Forall_forall. intros l _. unfold parse_line, compose.
    destruct (JSON_parse P l); [done|]. split; [done|].
    reflexivity.
Qed.

(** ** The merge stage *)

Lemma task_merge_with_unfold script (s : wstate) :
  task_merge_with P wd script s
  = let s1 := {| files := files s; trace := trace s ++ [merge_log] |} in
    match present_parts wd (files s) with
    | [] => writeFile P (allList wd) "" s1
    | parts => spawnCmd P "bash" ["-lc"; script parts (allList wd)]
                        (30 * 1000)%Z s1
    end.
Proof.
  unfold task_merge_with, present_parts, post, emit, access, mbind, W_bind.
  cbn.
  destruct (bool_decide (is_Some (files s !! subfinderOut wd)));
    destruct (bool_decide (is_Some (files s !! amassOut wd))); reflexivity.
Qed.

Lemma task_merge_unfold (s : wstate) :
  task_merge P wd s
  = let s1 := {| files := files s; trace := trace s ++ [merge_log] |} in
    match present_parts wd (files s) with
    | [] => writeFile P (allList wd) "" s1
    | parts => spawnCmd P "bash" ["-lc"; merge_script wd parts]
                        (30 * 1000)%Z s1
    end.
Proof. apply task_merge_with_unfold. Qed.

(** ** The messages and the files of a whole run *)

Lemma emits_weaken {A} (m : W A) (Φ Ψ : list effect → jsError + A → Prop) :
  emits m Φ → (∀ t r, Φ t r → Ψ t r) → emits m Ψ.
Proof. intros Hm HΦ s. destruct (Hm s) as (t & ? & ?). eauto. Qed.

Lemma emits_bind {A B} (m : W A) (f : A → W B) Φ Ψ :
  emits m Φ → (∀ x, emits (f x) (Ψ x)) →
  emits (m ≫= f)
    (λ t r, ∃ t1 t2, t = t1 ++ t2
       ∧ ((∃ e, Φ t1 (inl e) ∧ t2 = [] ∧ r = inl e)
          ∨ (∃ x, Φ t1 (inr x) ∧ Ψ x t2 r))).
Proof.
  intros Hm Hf s. unfold mbind, W_bind.
  destruct (Hm s) as (t1 & Ht1 & HΦ).
  destruct (m s) as [s1 [e|x]]; cbn [fst snd] in *.
  - exists t1. split; [done|]. exists t1, []. rewrite app_nil_r.
    split; [done|]. left. by exists e.
  - destruct (Hf x s1) as (t2 & Ht2 & HΨ).
    exists (t1 ++ t2). rewrite Ht2, Ht1, app_assoc. split; [done|].
    exists t1, t2. split; [done|]. right. by exists x.
Qed.

Lemma emits_try_catch {A} (m : W A) (h : jsError → W A) Φ Ψ :
  emits m Φ → (∀ e, emits (h e) (Ψ e)) →
  emits (try_catch m h)
    (λ t r, ∃ t1 t2, t = t1 ++ t2
       ∧ ((∃ x, Φ t1 (inr x) ∧ t2 = [] ∧ r = inr x)
          ∨ (∃ e, Φ t1 (inl e) ∧ Ψ e t2 r))).
Proof.
  intros Hm Hh s. unfold try_catch.
  destruct (Hm s) as (t1 & Ht1 & HΦ).
  destruct (m s) as [s1 [e|x]]; cbn [fst snd] in *.
  - destruct (Hh e s1) as (t2 & Ht2 & HΨ).
    exists (t1 ++ t2). rewrite Ht2, Ht1, app_assoc. split; [done|].
    exists t1, t2. split; [done|]. right. by exists e.
  - exists t1. split; [done|]. exists t1, []. rewrite app_nil_r.
    split; [done|]. left. by exists x.
Qed.

Lemma quiet_bind {A B} (m : W A) (f : A → W B) :
  emits m Quiet → (∀ x, emits (f x) Quiet) → emits (m ≫= f) Quiet.
Proof.
  intros Hm Hf.
  eapply emits_weaken; [by apply (emits_bind m f Quiet (λ _, Quiet))|].
  intros t r (t1 & t2 & -> & [(e & H1 & -> & _)|(x & H1 & H2)]);
    unfold Quiet, quiet in *; by rewrite ?app_nil_r, ?Forall_app.
Qed.

Lemma quiet_try_catch {A} (m : W A) (h : jsError → W A) :
  emits m Quiet → (∀ e, emits (h e) Quiet) → emits (try_catch m h) Quiet.
Proof.
  intros Hm Hh.
  eapply emits_weaken;
    [by apply (emits_try_catch m h Quiet (λ _, Quiet))|].
  intros t r (t1 & t2 & -> & [(e & H1 & -> & _)|(x & H1 & H2)]);
    unfold Quiet, quiet in *; by rewrite ?app_nil_r, ?Forall_app.
Qed.

Lemma emits_ret {A} (x : A) : emits (mret x) (λ t r, t = [] ∧ r = inr x).
Proof.
  intros s. exists []. rewrite app_nil_r. split; [reflexivity|].
  split; reflexivity.
Qed.

Lemma quiet_ret {A} (x : A) : emits (mret x) Quiet.
Proof.
  intros s. exists []. rewrite app_nil_r. split; [reflexivity|]. constructor.
Qed.

Lemma quiet_log txt : emits (post (Log txt)) Quiet.
Proof.
  intros s. exists [Post (Log txt)]. split; [reflexivity|].
  by apply Forall_singleton.
Qed.

Lemma quiet_spawn cmd args t : emits (spawnCmd P cmd args t) Quiet.
Proof.
  intros s. exists [Spawn cmd args t]. unfold spawnCmd.
  destruct (exec P _ _ _ _). split; [reflexivity|].
  by apply Forall_singleton.
Qed.

Lemma quiet_mkdir p : emits (mkdir P p) Quiet.
Proof.
  intros s. exists [Mkdir p]. split; [reflexivity|].
  by apply Forall_singleton.
Qed.

Lemma quiet_write p c : p ≠ metaJson wd → emits (writeFile P p c) Quiet.
Proof.
  intros Hp s. unfold writeFile. destruct (write_error P p).
  - exists [WriteFailed p]. split; [reflexivity|]. by apply Forall_singleton.
  - exists [WriteFile p c]. split; [reflexivity|]. by apply Forall_singleton.
Qed.

Lemma quiet_read p : emits (readFile p) Quiet.
Proof.
  intros s. exists []. unfold readFile.
  destruct (files s !! p); rewrite app_nil_r; (split; [reflexivity|]);
    constructor.
Qed.

Lemma quiet_access p : emits (access p) Quiet.
Proof.
  intros s. exists []. rewrite app_nil_r. split; [reflexivity|]. constructor.
Qed.

Lemma path_join_inj dir a b : path_join dir a = path_join dir b → a = b.
Proof.
  unfold path_join. intros H.
  apply String.app_inj in H. by apply String.app_inj in H.
Qed.

Lemma quiet_subfinder : emits (task_subfinder P wd) Quiet.
Proof.
  apply quiet_bind; [apply quiet_log|]. intros _.
  apply quiet_try_catch; [apply quiet_spawn|]. intros e. apply quiet_log.
Qed.

Lemma quiet_amass : emits (task_amass P wd) Quiet.
Proof.
  apply quiet_bind; [apply quiet_log|]. intros _.
  apply quiet_try_catch; [apply quiet_spawn|]. intros e. apply quiet_log.
Qed.

Lemma quiet_merge : emits (task_merge P wd) Quiet.
Proof.
  apply quiet_bind; [apply quiet_log|]. intros _.
  apply quiet_bind; [apply quiet_access|]. intros b1.
  apply quiet_bind; [apply quiet_access|]. intros b2.
  cbv zeta. destruct (decide _); [apply quiet_spawn|].
  apply quiet_write. by intros ?%path_join_inj.
Qed.

Lemma quiet_httpx : emits (task_httpx P wd) Quiet.
Proof.
  apply quiet_bind; [apply quiet_log|]. intros _.
  apply quiet_try_catch; [apply quiet_spawn|]. intros e.
  apply quiet_bind; [apply quiet_log|]. intros _.
  apply quiet_write. by intros ?%path_join_inj.
Qed.

Lemma quiet_parse : emits (task_parse P wd) Quiet.
Proof.
  apply quiet_bind; [apply quiet_log|]. intros _.
  apply quiet_try_catch.
  - apply quiet_bind; [apply quiet_read|]. intros raw. apply quiet_ret.
  - intros e. apply quiet_ret.
Qed.

Lemma saved_prefix {A B} (m : W A) (f : A → W B) :
  emits m Quiet → (∀ x, emits (f x) saved) → emits (m ≫= f) saved.
Proof.
  intros Hm Hf.
  eapply emits_weaken; [by apply (emits_bind m f Quiet (λ _, saved))|].
  intros t r (t1 & t2 & -> & [(e & H1 & -> & ->)|(x & H1 & H2)]).
  - left. exists e. by rewrite app_nil_r.
  - destruct H2 as [(e & -> & H2)|(y & pre & rj & rt & c & -> & Hpre & ->)].
    + left. exists e. split; [done|]. by apply Forall_app.
    + right. exists y, (t1 ++ pre), rj, rt, c.
      split; [done|]. split; [by apply Forall_app|]. by rewrite app_assoc.
Qed.

Lemma saved_save meta its : emits (task_save P wd meta its) saved.
Proof.
  intros s.
  unfold task_save, post, emit, writeFile, txtLines, throw, mbind, W_bind,
    mret, W_ret. cbn [files trace].
  assert (Hj : resultsJson wd ≠ metaJson wd) by by intros ?%path_join_inj.
  assert (Ht : resultsTxt wd ≠ metaJson wd) by by intros ?%path_join_inj.
  destruct (write_error P (resultsJson wd)) as [e|]; cbn [files trace].
  { eexists. rewrite <- app_assoc. split; [done|]. left. exists e.
    split; [done|]. by repeat constructor. }
  destruct (txt_entries P its) as [e|ls]; cbn [files trace].
  { eexists. rewrite <- app_assoc. split; [done|]. left. exists e.
    split; [done|]. by repeat constructor. }
  destruct (write_error P (resultsTxt wd)) as [e|]; cbn [files trace].
  { eexists. rewrite <- !app_assoc. split; [done|]. left. exists e.
    split; [done|]. by repeat constructor. }
  destruct (write_error P (metaJson wd)) as [e|]; cbn [files trace].
  { eexists. rewrite <- !app_assoc. split; [done|]. left. exists e.
    split; [done|]. by repeat constructor. }
  eexists. rewrite <- !app_assoc. split; [done|]. right.
  eexists (), [_], _, _, _. split; [done|]. split; [|done].
  by repeat constructor.
Qed.

Lemma saved_pipeline : emits (pipeline P wd) saved.
Proof.
  unfold pipeline.
  apply saved_prefix; [apply quiet_mkdir|]. intros _.
  apply saved_prefix; [apply quiet_log|]. intros _.
  apply saved_prefix; [apply quiet_subfinder|]. intros _.
  apply saved_prefix; [apply quiet_amass|]. intros _.
  apply saved_prefix; [apply quiet_merge|]. intros _.
  apply saved_prefix; [apply quiet_httpx|]. intros _.
  apply saved_prefix; [apply quiet_parse|]. intros its.
  eapply emits_weaken.
  { eapply emits_bind; [apply saved_save|]. intros x. apply emits_ret. }
  intros t r (t1 & t2 & -> & [(e & H1 & -> & ->)|(x & H1 & -> & ->)]);
    rewrite app_nil_r.
  - destruct H1 as [(e' & _ & H1)|(y & pre & rj & rt & c & [=] & _)].
    left. by exists e.
  - destruct H1 as [(e' & [=] & _)|(y & pre & rj & rt & c & _ & Hpre & ->)].
    right. by eexists _, pre, rj, rt, c.
Qed.

(** What a whole run of the worker does: quiet effects, then either one
    [error] message, or the three result files and one [done] message. *)
Lemma worker_main_shape (s : wstate) :
  (worker_main P wd s).2 = inr ()
  ∧ ∃ pre,
      quiet pre
      ∧ ((∃ e, trace (worker_main P wd s).1
               = trace s ++ pre ++ [Post (Error e)])
         ∨ (∃ rj rt c meta,
              trace (worker_main P wd s).1
              = trace s ++ pre ++ [WriteFile (resultsJson wd) rj;
                                   WriteFile (resultsTxt wd) rt;
                                   WriteFile (metaJson wd) c;
                                   Post (Done meta)])).
Proof.
  unfold worker_main, try_catch, mbind, W_bind, post, emit.
  destruct (saved_pipeline s) as (t & Ht & Hsaved).
  destruct (pipeline P wd s) as [s1 r]. cbn [fst snd] in *.
  destruct Hsaved as [(e & -> & Hq)|(m & pre & rj & rt & c & -> & Hq & ->)];
    cbn [fst snd trace]; (split; [done|]).
  - exists t. split; [done|]. left. eexists. by rewrite Ht, <- app_assoc.
  - exists pre. split; [done|]. right. exists rj, rt, c, m.
    by rewrite Ht, <- !app_assoc.
Qed.

Lemma quiet_posted t :
  quiet t →
  ∃ logs, omap (λ e, match e with Post m => Some m | _ => None end) t
          = Log <$> logs.
Proof.
  induction 1 as [|e t He _ (logs & IH)]; [by exists []|].
  destruct e as [[txt|m|err]| | | |]; cbn; try done; try by exists logs.
  exists (txt :: logs). by rewrite IH.
Qed.

(** The worker posts log messages and then exactly one message, [done] or
    [error], whatever the platform does: the order of messages the
    coordinator's environment is taken to follow. *)
Lemma worker_posts_one_final fs :
  ∃ logs final,
    posted (run_worker P wd fs) = (Log <$> logs) ++ [final]
    ∧ ((∃ m, final = Done m) ∨ (∃ e, final = Error e)).
Proof.
  unfold run_worker, posted.
  destruct (worker_main_shape {| files := fs; trace := [] |})
    as (_ & pre & Hq & [(e & ->)|(rj & rt & c & m & ->)]);
    destruct (quiet_posted pre Hq) as (logs & Hlogs);
    cbn [trace app]; rewrite omap_app, Hlogs; exists logs.
  - exists (Error e). split; [done|]. right. by exists e.
  - exists (Done m). split; [done|]. left. by exists m.
Qed.

(** meta.json is written only at the end of a run that has written
    results.json and results.txt, and only the [done] message follows. *)
Lemma meta_written_last fs c :
  WriteFile (metaJson wd) c ∈ trace (run_worker P wd fs) →
  ∃ pre rj rt meta,
    trace (run_worker P wd fs)
    = pre ++ [WriteFile (resultsJson wd) rj; WriteFile (resultsTxt wd) rt;
              WriteFile (metaJson wd) c; Post (Done meta)].
Proof.
  unfold run_worker.
  destruct (worker_main_shape {| files := fs; trace := [] |})
    as (_ & pre & Hq & [(e & ->)|(rj & rt & c' & m & ->)]);
    cbn [trace app]; intros Hin.
  - apply elem_of_app in Hin as [Hin|Hin].
    + eapply Forall_forall in Hq; [|exact Hin]. by destruct Hq.
    + by apply list_elem_of_singleton in Hin.
  - apply elem_of_app in Hin as [Hin|Hin].
    + eapply Forall_forall in Hq; [|exact Hin]. by destruct Hq.
    + rewrite !elem_of_cons in Hin.
      destruct Hin as [[= Hp _]|[[= Hp _]|[[= <-]|[?|Hin]]]].
      * by apply path_join_inj in Hp.
      * by apply path_join_inj in Hp.
      * by exists pre, rj, rt, m.
      * done.
      * by apply elem_of_nil in Hin.
Qed.

End PipelineFacts.

(* ===================================================================== *)
(** * Properties of the coordinator                                       *)
(* ===================================================================== *)

Section ServerFacts.
Import Pipeline Coordinator Lifecycle.

Variable SCANS_DIR : string.
Variable URL_hostname : string → option string.
Variable JSON_parse : string → option json.
Variable template_throws : option jsError.

Local Abbreviation handle :=
  (handle SCANS_DIR URL_hostname JSON_parse template_throws).
Local Abbreviation run_events :=
  (run_events SCANS_DIR URL_hostname JSON_parse template_throws).
Local Abbreviation get_status := (get_status SCANS_DIR JSON_parse).
Local Abbreviation on_request :=
  (on_request SCANS_DIR URL_hostname JSON_parse template_throws).
Local Abbreviation post_scan :=
  (post_scan SCANS_DIR URL_hostname template_throws).

Lemma summarize_jobs_set id id' j st :
  summarize id (jobs_set id' j st)
  = if decide (id' = id)
    then {| s_status := Some (j_status j);
            s_thread := s_thread (summarize id st);
            s_issued := s_issued (summarize id st);
            s_history := s_history (summarize id st) ++ [Some (j_status j)] |}
    else summarize id st.
Proof.
  unfold summarize, jobs_set, history. simpl. rewrite omap_app. simpl.
  destruct (decide (id' = id)) as [->|Hne].
  - by rewrite lookup_insert_eq.
  - by rewrite lookup_insert_ne, app_nil_r.
Qed.

Lemma summarize_jobs_delete id id' st :
  summarize id (jobs_delete id' st)
  = if decide (id' = id)
    then {| s_status := None;
            s_thread := s_thread (summarize id st);
            s_issued := s_issued (summarize id st);
            s_history := s_history (summarize id st)
                         ++ match s_status (summarize id st) with
                            | Some _ => [None]
                            | None => []
                            end |}
    else summarize id st.
Proof.
  unfold summarize, jobs_delete, history. simpl. rewrite omap_app.
  destruct (decide (id' = id)) as [->|Hne].
  - rewrite lookup_delete_eq. destruct (jobs st !! id); simpl; [|done].
    by rewrite decide_True.
  - rewrite lookup_delete_ne by done.
    destruct (jobs st !! id'); simpl; rewrite ?decide_False by done;
      by rewrite app_nil_r.
Qed.

Lemma summarize_set_thread id id' t st :
  summarize id (set_thread id' t st)
  = if decide (id' = id)
    then {| s_status := s_status (summarize id st);
            s_thread := Some t;
            s_issued := s_issued (summarize id st);
            s_history := s_history (summarize id st) |}
    else summarize id st.
Proof.
  unfold summarize, set_thread, history. simpl.
  destruct (decide (id' = id)) as [->|Hne].
  - by rewrite lookup_insert_eq.
  - by rewrite lookup_insert_ne.
Qed.

Lemma summarize_post_scan id url rnd started st :
  rnd ∉ issued st →
  summarize id (post_scan url rnd started st).1 = summarize id st
  ∨ sstep (summarize id st) (summarize id (post_scan url rnd started st).1).
Proof.
  intros Hfresh. unfold Coordinator.post_scan.
  destruct url as [u|]; [|by left].
  destruct (decide (u = "")); [by left|].
  destruct (URL_hostname u) as [h|]; [|by left].
  destruct (validateHostname (units h)); [|by left]. cbn [fst].
  assert (Hqueued :
    ∀ st', summarize id st' = summarize id
             (jobs_set rnd {| j_status := queued; j_worker := false;
                              j_meta := None; j_error := None |}
                (mkdirSync (workdir_of SCANS_DIR rnd)
                   {| jobs := jobs st; disk := disk st;
                      threads := threads st;
                      issued := {[rnd]} ∪ issued st;
                      removing := removing st;
                      terminated := terminated st;
                      writes := writes st; made := made st |})) →
           summarize id st' = summarize id st
           ∨ sstep (summarize id st) (summarize id st')).
  { intros st' ->. rewrite summarize_jobs_set.
    destruct (decide (rnd = id)) as [->|Hne].
    + right. unfold summarize at 1. cbn.
      rewrite bool_decide_eq_false_2 by done.
      rewrite bool_decide_eq_true_2 by set_solver.
      apply ss_scan_queued.
    + left. unfold summarize. cbn. f_equal.
      apply bool_decide_ext. set_solver. }
  unfold startScanWorker.
  destruct template_throws as [e|]; [by apply Hqueued|].
  destruct started; [|by apply Hqueued].
  rewrite summarize_jobs_set, summarize_set_thread, summarize_jobs_set.
  destruct (decide (rnd = id)) as [->|Hne].
  + right. unfold summarize at 1. cbn.
    rewrite bool_decide_eq_false_2 by done.
    rewrite bool_decide_eq_true_2 by set_solver.
    apply ss_scan_started.
  + left. unfold summarize. cbn. f_equal.
    apply bool_decide_ext. set_solver.
Qed.

(** Every turn of the event loop leaves the summary of a job alone or
    changes it by one of the steps of [sstep]. *)
Lemma handle_summary ev st id :
  allowed ev st = true →
  summarize id (handle ev st).1 = summarize id st
  ∨ sstep (summarize id st) (summarize id (handle ev st).1).
Proof.
  destruct ev as [rq rnd started|id' ok|id' m|id' err|id' c|id' f cnt];
    cbn [allowed Coordinator.handle]; intros Hal.
  2-6: apply bool_decide_eq_true_1 in Hal.
  - unfold Coordinator.on_request.
    destruct (dispatch rq) as [[[] params]|]; try by left.
    + apply bool_decide_eq_true_1 in Hal.
      pose proof (summarize_post_scan id (rq_url rq) rnd started st Hal) as H.
      by destruct (post_scan _ _ _ _).
    + by destruct params as [|? []]; left.
    + by destruct params as [|? []]; left.
    + by destruct params as [|? []]; left.
  - unfold delete_finish. destruct ok as [|gone]; [|by left]. cbn [fst].
    rewrite summarize_jobs_delete.
    destruct (decide (id' = id)) as [->|Hne]; [|by left].
    unfold summarize. cbn. destruct (jobs st !! id) as [j|]; cbn.
    + right. apply ss_delete.
    + left. by rewrite app_nil_r.
  - destruct m as [txt|meta|e]; cbn [fst on_message]; [by left| |];
      rewrite summarize_jobs_set, summarize_set_thread;
      (destruct (decide (id' = id)) as [->|Hne]; [right|by left]);
      unfold summarize; cbn; rewrite Hal;
      apply ss_signal; [by left|by right].
  - cbn [fst]. unfold on_error.
    rewrite summarize_jobs_set, summarize_set_thread.
    destruct (decide (id' = id)) as [->|Hne]; [right|by left].
    unfold summarize; cbn; rewrite Hal. apply ss_signal. by right.
  - cbn [fst]. unfold on_exit.
    assert (Hth : ∃ th, threads st !! id' = Some th
                        ∧ (th = Alive ∨ th = Signalled)) by naive_solver.
    destruct Hth as (th & Hth & Hcase).
    destruct (decide (c ≠ 0)) as [Hc|Hc].
    + destruct (decide _) as [[Hd Hf]|Hn].
      * rewrite summarize_jobs_set, summarize_set_thread.
        destruct (decide (id' = id)) as [->|Hne]; [right|by left].
        unfold summarize; cbn. rewrite Hth.
        cbn in Hd, Hf. by apply ss_exit_failed.
      * rewrite summarize_set_thread.
        destruct (decide (id' = id)) as [->|Hne]; [right|by left].
        unfold summarize; cbn. rewrite Hth.
        apply ss_exit_quiet; [done|]. right. cbn in Hn.
        destruct (j_status <$> jobs st !! id) as [[]|]; naive_solver.
    + rewrite summarize_set_thread.
      destruct (decide (id' = id)) as [->|Hne]; [right|by left].
      unfold summarize; cbn. rewrite Hth.
      apply ss_exit_quiet; [done|]. left. lia.
  - by left.
Qed.

Lemma intact_dec h : Decision (intact h).
Proof. unfold intact. apply _. Qed.

Lemma intact_app h k : intact (h ++ k) ↔ intact h ∧ intact k.
Proof. apply Forall_app. Qed.

Lemma lifetime_app_intact h k :
  intact h → lifetime (h ++ k) = statuses h ++ lifetime k.
Proof.
  induction 1 as [|[s|] h [? Hs] _ IH]; [done| |done].
  simpl. by rewrite IH.
Qed.

Lemma lifetime_app_broken h k : ¬ intact h → lifetime (h ++ k) = lifetime h.
Proof.
  induction h as [|[s|] h IH]; intros Hn.
  - destruct Hn. constructor.
  - simpl. f_equal. apply IH. intros Hh. apply Hn. by constructor.
  - done.
Qed.

Lemma lifetime_snoc_None h : lifetime (h ++ [None]) = lifetime h.
Proof.
  destruct (intact_dec h) as [Hi|Hn].
  - rewrite lifetime_app_intact by done. simpl. rewrite app_nil_r.
    induction Hi as [|[s|] h [? Hs] _ IH]; [done| |done].
    simpl. by rewrite IH.
  - by apply lifetime_app_broken.
Qed.

Lemma statuses_app h k : statuses (h ++ k) = statuses h ++ statuses k.
Proof. apply omap_app. Qed.

Lemma good_step s s' : good s → sstep s s' → good s'.
Proof.
  intros [Hfresh Hlife Hint Hst Hal Hex] Hstep.
  destruct Hstep as [e th h|e th h|e i h t Ht|e th i h c Hth Hc Hd Hf
                    |e th i h c Hth Hc|e th i h];
    cbn [s_status s_thread s_issued s_history] in *.
  - (* a scan whose worker started *)
    destruct Hfresh as (-> & -> & ->); [done|].
    split; cbn [s_status s_thread s_issued s_history].
    + done.
    + right. by exists [failed].
    + done.
    + exists []. by split.
    + by right.
    + done.
  - (* a scan whose worker did not start *)
    destruct Hfresh as (-> & -> & ->); [done|].
    split; cbn [s_status s_thread s_issued s_history].
    + done.
    + right. by exists [running; failed].
    + done.
    + done.
    + done.
    + done.
  - (* done, error, or an uncaught error *)
    assert (Hissued : i = true).
    { destruct i; [done|]. by destruct Hfresh as (_ & ? & _). }
    subst i.
    split; cbn [s_status s_thread s_issued s_history].
    + done.
    + destruct (intact_dec h) as [Hi|Hn].
      * destruct (Hint Hi eq_refl) as [-> _].
        destruct Ht as [->| ->]; [left|right]; by exists [].
      * by rewrite lifetime_app_broken.
    + intros [Hi _]%intact_app _.
      destruct (Hint Hi eq_refl) as [-> _]. by exists t.
    + destruct Hst as (ts & Hts & Hterm). exists (ts ++ [t]).
      rewrite statuses_app, Hts. split; [done|].
      apply Forall_app. split; [done|]. by apply Forall_singleton.
    + done.
    + done.
  - (* a non-zero exit that marks the job failed *)
    assert (Hissued : i = true).
    { destruct i; [done|]. by destruct Hfresh as (_ & ? & _). }
    subst i.
    split; cbn [s_status s_thread s_issued s_history].
    + done.
    + destruct (intact_dec h) as [Hi|Hn].
      * specialize (Hint Hi eq_refl).
        destruct Hth as [-> | ->].
        -- destruct Hint as [-> _]. right. by exists [].
        -- destruct Hint as (t & [-> | ->] & _ & ?); congruence.
      * by rewrite lifetime_app_broken.
    + intros [Hi _]%intact_app _. specialize (Hint Hi eq_refl).
      destruct Hth as [-> | ->].
      * destruct Hint as [-> _]. right. exists failed.
        split; [by right|done].
      * destruct Hint as (t & [-> | ->] & _ & ?); congruence.
    + assert (Hst' : ∃ ts, statuses h = [queued; running] ++ ts
                           ∧ Forall terminal ts)
        by (by destruct Hth as [-> | ->]).
      destruct Hst' as (ts & Hts & Hterm). exists (ts ++ [failed]).
      rewrite statuses_app, Hts. split; [done|].
      apply Forall_app. split; [done|]. apply Forall_singleton. by right.
    + done.
    + intros c' _ _. by right; right.
  - (* an exit that changes nothing *)
    assert (Hissued : i = true).
    { destruct i; [done|]. by destruct Hfresh as (_ & ? & _). }
    subst i.
    split; cbn [s_status s_thread s_issued s_history].
    + done.
    + done.
    + intros Hi _. specialize (Hint Hi eq_refl).
      destruct Hth as [-> | ->].
      * destruct Hint as [-> ->]. left. split; [done|]. split; [done|].
        destruct Hc as [?|[?|?]]; done.
      * by right.
    + by destruct Hth as [-> | ->].
    + done.
    + intros c' [= <-] Hc'. destruct Hc as [?|[?|?]]; [done|auto..].
  - (* the entry is deleted *)
    split; cbn [s_status s_thread s_issued s_history].
    + intros Hi. by destruct Hfresh as (_ & _ & ?).
    + by rewrite lifetime_snoc_None.
    + intros [_ Hi]%intact_app. apply Forall_singleton in Hi as [? ?]. done.
    + destruct th; rewrite statuses_app, app_nil_r; done.
    + by left.
    + by left.
Qed.

Lemma good_boot fs id : good (summarize id (boot fs)).
Proof.
  unfold summarize, boot, history. simpl. rewrite !lookup_empty.
  split; cbn [s_status s_thread s_issued s_history fmap option_fmap
              option_map]; try done.
  left. by exists [queued; running; done].
Qed.

(** Every state the server reaches is good for every job id. *)
Lemma run_events_good evs : ∀ st st',
  (∀ id, good (summarize id st)) →
  run_events evs st = Some st' →
  ∀ id, good (summarize id st').
Proof.
  induction evs as [|ev evs IH]; intros st st' Hgood; simpl.
  - by intros [= <-].
  - destruct (allowed ev st) eqn:Hal; [|done].
    apply IH. intros id.
    destruct (handle_summary ev st id Hal) as [->|Hstep]; [done|].
    by eapply good_step.
Qed.

Lemma reachable_good fs evs st id :
  run_events evs (boot fs) = Some st → good (summarize id st).
Proof. intros Hrun. eapply run_events_good; [|done]. apply good_boot. Qed.

(** ** C3 *)

(** C3. In every state the server reaches and for every job id: the
    statuses written to the job's entry from its creation to the first
    removal of the entry are a prefix of [queued, running, done] or of
    [queued, running, failed]; and over all writes for that id, removals
    included, [queued] and [running] are written at most once, in that
    order and before anything else, and every later write is [done] or
    [failed]. The worker is taken to follow its program (log messages, then
    at most one of done and error) and job ids not to repeat. *)
Theorem status_sequence_monotone fs evs st id :
  run_events evs (boot fs) = Some st →
  (lifetime (history id st) `prefix_of` [queued; running; done]
   ∨ lifetime (history id st) `prefix_of` [queued; running; failed])
  ∧ (statuses (history id st) `prefix_of` [queued; running]
     ∨ ∃ ts, statuses (history id st) = [queued; running] ++ ts
             ∧ Forall terminal ts).
Proof.
  intros Hrun. destruct (reachable_good fs evs st id Hrun)
    as [Hfresh Hlife _ Hst _ _].
  split; [exact Hlife|].
  cbn [summarize s_status s_thread s_issued s_history] in *.
  destruct (threads st !! id) as [th|]; [by right|]. left.
  destruct (bool_decide (id ∈ issued st)) eqn:Hi.
  - rewrite Hst by done. by exists [running].
  - destruct Hfresh as (-> & _); [done|]. by exists [queued; running].
Qed.

(** ** C2 *)

(** An invariant of the states is kept along the events that are allowed. *)
Lemma run_events_inv (Q : event → Prop) (I : server → Prop) :
  (∀ ev st, allowed ev st = true → Q ev →
            (∀ id, good (summarize id st)) → I st → I (handle ev st).1) →
  ∀ evs st st',
    (∀ id, good (summarize id st)) → I st → Forall Q evs →
    run_events evs st = Some st' → I st'.
Proof.
  intros Hstep. induction evs as [|ev evs IH]; intros st st' Hgood HI HQ; cbn.
  - by intros [= <-].
  - apply Forall_cons in HQ as [Hev HQ].
    destruct (allowed ev st) eqn:Hal; [|done].
    apply IH; [|by apply Hstep|done].
    intros id. destruct (handle_summary ev st id Hal) as [->|Hs]; [done|].
    by eapply good_step.
Qed.

Lemma jobs_on_exit id c st :
  (c ≠ 0 → j_status <$> jobs st !! id ≠ Some done →
   j_status <$> jobs st !! id ≠ Some failed →
   jobs (on_exit id c st) !! id = Some (exit_entry c))
  ∧ (c = 0 ∨ j_status <$> jobs st !! id = Some done
     ∨ j_status <$> jobs st !! id = Some failed →
     jobs (on_exit id c st) = jobs st)
  ∧ ∀ id', id' ≠ id → jobs (on_exit id c st) !! id' = jobs st !! id'.
Proof.
  unfold on_exit. split; [|split].
  - intros Hc Hd Hf. rewrite decide_True by done.
    rewrite decide_True by done. cbn. by rewrite lookup_insert_eq.
  - intros H. destruct (decide (c ≠ 0)); [|done].
    destruct (decide _) as [[Hd Hf]|]; [|done]. naive_solver.
  - intros id' Hne. destruct (decide (c ≠ 0)); [|done].
    destruct (decide _); [|done]. cbn. by rewrite lookup_insert_ne.
Qed.

(** What one turn of the event loop does to the worker thread and to the
    table entry of one job. *)
Lemma handle_view ev st id :
  allowed ev st = true →
  good (summarize id st) →
  (threads (handle ev st).1 !! id = threads st !! id
   ∧ (jobs (handle ev st).1 !! id = jobs st !! id
      ∨ jobs (handle ev st).1 !! id = None))
  ∨ (threads st !! id = None
     ∧ (threads (handle ev st).1 !! id = None
        ∨ threads (handle ev st).1 !! id = Some Alive))
  ∨ (threads st !! id = Some Alive
     ∧ threads (handle ev st).1 !! id = Some Signalled
     ∧ ((last_message id ev
         ∧ ∀ j, jobs (handle ev st).1 !! id = Some j →
                j_status j = done ∨ j_status j = failed)
        ∨ (worker_error id ev
           ∧ ∀ j, jobs (handle ev st).1 !! id = Some j → failure j)))
  ∨ (∃ c, ev = ThreadExit id c
          ∧ (threads st !! id = Some Signalled
             ∨ (threads st !! id = Some Alive ∧ c ≠ 0))
          ∧ threads (handle ev st).1 !! id = Some (Exited c)
          ∧ jobs (handle ev st).1 !! id = jobs (on_exit id c st) !! id).
Proof.
  intros Hal Hgood.
  destruct ev as [rq rnd started|id' o|id' m|id' err|id' c|id' f cnt];
    cbn [allowed Coordinator.handle] in *.
  - unfold Coordinator.on_request.
    destruct (dispatch rq) as [[[] params]|]; try (by left; auto).
    + apply bool_decide_eq_true_1 in Hal.
      unfold Coordinator.post_scan.
      destruct (rq_url rq) as [u|]; [|by left; auto].
      destruct (decide (u = "")); [by left; auto|].
      destruct (URL_hostname u) as [h|]; [|by left; auto].
      destruct (validateHostname (units h)); [|by left; auto]. cbn [fst].
      destruct (decide (rnd = id)) as [->|Hne].
      * right. left.
        destruct (g_fresh _ Hgood) as (_ & Hth & _).
        { cbn. by apply bool_decide_eq_false_2. }
        cbn in Hth. split; [done|]. unfold startScanWorker.
        destruct template_throws; [by left|].
        destruct started; [right|by left].
        cbn. by rewrite lookup_insert_eq.
      * left. unfold startScanWorker.
        destruct template_throws; [|destruct started]; cbn;
          rewrite ?lookup_insert_ne by done; auto.
    + destruct params as [|? []]; left; auto.
    + destruct params as [|? []]; left; auto.
    + destruct params as [|? []]; left; auto.
  - left. unfold delete_finish. destruct o as [|gone]; cbn; [|auto].
    split; [done|].
    destruct (decide (id' = id)) as [->|Hne];
      [right; apply lookup_delete_eq|left; by apply lookup_delete_ne].
  - apply bool_decide_eq_true_1 in Hal.
    destruct (decide (id' = id)) as [->|Hne].
    + destruct m as [txt|meta|e]; cbn [fst on_message].
      * left. auto.
      * right. right. left. split; [done|].
        cbn. rewrite !lookup_insert_eq. split; [done|]. left.
        split; [done|]. intros j [= <-]. by left.
      * right. right. left. split; [done|].
        cbn. rewrite !lookup_insert_eq. split; [done|]. left.
        split; [done|]. intros j [= <-]. by right.
    + left. destruct m as [txt|meta|e]; cbn;
        rewrite ?lookup_insert_ne by done; auto.
  - apply bool_decide_eq_true_1 in Hal.
    destruct (decide (id' = id)) as [->|Hne].
    + right. right. left. split; [done|].
      cbn. rewrite !lookup_insert_eq. split; [done|]. right.
      split; [done|]. intros j [= <-]. by repeat split.
    + left. cbn. rewrite !lookup_insert_ne by done. auto.
  - apply bool_decide_eq_true_1 in Hal. cbn [fst].
    destruct (decide (id' = id)) as [->|Hne].
    + right. right. right. exists c. split; [done|]. split; [done|].
      split.
      * unfold on_exit. repeat case_decide; cbn; by rewrite lookup_insert_eq.
      * unfold on_exit. cbn [jobs set_thread]. by repeat case_decide.
    + left. split.
      * unfold on_exit. repeat case_decide; cbn;
          by rewrite lookup_insert_ne.
      * left.
        destruct (jobs_on_exit id' c (set_thread id' (Exited c) st))
          as (_ & _ & H).
        by rewrite H.
  - left. auto.
Qed.

(** Once the worker of a job is past its last message, an error or its
    exit, the entry of the job, while it exists, is [done] or [failed]. *)
Lemma settled_step ev st id :
  allowed ev st = true →
  (∀ id, good (summarize id st)) →
  match threads st !! id with
  | Some Signalled | Some (Exited _) =>
      ∀ j, jobs st !! id = Some j → j_status j = done ∨ j_status j = failed
  | _ => True
  end →
  match threads (handle ev st).1 !! id with
  | Some Signalled | Some (Exited _) =>
      ∀ j, jobs (handle ev st).1 !! id = Some j →
           j_status j = done ∨ j_status j = failed
  | _ => True
  end.
Proof.
  intros Hal Hgood HI.
  destruct (handle_view ev st id Hal (Hgood id))
    as [[-> Hj]|[[Hth [-> | ->]]|[(Hth & -> & Hj)|(c & -> & Hth & -> & ->)]]];
    try done.
  - destruct (threads st !! id) as [[]|]; try done;
      destruct Hj as [-> | ->]; done.
  - destruct Hj as [[_ Hj]|[_ Hj]]; [done|].
    intros j Hjob. right. by destruct (Hj j Hjob).
  - intros j. destruct (jobs_on_exit id c st) as (Hset & Hsame & _).
    destruct (decide (c = 0 ∨ j_status <$> jobs st !! id = Some done
                      ∨ j_status <$> jobs st !! id = Some failed))
      as [Hq|Hq].
    + rewrite (Hsame Hq). destruct Hth as [Hth|[Hth Hc]]; rewrite Hth in HI.
      * apply HI.
      * intros Hjob. rewrite Hjob in Hq. cbn in Hq.
        destruct Hq as [?|[[= ?]|[= ?]]]; auto. done.
    + rewrite Hset by naive_solver. intros [= <-]. by right.
Qed.

(** Without a [done] or [error] message the entry reports a failure. *)
Lemma silent_step ev st id :
  allowed ev st = true →
  ¬ last_message id ev →
  (∀ id, good (summarize id st)) →
  match threads st !! id with
  | Some Signalled | Some (Exited _) =>
      ∀ j, jobs st !! id = Some j → failure j
  | _ => True
  end →
  match threads (handle ev st).1 !! id with
  | Some Signalled | Some (Exited _) =>
      ∀ j, jobs (handle ev st).1 !! id = Some j → failure j
  | _ => True
  end.
Proof.
  intros Hal Hev Hgood HI.
  destruct (handle_view ev st id Hal (Hgood id))
    as [[-> Hj]|[[Hth [-> | ->]]|[(Hth & -> & Hj)|(c & -> & Hth & -> & ->)]]];
    try done.
  - destruct (threads st !! id) as [[]|]; try done;
      destruct Hj as [-> | ->]; done.
  - by destruct Hj as [[? _]|[_ Hj]].
  - intros j. destruct (jobs_on_exit id c st) as (Hset & Hsame & _).
    pose proof (g_alive _ (Hgood id)) as Halive. cbn in Halive.
    destruct (decide (c = 0 ∨ j_status <$> jobs st !! id = Some done
                      ∨ j_status <$> jobs st !! id = Some failed))
      as [Hq|Hq].
    + rewrite (Hsame Hq). destruct Hth as [Hth|[Hth Hc]]; rewrite Hth in HI.
      * apply HI.
      * intros Hjob. rewrite Hjob in Hq, Halive. cbn in Hq, Halive.
        destruct (Halive Hth) as [?|[= Hr]]; [done|]. rewrite Hr in Hq.
        by destruct Hq as [?|[?|?]].
    + rewrite Hset by naive_solver. intros [= <-]. by repeat split.
Qed.

(** Without such a message and without an error event, the worker exits
    with a code other than 0 and the entry is the one the exit handler
    writes. *)
Lemma crashed_step ev st id :
  allowed ev st = true →
  ¬ last_message id ev ∧ ¬ worker_error id ev →
  (∀ id, good (summarize id st)) →
  match threads st !! id with
  | Some Signalled => False
  | Some (Exited c) =>
      c ≠ 0 ∧ ∀ j, jobs st !! id = Some j → j = exit_entry c
  | _ => True
  end →
  match threads (handle ev st).1 !! id with
  | Some Signalled => False
  | Some (Exited c) =>
      c ≠ 0 ∧ ∀ j, jobs (handle ev st).1 !! id = Some j → j = exit_entry c
  | _ => True
  end.
Proof.
  intros Hal [Hev Herr] Hgood HI.
  destruct (handle_view ev st id Hal (Hgood id))
    as [[-> Hj]|[[Hth [-> | ->]]|[(Hth & -> & Hj)|(c & -> & Hth & -> & ->)]]];
    try done.
  - destruct (threads st !! id) as [[]|]; try done.
    destruct HI as [Hc HI]. split; [done|].
    destruct Hj as [-> | ->]; done.
  - by destruct Hj as [[? _]|[? _]].
  - destruct Hth as [Hth|[Hth Hc]]; [by rewrite Hth in HI|].
    split; [done|]. intros j.
    destruct (jobs_on_exit id c st) as (Hset & _ & _).
    pose proof (g_alive _ (Hgood id)) as Halive. cbn in Halive.
    rewrite Hset; [by intros [= <-]|done| |];
      destruct (Halive Hth) as [-> | ->]; done.
Qed.

(** C2. In every state the server reaches, once the worker thread of a
    job has exited, with whatever code, the job is not left [running] or
    [queued]: its entry, for as long as it exists, is [done] or [failed].
    When the worker has sent neither [done] nor [error] before, the entry
    is [failed] with an error text; and when it has not died of an error
    event either, its exit code is not 0 and the entry is the one the exit
    handler writes, with the detail ["worker exited with code <code>"].
    (The handler is guarded by [code !== 0]; a worker that exits with code
    0 has run its program to the end and so has sent [done] or [error].) *)
Theorem exited_worker_leaves_no_running_job fs evs st id c :
  run_events evs (boot fs) = Some st →
  threads st !! id = Some (Exited c) →
  (∀ j, jobs st !! id = Some j → j_status j = done ∨ j_status j = failed)
  ∧ (Forall (λ ev, ¬ last_message id ev) evs →
     ∀ j, jobs st !! id = Some j → failure j)
  ∧ (Forall (λ ev, ¬ last_message id ev ∧ ¬ worker_error id ev) evs →
     c ≠ 0 ∧ ∀ j, jobs st !! id = Some j → j = exit_entry c).
Proof.
  intros Hrun Hth.
  assert (Hboot : ∀ id', good (summarize id' (boot fs)))
    by (intros id'; apply good_boot).
  split; [|split].
  - cut (match threads st !! id with
         | Some Signalled | Some (Exited _) =>
             ∀ j, jobs st !! id = Some j →
                  j_status j = done ∨ j_status j = failed
         | _ => True
         end); [by rewrite Hth|].
    apply (run_events_inv (λ _, True)
             (λ st, match threads st !! id with
                    | Some Signalled | Some (Exited _) =>
                        ∀ j, jobs st !! id = Some j →
                             j_status j = done ∨ j_status j = failed
                    | _ => True
                    end)
             (λ ev st0 Hal _ Hg, settled_step ev st0 id Hal Hg)
             evs (boot fs) st Hboot); [done| |exact Hrun].
    by apply Forall_forall.
  - intros Hsilent.
    cut (match threads st !! id with
         | Some Signalled | Some (Exited _) =>
             ∀ j, jobs st !! id = Some j → failure j
         | _ => True
         end); [by rewrite Hth|].
    by apply (run_events_inv (λ ev, ¬ last_message id ev)
                (λ st, match threads st !! id with
                       | Some Signalled | Some (Exited _) =>
                           ∀ j, jobs st !! id = Some j → failure j
                       | _ => True
                       end)
                (λ ev st0 Hal Hev Hg, silent_step ev st0 id Hal Hev Hg)
                evs (boot fs) st Hboot).
  - intros Hsilent.
    cut (match threads st !! id with
         | Some Signalled => False
         | Some (Exited c) =>
             c ≠ 0 ∧ ∀ j, jobs st !! id = Some j → j = exit_entry c
         | _ => True
         end); [by rewrite Hth|].
    by apply (run_events_inv
                (λ ev, ¬ last_message id ev ∧ ¬ worker_error id ev)
                (λ st, match threads st !! id with
                       | Some Signalled => False
                       | Some (Exited c) =>
                           c ≠ 0
                           ∧ ∀ j, jobs st !! id = Some j → j = exit_entry c
                       | _ => True
                       end)
                (λ ev st0 Hal Hev Hg, crashed_step ev st0 id Hal Hev Hg)
                evs (boot fs) st Hboot).
Qed.

(** ** C9 *)

Lemma get_status_payload id st :
  payload (get_status id st) ≠ Health true.
Proof.
  unfold Coordinator.get_status.
  destruct (jobs st !! id); [done|].
  destruct (disk st !! _); [|done]. by destruct (JSON_parse _).
Qed.

(** C9, as the code has it. [GET /status/health] is answered by the handler
    of [/status/:jobId], registered first, with [jobId = "health"]; the
    health handler is never reached and the body is never [{ ok: true }].
    On a server with no job and no stored metadata the answer is 404. *)
Theorem health_route_is_shadowed st rnd started :
  dispatch Demo.health_request = Some (EStatus, ["health"])
  ∧ on_request Demo.health_request rnd started st
    = (st, Some (get_status "health" st))
  ∧ payload (get_status "health" st) ≠ Health true
  ∧ (on_request Demo.health_request rnd started (boot ∅)).2
    = Some {| code := 404; payload := ErrorBody "job not found" |}.
Proof.
  split; [reflexivity|]. split; [reflexivity|].
  split; [apply get_status_payload|]. reflexivity.
Qed.

(** ** C10, the status query *)

Lemma stored_status_is_done st id :
  jobs st !! id = None →
  (∀ raw meta,
     disk st !! path_join (workdir_of SCANS_DIR id) "meta.json" = Some raw →
     JSON_parse raw = Some meta →
     get_status id st = {| code := 200; payload := StoredStatus id done meta |})
  ∧ (get_status id st = {| code := 404; payload := ErrorBody "job not found" |}
     ∨ ∃ meta, get_status id st
               = {| code := 200; payload := StoredStatus id done meta |}).
Proof.
  intros Hj. unfold Coordinator.get_status. rewrite Hj. split.
  - by intros raw meta -> ->.
  - destruct (disk st !! _) as [raw|]; [|by left].
    destruct (JSON_parse raw) as [meta|]; [|by left]. right. by exists meta.
Qed.

End ServerFacts.

(* ===================================================================== *)
(** * The classification of responses                                     *)
(* ===================================================================== *)

Section Classification.
Import FetchPool.

(** What the code's chain of comparisons computes. *)
Lemma classify_ranges (s : Z) :
  (classify s = "OK" ↔ 200 ≤ s < 300)
  ∧ (classify s = "REDIRECT" ↔ 300 ≤ s < 400)
  ∧ (classify s = "NOTFOUND/CLIENT" ↔ 400 ≤ s < 500)
  ∧ (classify s = "SERVERERROR" ↔ 500 ≤ s)
  ∧ (classify s = "UNKNOWN" ↔ s < 200).
Proof.
  unfold classify.
  destruct (Z.leb_spec 200 s), (Z.ltb_spec s 300), (Z.leb_spec 300 s),
    (Z.ltb_spec s 400), (Z.leb_spec 400 s), (Z.ltb_spec s 500),
    (Z.leb_spec 500 s); cbn [andb];
    repeat split; intros; try lia; try discriminate; try reflexivity.
Qed.

(** A failed fetch is reported with the timeout text exactly when the
    error is the abort raised by the timer. *)
Lemma reason_timeout v timeoutMs err :
  (err_name err = "AbortError" →
   reason v timeoutMs err = "TIMEOUT (" +:+ pretty timeoutMs +:+ "ms)")
  ∧ (err_name err ≠ "AbortError" → err_message err ≠ "" →
     reason v timeoutMs err = err_message err).
Proof.
  unfold reason, timeout_reason, str_or. split.
  - intros ->. by rewrite decide_True.
  - intros Hn Hm. cbv zeta. rewrite (decide_False (P := err_name err = _)) by done.
    rewrite !(decide_False (P := err_message err = _)) by done.
    by destruct v.
Qed.

(** C8, as the code has it. A response with status 600 (or 999) is tagged
    SERVERERROR, not UNKNOWN: the last comparison is [status >= 500] with no
    upper bound, while the comment above it and the branches before it
    speak of 5xx. *)
Theorem status_600_is_tagged_server_error v timeoutMs i sfx url d :
  classify 600 = "SERVERERROR"
  ∧ classify 999 = "SERVERERROR"
  ∧ classify 600 ≠ "UNKNOWN"
  ∧ r_tag (make_result v timeoutMs i sfx url (FetchOk 600) d)
    = Some "SERVERERROR".
Proof.
  split; [reflexivity|]. split; [reflexivity|]. split; [discriminate|].
  by destruct v.
Qed.

End Classification.

(* ===================================================================== *)
(** * The stored metadata, and runs on concrete inputs                    *)
(* ===================================================================== *)

Section Runs.
Import Pipeline Coordinator.

(** C10. For a job id with no entry in the job table whose meta.json
    exists and parses, the status query answers 200 with status [done] and
    the parsed metadata; without an entry the query answers either that or
    404, never [failed]. And a worker writes meta.json only as the last
    file of a run that has written results.json and results.txt, with
    nothing after it but the [done] message. *)
Theorem stored_metadata_reports_done
    (SCANS_DIR : string) (JSON_parse : string → option json)
    (P : platform) (wd : workerData)
    (st : server) (jobId raw : string) (meta : json) :
  jobs st !! jobId = None →
  disk st !! path_join (workdir_of SCANS_DIR jobId) "meta.json" = Some raw →
  JSON_parse raw = Some meta →
  get_status SCANS_DIR JSON_parse jobId st
  = {| code := 200; payload := StoredStatus jobId done meta |}
  ∧ (∀ st' id',
       jobs st' !! id' = None →
       get_status SCANS_DIR JSON_parse id' st'
       = {| code := 404; payload := ErrorBody "job not found" |}
       ∨ ∃ m, get_status SCANS_DIR JSON_parse id' st'
              = {| code := 200; payload := StoredStatus id' done m |})
  ∧ (∀ fs c,
       WriteFile (metaJson wd) c ∈ trace (run_worker P wd fs) →
       ∃ pre rj rt m,
         trace (run_worker P wd fs)
         = pre ++ [WriteFile (resultsJson wd) rj;
                   WriteFile (resultsTxt wd) rt;
                   WriteFile (metaJson wd) c; Post (Done m)]).
Proof.
  intros Hj Hd Hp. split; [|split].
  - by eapply stored_status_is_done.
  - intros st' id' Hj'. by eapply stored_status_is_done.
  - apply meta_written_last.
Qed.

(** ** The fetch pool on the three suffixes *)

(** The run of [Demo.schedule]: three results in completion order, tagged OK,
    NOTFOUND/CLIENT and ERROR with the timeout text. *)
Example pool_scenario :
  (st0 ← FetchPool.start_workers Demo.buildUrl Demo.baseUrl Demo.lines 2;
   st ← FetchPool.run Demo.buildUrl FetchPool.UrlChecker Demo.baseUrl
          Demo.timeoutMs Demo.lines Demo.schedule st0;
   Some (FetchPool.workers st,
         (λ r, (FetchPool.r_index r, FetchPool.r_suffix r,
                FetchPool.r_tag r, FetchPool.r_detail r))
           <$> FetchPool.results st))
  = Some ([FetchPool.Finished; FetchPool.Finished],
          [ (Some 1%nat, "ok", Some "OK", None);
            (Some 2%nat, "missing", Some "NOTFOUND/CLIENT", None);
            (Some 3%nat, "slow", Some "ERROR", Some "TIMEOUT (5000ms)") ]).
Proof. vm_compute. reflexivity. Qed.

Lemma pool_claims_each_index_once_witness :
  1 ≤ 2
  ∧ ∃ st0,
      FetchPool.start_workers Demo.buildUrl Demo.baseUrl Demo.lines 2
      = Some st0
      ∧ Z.of_nat (length (FetchPool.workers st0))
        = Z.min 2 (Z.of_nat (length Demo.lines))
      ∧ ∀ sched st,
          FetchPool.run Demo.buildUrl FetchPool.UrlChecker Demo.baseUrl
            Demo.timeoutMs Demo.lines sched st0 = Some st →
          (length sched ≤ 4 * length Demo.lines)%nat
          ∧ (FetchPool.idx st0 ≤ FetchPool.idx st)%nat
          ∧ (FetchPool.claimed st).*2
            = seq 0 (FetchPool.idx st `min` length Demo.lines)
          ∧ (¬ FetchPool.all_finished st →
             ∃ k r st',
               FetchPool.resume Demo.buildUrl FetchPool.UrlChecker
                 Demo.baseUrl Demo.timeoutMs Demo.lines k r st = Some st')
          ∧ (FetchPool.all_finished st →
             (FetchPool.claimed st).*2 = seq 0 (length Demo.lines)
             ∧ length (FetchPool.results st) = length Demo.lines
             ∧ FetchPool.r_suffix <$> FetchPool.results st ≡ₚ Demo.lines
             ∧ (FetchPool.UrlChecker = FetchPool.UrlChecker →
                FetchPool.r_index <$> FetchPool.results st
                ≡ₚ Some <$> seq 1 (length Demo.lines))).
Proof.
  split; [lia|].
  apply (pool_claims_each_index_once Demo.buildUrl FetchPool.UrlChecker
           Demo.baseUrl Demo.timeoutMs Demo.lines 2).
  lia.
Defined.

(** ** The worker on concrete files *)

Lemma parse_keeps_every_line_witness :
  files Demo.probed !! httpxOut Demo.wd = Some Demo.probe_output
  ∧ ∃ s',
      task_parse Demo.platform Demo.wd Demo.probed
      = (s', inr (parse_lines Demo.platform Demo.probe_output))
      ∧ files s' = files Demo.probed
      ∧ length (parse_lines Demo.platform Demo.probe_output)
        = line_starts true Demo.probe_output
      ∧ Forall2 (λ l r, match JSON_parse Demo.platform l with
                        | Some v => r = v
                        | None => r = parse_error_record l
                                  ∧ prop r "raw" = Some (JStr l)
                        end)
                (nonempty_lines Demo.probe_output)
                (parse_lines Demo.platform Demo.probe_output).
Proof.
  split; [vm_compute; reflexivity|].
  apply (parse_keeps_every_line Demo.platform Demo.wd Demo.probe_output
           Demo.probed).
  vm_compute. reflexivity.
Defined.

(** The three records of the probe output of [Demo]: the parsed [true], a
    parse error carrying ["not json"], and the parsed [{}]. *)
Example parse_scenario :
  parse_lines Demo.platform Demo.probe_output
  = [JBool true; parse_error_record "not json"; JObj []].
Proof. vm_compute. reflexivity. Qed.

(** What the merge leaves in all.txt there: three entries, sorted, the
    shared one once. *)
Example merge_scenario :
  files (task_merge Demo.platform Demo.wd Demo.discovered).1
    !! allList Demo.wd
  = Some ("a.example.test" +:+ LF +:+ "b.example.test" +:+ LF
          +:+ "c.example.test" +:+ LF).
Proof. vm_compute. reflexivity. Qed.

(** With neither output present: an empty all.txt and no command. *)
Example merge_nothing_scenario :
  task_merge Demo.platform Demo.wd {| files := ∅; trace := [] |}
  = ({| files := {[ allList Demo.wd := "" ]};
        trace := [merge_log; WriteFile (allList Demo.wd) ""] |}, inr ()).
Proof. vm_compute. reflexivity. Qed.


(** ** The coordinator on concrete events *)

(** The statuses written for the job of [Demo.finished_run]. *)
Example status_scenario :
  history Demo.id (Demo.after Demo.finished_run)
  = [Some queued; Some running; Some done].
Proof. vm_compute. reflexivity. Qed.

Lemma status_sequence_monotone_witness :
  Demo.run_events Demo.finished_run (boot ∅)
  = Some (Demo.after Demo.finished_run)
  ∧ (lifetime (history Demo.id (Demo.after Demo.finished_run))
       `prefix_of` [queued; running; done]
     ∨ lifetime (history Demo.id (Demo.after Demo.finished_run))
       `prefix_of` [queued; running; failed])
  ∧ (statuses (history Demo.id (Demo.after Demo.finished_run))
       `prefix_of` [queued; running]
     ∨ ∃ ts, statuses (history Demo.id (Demo.after Demo.finished_run))
             = [queued; running] ++ ts
             ∧ Forall terminal ts).
Proof.
  split; [vm_compute; reflexivity|].
  apply (status_sequence_monotone Demo.SCANS_DIR Demo.URL_hostname
           Demo.JSON_parse None ∅ Demo.finished_run).
  vm_compute. reflexivity.
Defined.

(** The worker of [Demo.crashed] exits with code 1 and no message: the
    job is [failed] with the text of the exit handler. *)
Lemma exited_worker_leaves_no_running_job_witness :
  Demo.run_events Demo.crashed (boot ∅) = Some (Demo.after Demo.crashed)
  ∧ threads (Demo.after Demo.crashed) !! Demo.id = Some (Exited 1)
  ∧ Forall (λ ev, ¬ Lifecycle.last_message Demo.id ev
                  ∧ ¬ Lifecycle.worker_error Demo.id ev) Demo.crashed
  ∧ jobs (Demo.after Demo.crashed) !! Demo.id
    = Some {| j_status := failed; j_worker := false; j_meta := None;
              j_error := Some "worker exited with code 1" |}
  ∧ ∀ j, jobs (Demo.after Demo.crashed) !! Demo.id = Some j →
         j = Lifecycle.exit_entry 1.
Proof.
  assert (Hev : Forall (λ ev, ¬ Lifecycle.last_message Demo.id ev
                              ∧ ¬ Lifecycle.worker_error Demo.id ev)
                  Demo.crashed).
  { repeat constructor; by intros []. }
  split; [vm_compute; reflexivity|]. split; [vm_compute; reflexivity|].
  split; [exact Hev|]. split; [vm_compute; reflexivity|].
  refine (proj2 (proj2 (proj2 (exited_worker_leaves_no_running_job
                   Demo.SCANS_DIR Demo.URL_hostname Demo.JSON_parse None ∅
                   Demo.crashed (Demo.after Demo.crashed) Demo.id 1 _ _))
                   Hev)); vm_compute; reflexivity.
Defined.

Lemma stored_metadata_reports_done_witness :
  jobs Demo.restarted !! Demo.id = None
  ∧ disk Demo.restarted
      !! path_join (workdir_of Demo.SCANS_DIR Demo.id) "meta.json"
    = Some "{}"
  ∧ Demo.JSON_parse "{}" = Some (JObj [])
  ∧ Demo.get_status Demo.id Demo.restarted
    = {| code := 200; payload := StoredStatus Demo.id done (JObj []) |}.
Proof.
  split; [vm_compute; reflexivity|]. split; [vm_compute; reflexivity|].
  split; [reflexivity|].
  refine (proj1 (stored_metadata_reports_done Demo.SCANS_DIR Demo.JSON_parse
                   Demo.platform Demo.wd Demo.restarted Demo.id "{}"
                   (JObj []) _ _ _)).
  - vm_compute. reflexivity.
  - vm_compute. reflexivity.
  - reflexivity.
Defined.

(** A whole run of the worker on the platform of [Demo]: the messages are
    logs and one [done], and meta.json is the last file written. *)
Example worker_scenario :
  last (posted (run_worker Demo.platform Demo.wd ∅))
  = Some (Done {| m_jobId := Demo.id; m_hostname := "example.test";
                  m_tasks := [ {| name := "subfinder"; duration_ms := 0 |};
                               {| name := "amass"; duration_ms := 0 |};
                               {| name := "merge"; duration_ms := 0 |};
                               {| name := "httpx"; duration_ms := 0 |};
                               {| name := "parse_httpx"; duration_ms := 0 |};
                               {| name := "save_results"; duration_ms := 0 |} ];
                  m_startedAt := "2024-01-01T00:00:00.000Z";
                  m_finishedAt := Some "2024-01-01T00:00:01.000Z" |})
  ∧ files (run_worker Demo.platform Demo.wd ∅) !! metaJson Demo.wd
    = Some "{}".
Proof. split; vm_compute; reflexivity. Qed.

End Runs.

(* ===================================================================== *)
(** * Properties of the checkers' input and arguments                     *)
(* ===================================================================== *)

Section TextFacts.
Import Checker.
Local Open Scope nat_scope.

Local Abbreviation chars := String.list_ascii_of_string.

Lemma split_lines_eq a s :
  split_lines (String a s)
  = if decide (a = LFc) then EmptyString :: split_lines s
    else match s with
         | String b _ =>
             if decide (a = CRc ∧ b = LFc) then split_lines s
             else push_char a (split_lines s)
         | EmptyString => push_char a (split_lines s)
         end.
Proof.
  cbn [split_lines]. destruct (decide (a = LFc)); [done|].
  destruct s as [|b s]; [done|].
  destruct (decide (a = CRc ∧ b = LFc)) as [[_ ->]|]; [|done].
  cbn [split_lines]. by rewrite decide_True.
Qed.

Lemma push_char_Forall (P : string → Prop) a ps :
  P (String a EmptyString) → (∀ w, P w → P (String a w)) →
  Forall P ps → Forall P (push_char a ps).
Proof.
  intros H1 H2 [|w ws Hw Hws]; cbn; constructor; auto.
Qed.

Lemma split_lines_no_LF s : Forall (λ p, LFc ∉ chars p) (split_lines s).
Proof.
  induction s as [|a s IH].
  - cbn. constructor; [|constructor]. apply not_elem_of_nil.
  - rewrite split_lines_eq. destruct (decide (a = LFc)) as [->|Ha].
    + constructor; [apply not_elem_of_nil|done].
    + assert (Hpush : Forall (λ p, LFc ∉ chars p)
                        (push_char a (split_lines s))).
      { apply push_char_Forall; [| |done].
        - cbn. intros [?|?%elem_of_nil]%elem_of_cons; congruence.
        - intros w Hw. cbn. intros [?|?]%elem_of_cons; [congruence|done]. }
      destruct s as [|b s']; [done|]. by destruct (decide _).
Qed.

Lemma trimStart_chars c s : c ∈ chars (trimStart s) → c ∈ chars s.
Proof.
  induction s as [|a s IH]; cbn; [done|].
  destruct (is_ws a); [|done]. intros H. right. by apply IH.
Qed.

Lemma trimEnd_chars c s : c ∈ chars (trimEnd s) → c ∈ chars s.
Proof.
  induction s as [|a s IH]; cbn; [done|].
  destruct (trimEnd s) as [|d t].
  - destruct (is_ws a); cbn; [by intros ?%elem_of_nil|].
    intros [->|?%elem_of_nil]%elem_of_cons; [left|done].
  - cbn. intros [->|H]%elem_of_cons; [left|right]. by apply IH.
Qed.

Lemma trimEnd_idem s : trimEnd (trimEnd s) = trimEnd s.
Proof.
  induction s as [|a s IH]; [done|]. cbn [trimEnd].
  destruct (trimEnd s) as [|d t] eqn:E.
  - destruct (is_ws a) eqn:Ha; [done|]. cbn. by rewrite Ha.
  - change (trimEnd (String a (String d t)))
      with (match trimEnd (String d t) with
            | EmptyString =>
                if is_ws a then EmptyString else String a EmptyString
            | t' => String a t'
            end).
    by rewrite IH.
Qed.

Lemma trimEnd_head a s :
  is_ws a = false → ∃ t, trimEnd (String a s) = String a t.
Proof.
  intros Ha. cbn [trimEnd]. destruct (trimEnd s); rewrite ?Ha; eauto.
Qed.

Lemma trim_head s :
  trim s = EmptyString ∨ ∃ c t, trim s = String c t ∧ is_ws c = false.
Proof.
  unfold trim. induction s as [|a s IH]; [by left|]. cbn [trimStart].
  destruct (is_ws a) eqn:Ha; [done|]. right.
  destruct (trimEnd_head a s Ha) as (t & ->). eauto.
Qed.

Lemma trimStart_trim s : trimStart (trim s) = trim s.
Proof.
  destruct (trim_head s) as [->|(c & t & -> & Hc)]; [done|].
  cbn. by rewrite Hc.
Qed.

Lemma trim_idem s : trim (trim s) = trim s.
Proof.
  unfold trim at 1. rewrite trimStart_trim. unfold trim.
  apply trimEnd_idem.
Qed.

Lemma trimEnd_last s :
  trimEnd s = EmptyString
  ∨ ∃ c, last_char (trimEnd s) = Some c ∧ is_ws c = false.
Proof.
  induction s as [|a s IH]; [by left|]. cbn [trimEnd].
  destruct (trimEnd s) as [|d t] eqn:E.
  - destruct (is_ws a) eqn:Ha; [by left|]. right. by exists a.
  - right. destruct IH as [?|(c & Hc & Hws)]; [done|]. by exists c.
Qed.

Lemma readLines_elem raw l :
  l ∈ readLines raw → kept l ∧ ∃ p, l = trim p ∧ p ∈ split_lines raw.
Proof.
  unfold readLines. intros [Hk Hl]%list_elem_of_filter.
  apply list_elem_of_fmap in Hl as (p & -> & Hp). eauto.
Qed.

Lemma readLines_trimmed raw l : l ∈ readLines raw → trim l = l.
Proof. intros (_ & p & -> & _)%readLines_elem. apply trim_idem. Qed.

Lemma readLines_no_LF raw l : l ∈ readLines raw → LFc ∉ chars l.
Proof.
  intros (_ & p & -> & Hp)%readLines_elem Hin. unfold trim in Hin.
  apply trimEnd_chars, trimStart_chars in Hin.
  pose proof (split_lines_no_LF raw) as Hall.
  eapply Forall_forall in Hall; [|exact Hp]. done.
Qed.

Lemma readLines_last raw l :
  l ∈ readLines raw → ∃ c, last_char l = Some c ∧ is_ws c = false.
Proof.
  intros ([Hne _] & p & -> & _)%readLines_elem. unfold trim in *.
  by destruct (trimEnd_last (trimStart p)).
Qed.

Lemma readLines_first raw l :
  l ∈ readLines raw →
  ∃ c t, l = String c t ∧ is_ws c = false ∧ c ≠ Ascii.ascii_of_nat 35.
Proof.
  intros ([Hne Hhash] & p & -> & _)%readLines_elem.
  destruct (trim_head p) as [?|(c & t & Heq & Hc)]; [done|].
  exists c, t. split; [done|]. split; [done|]. intros ->.
  rewrite Heq in Hhash. cbn in Hhash. by destruct t.
Qed.

(** X1. Every line [readLines] returns is non-empty, begins with a
    character that is neither white space nor [#], ends with a character
    that is not white space, holds no line feed, and is its own trimmed
    form. *)
Theorem readLines_lines_are_clean (raw : string) :
  Forall (λ l, (∃ c t, l = String c t ∧ is_ws c = false
                       ∧ c ≠ Ascii.ascii_of_nat 35)
               ∧ (∃ c, last_char l = Some c ∧ is_ws c = false)
               ∧ (LFc ∉ chars l)
               ∧ trim l = l)
         (readLines raw).
Proof.
  apply Forall_forall. intros l Hl.
  split; [by eapply readLines_first|]. split; [by eapply readLines_last|].
  split; [by eapply readLines_no_LF|by eapply readLines_trimmed].
Qed.

(** ** Reading the lines back *)

Lemma append_nil t : EmptyString +:+ t = t.
Proof. reflexivity. Qed.

Lemma append_cons a s t : String a s +:+ t = String a (s +:+ t).
Proof. reflexivity. Qed.

Lemma split_lines_one l : LFc ∉ chars l → split_lines l = [l].
Proof.
  induction l as [|a l IH]; [done|]. intros Hl. rewrite split_lines_eq.
  cbn in Hl. apply not_elem_of_cons in Hl as [Ha Hl].
  rewrite decide_False by done. rewrite (IH Hl).
  destruct l as [|b l]; [done|].
  rewrite decide_False; [done|]. intros [_ ->].
  apply Hl. cbn. left.
Qed.

Lemma split_lines_line l rest :
  LFc ∉ chars l → last_char l ≠ Some CRc →
  split_lines (l +:+ String LFc rest) = l :: split_lines rest.
Proof.
  induction l as [|a l IH]; intros Hl Hcr.
  - rewrite append_nil, split_lines_eq. by rewrite decide_True.
  - cbn in Hl. apply not_elem_of_cons in Hl as [Ha Hl].
    rewrite append_cons, split_lines_eq.
    rewrite decide_False by done.
    destruct l as [|b l].
    + rewrite append_nil in *. rewrite decide_False.
      * by rewrite IH.
      * intros [-> _]. by apply Hcr.
    + rewrite IH; [|done|done]. rewrite append_cons.
      rewrite decide_False; [done|]. intros [_ ->]. apply Hl. cbn. left.
Qed.

Lemma split_lines_concat ls :
  ls ≠ [] →
  Forall (λ l, (LFc ∉ chars l) ∧ last_char l ≠ Some CRc) ls →
  split_lines (String.concat LF ls) = ls.
Proof.
  induction ls as [|l ls IH]; [done|]. intros _ Hall.
  apply Forall_cons in Hall as [[Hl Hcr] Hall].
  destruct ls as [|l' ls].
  - cbn. by apply split_lines_one.
  - change (String.concat LF (l :: l' :: ls))
      with (l +:+ String LFc (String.concat LF (l' :: ls))).
    rewrite split_lines_line by done. by rewrite IH.
Qed.

Lemma filter_trimmed ls :
  Forall (λ l, trim l = l ∧ kept l) ls → filter kept (trim <$> ls) = ls.
Proof.
  induction 1 as [|l ls [Htrim Hk] _ IH]; [done|].
  cbn [fmap list_fmap]. rewrite Htrim, filter_cons_True by done.
  by rewrite <- IH at 2.
Qed.

(** X2. [readLines] is idempotent on its output: the lines it returns,
    written one per line, are read back unchanged. *)
Theorem readLines_reads_back_its_lines (raw : string) :
  readLines (String.concat LF (readLines raw)) = readLines raw.
Proof.
  assert (Hback : ∀ ls, Forall (λ l, l ∈ readLines raw) ls →
                         readLines (String.concat LF ls) = ls);
    [|by apply Hback, Forall_forall].
  intros ls Hall.
  destruct (decide (ls = [])) as [->|Hne]; [reflexivity|].
  unfold readLines at 1. rewrite split_lines_concat; [|done|].
  - apply filter_trimmed. eapply Forall_impl; [exact Hall|]. cbn.
    intros l Hl. split; [by eapply readLines_trimmed|].
    by apply readLines_elem in Hl as [? _].
  - eapply Forall_impl; [exact Hall|]. cbn. intros l Hl.
    split; [by eapply readLines_no_LF|].
    destruct (readLines_last _ _ Hl) as (c & -> & Hc). by intros [= ->].
Qed.

End TextFacts.

Section UrlFacts.
Import Checker.

Variable URL : string → string → option string.

Lemma last_char_append_slash s : last_char (s +:+ "/") = Some SLc.
Proof.
  induction s as [|a s IH]; [reflexivity|].
  rewrite append_cons. cbn [last_char]. rewrite IH.
  by destruct s.
Qed.

Lemma strip_slashes_head s : startsWith_slash (strip_slashes s) = false.
Proof.
  induction s as [|c s IH]; [reflexivity|]. cbn [strip_slashes].
  destruct (decide (c = SLc)) as [->|Hc]; [done|].
  unfold startsWith_slash. cbn [String.prefix].
  destruct (Ascii.ascii_dec _ c) as [<-|]; [|done]. by destruct Hc.
Qed.

Lemma query_head s :
  String.prefix "?" s = true → startsWith_slash s = false.
Proof.
  destruct s as [|c s]; [done|]. unfold startsWith_slash.
  cbn [String.prefix].
  destruct (Ascii.ascii_dec _ c) as [<-|]; [|done]. intros _. reflexivity.
Qed.

(** X3. [buildUrl] of url-checker.js returns a trimmed absolute suffix
    as it is. Otherwise the base it hands to the URL parser ends with a
    slash and the reference does not start with one, so the reference is
    resolved under the base path; and when the parser throws, the result
    is the two joined without a further slash: the first branch of the
    fallback is never taken. *)
Theorem buildUrl_resolves_under_base (base suffix : string) :
  let sRaw := trim suffix in
  let s := if String.prefix "?" sRaw then sRaw else strip_slashes sRaw in
  let baseNorm := if endsWith_slash base then base else base +:+ "/" in
  endsWith_slash baseNorm = true
  ∧ startsWith_slash s = false
  ∧ buildUrl URL base suffix
    = if is_absolute sRaw then sRaw
      else default (baseNorm +:+ s) (URL s baseNorm).
Proof.
  intros sRaw s baseNorm.
  assert (Hb : endsWith_slash baseNorm = true).
  { subst baseNorm. destruct (endsWith_slash base) eqn:E; [done|].
    unfold endsWith_slash. by rewrite last_char_append_slash. }
  assert (Hs : startsWith_slash s = false).
  { subst s. destruct (String.prefix "?" sRaw) eqn:E.
    - by apply query_head.
    - apply strip_slashes_head. }
  split; [done|]. split; [done|].
  unfold buildUrl. fold sRaw. cbv zeta. fold s. fold baseNorm.
  destruct (is_absolute sRaw); [done|].
  destruct (URL s baseNorm); [done|]. by rewrite Hb.
Qed.

Lemma strip_slashes_id s :
  startsWith_slash s = false → strip_slashes s = s.
Proof.
  destruct s as [|c s]; [done|]. cbn [strip_slashes].
  destruct (decide (c = SLc)) as [->|]; [|done].
  unfold startsWith_slash. cbn [String.prefix].
  destruct (Ascii.ascii_dec _ _) as [_|Hne]; [by destruct s|].
  by destruct Hne.
Qed.

(** X25. On the lines that [readLines] returns, the two programs build
    the same URL whenever the base ends with a slash and the line does not
    start with one: url-checker.js normalizes nothing then, and the naive
    join of route-checker.js, which takes the untrimmed suffix, meets an
    already trimmed line. *)
Theorem checkers_build_the_same_url (raw base l : string) :
  l ∈ readLines raw →
  endsWith_slash base = true →
  startsWith_slash l = false →
  buildUrl URL base l = buildUrl_route URL base l.
Proof.
  intros Hl Hb Hs. apply readLines_trimmed in Hl.
  unfold buildUrl, buildUrl_route. rewrite Hl. cbv zeta.
  destruct (is_absolute l); [done|].
  rewrite (strip_slashes_id l Hs), Hb.
  destruct (String.prefix "?" l); destruct (URL l base); try done;
    by rewrite Hb.
Qed.

End UrlFacts.

Section ReasonFacts.
Import FetchPool.

Lemma append_not_empty a s t : String a s +:+ t ≠ "".
Proof. by rewrite append_cons. Qed.

(** X26. url-checker.js never records an empty failure detail: the
    detail is the timeout text, the message of the error, its string form,
    or at last "UNKNOWN". route-checker.js has no such last resort and
    records the empty text exactly for an error, other than the abort,
    whose name and message are both empty. *)
Theorem failure_detail_is_never_empty (timeoutMs : Z) (err : jsError) :
  reason UrlChecker timeoutMs err ≠ ""
  ∧ (reason RouteChecker timeoutMs err = ""
     ↔ err_name err = "" ∧ err_message err = "").
Proof.
  unfold reason, timeout_reason, str_or, String_of_error.
  destruct (decide (err_name err = "AbortError")) as [Ha|Ha].
  - split; [apply append_not_empty|].
    split; [by intros ?%append_not_empty|]. intros [Hn _].
    by rewrite Hn in Ha.
  - cbv zeta.
    destruct (decide (err_message err = "")) as [Hm|Hm];
      rewrite ?Hm; cbn.
    + destruct (decide (err_name err = "")); naive_solver.
    + rewrite decide_False by done. naive_solver.
Qed.

End ReasonFacts.

Section ArgsFacts.
Import FetchPool Checker.

Variable parseInt : string → option Z.

Local Abbreviation int_or := (int_or parseInt).
Local Abbreviation parse_flags := (parse_flags parseInt).
Local Abbreviation parse_route_flags := (parse_route_flags parseInt).
Local Abbreviation parseArgs := (parseArgs parseInt).
Local Abbreviation route_arguments := (route_arguments parseInt).

Lemma int_or_nonzero v d : d ≠ 0 → int_or v d ≠ 0.
Proof.
  unfold Checker.int_or. intros Hd.
  destruct (parseInt v) as [n|]; [|done]. by destruct (decide (n = 0)).
Qed.

Lemma parse_flags_cons x v rest a :
  parse_flags (x :: v :: rest) a
  = if decide (v = "") then parse_flags (v :: rest) a
    else if decide (x = "-c" ∨ x = "--concurrency") then
      parse_flags rest
        {| a_baseUrl := a_baseUrl a;
           a_concurrency := int_or v (a_concurrency a);
           a_timeoutMs := a_timeoutMs a; a_outFile := a_outFile a;
           a_port := a_port a |}
    else if decide (x = "-t" ∨ x = "--timeout") then
      parse_flags rest
        {| a_baseUrl := a_baseUrl a; a_concurrency := a_concurrency a;
           a_timeoutMs := int_or v (a_timeoutMs a);
           a_outFile := a_outFile a; a_port := a_port a |}
    else if decide (x = "--out") then
      parse_flags rest
        {| a_baseUrl := a_baseUrl a; a_concurrency := a_concurrency a;
           a_timeoutMs := a_timeoutMs a; a_outFile := v;
           a_port := a_port a |}
    else if decide (x = "--port") then
      parse_flags rest
        {| a_baseUrl := a_baseUrl a; a_concurrency := a_concurrency a;
           a_timeoutMs := a_timeoutMs a; a_outFile := a_outFile a;
           a_port := int_or v (a_port a) |}
    else parse_flags (v :: rest) a.
Proof. reflexivity. Qed.

Lemma parse_route_flags_cons x v rest a :
  parse_route_flags (x :: v :: rest) a
  = if decide (v = "") then parse_route_flags (v :: rest) a
    else if decide (x = "--concurrency") then
      parse_route_flags rest
        {| ra_baseUrl := ra_baseUrl a;
           ra_concurrency := int_or v (ra_concurrency a);
           ra_timeoutMs := ra_timeoutMs a |}
    else if decide (x = "--timeout") then
      parse_route_flags rest
        {| ra_baseUrl := ra_baseUrl a; ra_concurrency := ra_concurrency a;
           ra_timeoutMs := int_or v (ra_timeoutMs a) |}
    else parse_route_flags (v :: rest) a.
Proof. reflexivity. Qed.

(** What every assignment of the loop keeps, the loop keeps. *)
Lemma parse_flags_keeps (P : args → Prop) :
  (∀ a c, (c = a_concurrency a ∨ ∃ v, c = int_or v (a_concurrency a)) →
          ∀ t, (t = a_timeoutMs a ∨ ∃ v, t = int_or v (a_timeoutMs a)) →
          ∀ p, (p = a_port a ∨ ∃ v, p = int_or v (a_port a)) →
          ∀ o, P a →
          P {| a_baseUrl := a_baseUrl a; a_concurrency := c;
               a_timeoutMs := t; a_outFile := o; a_port := p |}) →
  ∀ argv a, P a → P (parse_flags argv a).
Proof.
  intros Hset argv.
  assert (H : ∀ n argv, (length argv ≤ n)%nat →
                        ∀ a, P a → P (parse_flags argv a));
    [|by apply (H (length argv))].
  clear argv. induction n as [|n IH]; intros argv Hn a Ha.
  - by destruct argv; [|cbn in Hn; lia].
  - destruct argv as [|x [|v rest]]; [done|done|].
    cbn [length] in Hn. rewrite parse_flags_cons.
    repeat case_decide;
      try (apply IH; [cbn [length]; lia|]); try done;
      apply Hset; eauto.
Qed.

Lemma parse_route_flags_keeps (P : route_args → Prop) :
  (∀ a c, (c = ra_concurrency a ∨ ∃ v, c = int_or v (ra_concurrency a)) →
          ∀ t, (t = ra_timeoutMs a ∨ ∃ v, t = int_or v (ra_timeoutMs a)) →
          P a →
          P {| ra_baseUrl := ra_baseUrl a; ra_concurrency := c;
               ra_timeoutMs := t |}) →
  ∀ argv a, P a → P (parse_route_flags argv a).
Proof.
  intros Hset argv.
  assert (H : ∀ n argv, (length argv ≤ n)%nat →
                        ∀ a, P a → P (parse_route_flags argv a));
    [|by apply (H (length argv))].
  clear argv. induction n as [|n IH]; intros argv Hn a Ha.
  - by destruct argv; [|cbn in Hn; lia].
  - destruct argv as [|x [|v rest]]; [done|done|].
    cbn [length] in Hn. rewrite parse_route_flags_cons.
    repeat case_decide;
      try (apply IH; [cbn [length]; lia|]); try done;
      apply Hset; eauto.
Qed.

Lemma parse_flags_nonzero argv a :
  a_concurrency a ≠ 0 ∧ a_timeoutMs a ≠ 0 ∧ a_port a ≠ 0 →
  a_concurrency (parse_flags argv a) ≠ 0
  ∧ a_timeoutMs (parse_flags argv a) ≠ 0
  ∧ a_port (parse_flags argv a) ≠ 0.
Proof.
  apply (parse_flags_keeps
           (λ a, a_concurrency a ≠ 0 ∧ a_timeoutMs a ≠ 0 ∧ a_port a ≠ 0)).
  intros a0 c [->|(v & ->)] t [->|(v' & ->)] p [->|(v'' & ->)] o (?&?&?);
    cbn; auto using int_or_nonzero.
Qed.

Lemma parse_route_flags_nonzero argv a :
  ra_concurrency a ≠ 0 ∧ ra_timeoutMs a ≠ 0 →
  ra_concurrency (parse_route_flags argv a) ≠ 0
  ∧ ra_timeoutMs (parse_route_flags argv a) ≠ 0.
Proof.
  apply (parse_route_flags_keeps
           (λ a, ra_concurrency a ≠ 0 ∧ ra_timeoutMs a ≠ 0)).
  intros a0 c [->|(v & ->)] t [->|(v' & ->)] (?&?);
    cbn; auto using int_or_nonzero.
Qed.

Lemma parseArgs_concurrency_nonzero argv :
  a_concurrency (parseArgs argv) ≠ 0.
Proof.
  unfold Checker.parseArgs.
  destruct argv as [|first rest]; [done|].
  destruct (String.prefix "--" first); by apply parse_flags_nonzero.
Qed.

(** X4. Whatever the command line, the concurrency, the timeout and the
    port that [parseArgs] returns are never 0, and neither are the
    concurrency and the timeout of route-checker.js: a value that parses
    to NaN or to 0 leaves the earlier value in place. route-checker.js
    stops with the usage text exactly when there is no argument. *)
Theorem parsed_numbers_are_never_zero (argv : list string) :
  (a_concurrency (parseArgs argv) ≠ 0
   ∧ a_timeoutMs (parseArgs argv) ≠ 0
   ∧ a_port (parseArgs argv) ≠ 0)
  ∧ match route_arguments argv with
    | Some a => ra_concurrency a ≠ 0 ∧ ra_timeoutMs a ≠ 0
    | None => argv = []
    end.
Proof.
  split.
  - unfold Checker.parseArgs.
    destruct argv as [|first rest]; [done|].
    destruct (String.prefix "--" first); by apply parse_flags_nonzero.
  - destruct argv as [|first rest]; [done|]. cbn.
    by apply parse_route_flags_nonzero.
Qed.

(** X5. The base URL is read from the first argument and from nowhere
    else. In url-checker.js it is the first argument unless that starts
    with two dashes, so a URL that follows a flag is ignored and a short
    flag in first place ([-c], [-t]) is taken as the base URL; no flag
    changes it. In route-checker.js it is always the first argument. *)
Theorem base_url_is_the_first_argument (argv : list string) :
  a_baseUrl (parseArgs argv)
  = match argv with
    | first :: _ =>
        if String.prefix "--" first then DEFAULT_BASE_URL else first
    | [] => DEFAULT_BASE_URL
    end
  ∧ ra_baseUrl <$> route_arguments argv = head argv.
Proof.
  split.
  - unfold Checker.parseArgs.
    destruct argv as [|first rest]; [done|].
    destruct (String.prefix "--" first).
    + by apply (parse_flags_keeps (λ a, a_baseUrl a = DEFAULT_BASE_URL)).
    + by apply (parse_flags_keeps (λ a, a_baseUrl a = first)).
  - destruct argv as [|first rest]; [done|]. cbn. f_equal.
    by apply (parse_route_flags_keeps (λ a, ra_baseUrl a = first)).
Qed.

Variable buildUrl : string → string → string.
Variable baseUrl : string.
Variable lines : list string.

Local Abbreviation start_workers := (start_workers buildUrl baseUrl lines).

(** X6. From the parsed concurrency the pool is either not built at
    all, because the value is negative and [Array(n)] throws, or it starts
    at least one worker and exactly min(concurrency, number of lines) of
    them: a negative [--concurrency] passes [parseArgs], 0 does not. *)
Theorem parsed_concurrency_starts_workers_or_throws (argv : list string) :
  lines ≠ [] →
  let c := a_concurrency (parseArgs argv) in
  match start_workers c with
  | None => c < 0
  | Some st =>
      0 < c
      ∧ (1 ≤ length (workers st))%nat
      ∧ Z.of_nat (length (workers st)) = Z.min c (Z.of_nat (length lines))
  end.
Proof.
  intros Hne c.
  assert (Hc : c ≠ 0) by apply parseArgs_concurrency_nonzero.
  assert (Hlen : (0 < length lines)%nat).
  { destruct lines; [done|cbn; lia]. }
  unfold FetchPool.start_workers.
  destruct (Z.ltb_spec (Z.min c (Z.of_nat (length lines))) 0) as [Hlt|Hge].
  - lia.
  - destruct (spawn_workers_inv buildUrl UrlChecker baseUrl lines
                (Z.to_nat (Z.min c (Z.of_nat (length lines)))))
      as (_ & Hw & _); [lia|].
    rewrite Hw. lia.
Qed.

End ArgsFacts.

(* ===================================================================== *)
(** * Properties of the results of a run                                  *)
(* ===================================================================== *)

Section ResultsFacts.
Import FetchPool Checker.
Local Open Scope nat_scope.

Variable buildUrl : string → string → string.
Variable v : variant.
Variable baseUrl : string.
Variable timeoutMs : Z.
Variable lines : list string.

Local Abbreviation claim := (claim buildUrl baseUrl lines).
Local Abbreviation resume := (resume buildUrl v baseUrl timeoutMs lines).
Local Abbreviation run := (run buildUrl v baseUrl timeoutMs lines).
Local Abbreviation spawn_worker := (spawn_worker buildUrl baseUrl lines).
Local Abbreviation start_workers := (start_workers buildUrl baseUrl lines).
Local Abbreviation well_formed := (well_formed buildUrl v baseUrl lines).
Local Abbreviation fetch_ok := (fetch_ok buildUrl baseUrl lines).
Local Abbreviation shaped := (shaped buildUrl v baseUrl lines).

Lemma make_result_well_formed i s o d :
  lines !! i = Some s →
  well_formed (make_result v timeoutMs i s (buildUrl baseUrl s) o d).
Proof.
  intros Hi. apply list_elem_of_lookup_2 in Hi.
  unfold Checker.well_formed, make_result.
  destruct o; destruct v; cbn; eauto 10.
Qed.

(** What a worker does when its fetch resolves, by program. *)
Lemma resume_fetch_result k o d st st' i sfx url :
  workers st !! k = Some (AwaitFetch i sfx url) →
  resume k (FetchResolved o d) st = Some st' →
  let res := make_result v timeoutMs i sfx url o d in
  (v = UrlChecker
   ∧ st' = set_pc k (AwaitAppend (file_line res)) (push_result res st))
  ∨ st' = claim k (push_result res st)
  ∨ st' = set_pc k AwaitWait (push_result res st).
Proof.
  intros Hk. unfold FetchPool.resume. rewrite Hk. cbv zeta.
  destruct v; [|destruct o]; intros [= <-]; auto.
Qed.

Lemma claim_shaped k st : shaped st → shaped (claim k st).
Proof.
  intros [Hr Hw]. unfold FetchPool.claim.
  destruct (lines !! idx st) as [s|] eqn:E; split; cbn [results workers];
    try done; by apply Forall_insert.
Qed.

Lemma set_pc_shaped k p st : fetch_ok p → shaped st → shaped (set_pc k p st).
Proof.
  intros Hp [Hr Hw]. split; cbn [set_pc results workers]; [done|].
  by apply Forall_insert.
Qed.

Lemma push_result_shaped r st :
  well_formed r → shaped st → shaped (push_result r st).
Proof.
  intros Hwf [Hr Hw]. split; cbn [push_result results workers]; [|done].
  apply Forall_app. split; [done|]. by apply Forall_singleton.
Qed.

Lemma resume_shaped k r st st' :
  shaped st → resume k r st = Some st' → shaped st'.
Proof.
  intros Hs Hst'.
  destruct (workers st !! k) as [[i sfx url|line| |]|] eqn:Hk;
    destruct r as [o d|ok|];
    try (unfold FetchPool.resume in Hst'; rewrite Hk in Hst'; discriminate).
  - assert (Hf : fetch_ok (AwaitFetch i sfx url)).
    { destruct Hs as [_ Hw]. eapply Forall_forall in Hw; [exact Hw|].
      by eapply list_elem_of_lookup_2. }
    destruct Hf as [Hi ->].
    pose proof (make_result_well_formed i sfx o d Hi) as Hwf.
    destruct (resume_fetch_result _ _ _ _ _ _ _ _ Hk Hst')
      as [[_ ->]|[->| ->]].
    + by apply set_pc_shaped, push_result_shaped.
    + by apply claim_shaped, push_result_shaped.
    + by apply set_pc_shaped, push_result_shaped.
  - unfold FetchPool.resume in Hst'. rewrite Hk in Hst'.
    injection Hst' as <-. apply set_pc_shaped; [done|].
    destruct ok; [|done]. by destruct Hs.
  - unfold FetchPool.resume in Hst'. rewrite Hk in Hst'.
    injection Hst' as <-. by apply claim_shaped.
Qed.

Lemma run_shaped sched : ∀ st st',
  shaped st → run sched st = Some st' → shaped st'.
Proof.
  induction sched as [|[k r] sched IH]; intros st st' Hs; cbn.
  - by intros [= <-].
  - destruct (resume k r st) as [st1|] eqn:Hst1; [|done]. cbn.
    apply IH. by eapply resume_shaped.
Qed.

Lemma spawn_workers_shaped n : shaped (Nat.iter n spawn_worker empty_pool).
Proof.
  induction n as [|n IH]; [by split; constructor|].
  rewrite Nat.iter_succ. unfold FetchPool.spawn_worker.
  apply claim_shaped. destruct IH as [Hr Hw].
  split; cbn [results workers]; [done|].
  apply Forall_app. split; [done|]. by apply Forall_singleton.
Qed.

Lemma start_workers_shaped c st :
  start_workers c = Some st → shaped st.
Proof.
  unfold FetchPool.start_workers. case_match; [done|].
  intros [= <-]. apply spawn_workers_shaped.
Qed.

(** X7. In every state of every run, each result object is for a line
    of try.txt and holds the URL built from that line; a numeric status
    comes with the tag of its class, a time and no detail; the status
    "ERROR" comes with a detail, and with the tag "ERROR" in url-checker.js
    and no tag in route-checker.js. *)
Theorem results_are_well_formed (concurrency : Z) sched st0 st :
  start_workers concurrency = Some st0 →
  run sched st0 = Some st →
  Forall well_formed (results st).
Proof.
  intros Hstart Hrun.
  by destruct (run_shaped sched st0 st (start_workers_shaped _ _ Hstart) Hrun).
Qed.

Lemma filter_length_iff {A} (P Q : A → Prop)
    `{!∀ x, Decision (P x)} `{!∀ x, Decision (Q x)} (l : list A) :
  Forall (λ x, P x ↔ Q x) l → length (filter P l) = length (filter Q l).
Proof.
  induction 1 as [|x l Hx _ IH]; [done|]. rewrite !filter_cons.
  destruct (decide (P x)), (decide (Q x)); cbn; tauto || lia.
Qed.

Lemma filter_length_disjoint {A} (P Q : A → Prop)
    `{!∀ x, Decision (P x)} `{!∀ x, Decision (Q x)} (l : list A) :
  Forall (λ x, ¬ (P x ∧ Q x)) l →
  length (filter P l) + length (filter Q l) ≤ length l.
Proof.
  induction 1 as [|x l Hx _ IH]; [done|]. rewrite !filter_cons.
  destruct (decide (P x)), (decide (Q x)); cbn; tauto || lia.
Qed.

Lemma well_formed_counts r :
  well_formed r →
  (counts_as_ok r = true ↔ r_tag r = Some "OK")
  ∧ (r_tag r = Some "REDIRECT" ↔ status_in 300 400 r = true)
  ∧ ¬ (counts_as_ok r = true ∧ r_tag r = Some "REDIRECT").
Proof.
  intros (_ & _ & Hst). unfold counts_as_ok, status_in.
  destruct (r_status r) as [|s].
  - destruct Hst as [_ ->]. destruct v; (split; [|split]); try done;
      try (split; congruence); by intros [? _].
  - destruct Hst as (-> & _ & _).
    destruct (classify_ranges s) as (Hok & Hre & _).
    rewrite !andb_true_iff, !Z.leb_le, !Z.ltb_lt.
    split; [|split].
    + rewrite <- Hok. split; congruence.
    + rewrite <- Hre. split; congruence.
    + intros [H1 [= H2]]. apply Hre in H2. lia.
Qed.

(** X8. In every state of every run the two counts of the final summary
    agree with the tags: "OK(2xx)" is the number of results tagged OK,
    "Redirects" is the number of results whose status is from 300 to 399,
    no result is counted twice, and a failed fetch is counted in
    neither. *)
Theorem summary_counts_agree_with_tags (concurrency : Z) sched st0 st :
  start_workers concurrency = Some st0 →
  run sched st0 = Some st →
  okCount (results st)
  = length (filter (λ r, r_tag r = Some "OK") (results st))
  ∧ redirectCount (results st)
    = length (filter (λ r, status_in 300 400 r = true) (results st))
  ∧ okCount (results st) + redirectCount (results st)
    + length (filter (λ r, r_status r = StatusERROR) (results st))
    ≤ length (results st).
Proof.
  intros Hstart Hrun.
  destruct (run_shaped sched st0 st (start_workers_shaped _ _ Hstart) Hrun)
    as [Hwf _].
  unfold okCount, redirectCount. split; [|split].
  - apply filter_length_iff. eapply Forall_impl; [exact Hwf|].
    intros r Hr. by apply well_formed_counts.
  - apply filter_length_iff. eapply Forall_impl; [exact Hwf|].
    intros r Hr. by apply well_formed_counts.
  - clear Hstart Hrun. induction Hwf as [|r rs Hr _ IH]; [done|].
    destruct (well_formed_counts r Hr) as (Hok & Hre & Hno).
    assert (Herr : r_status r = StatusERROR →
                   counts_as_ok r = false ∧ r_tag r ≠ Some "REDIRECT").
    { intros He. rewrite Hre. unfold counts_as_ok, status_in. by rewrite He. }
    rewrite !filter_cons.
    destruct (decide (counts_as_ok r = true)) as [H1|H1],
      (decide (r_tag r = Some "REDIRECT")) as [H2|H2],
      (decide (r_status r = StatusERROR)) as [H3|H3]; cbn [length];
      try lia; try tauto;
      destruct (Herr H3); congruence.
Qed.

End ResultsFacts.

Section FileFacts.
Import FetchPool Checker.
Local Open Scope nat_scope.

Variable buildUrl : string → string → string.
Variable baseUrl : string.
Variable timeoutMs : Z.
Variable lines : list string.

Local Abbreviation claim := (claim buildUrl baseUrl lines).
Local Abbreviation resume :=
  (resume buildUrl UrlChecker baseUrl timeoutMs lines).
Local Abbreviation run := (run buildUrl UrlChecker baseUrl timeoutMs lines).
Local Abbreviation spawn_worker := (spawn_worker buildUrl baseUrl lines).
Local Abbreviation start_workers := (start_workers buildUrl baseUrl lines).

Lemma pending_split (ws : list pc) k q :
  ws !! k = Some q →
  pending_lines ws ≡ₚ pending_lines [q] ++ pending_lines (delete k ws).
Proof.
  intros Hk. rewrite <- (take_drop_middle ws k q Hk) at 1.
  rewrite delete_take_drop. unfold pending_lines.
  rewrite !omap_app. change (q :: drop (S k) ws) with ([q] ++ drop (S k) ws).
  rewrite omap_app. by rewrite Permutation_app_swap_app.
Qed.

Lemma pending_insert (ws : list pc) k p :
  k < length ws →
  pending_lines (<[k:=p]> ws)
  ≡ₚ pending_lines [p] ++ pending_lines (delete k ws).
Proof.
  intros Hk. rewrite (pending_split (<[k:=p]> ws) k p).
  - by rewrite delete_insert_same.
  - by apply list_lookup_insert_eq.
Qed.

(** What is in the file, what is on its way there and what was lost
    make up the lines of the results. *)
Local Abbreviation accounted st lost :=
  (appended st ++ pending_lines (workers st) ++ lost
   ≡ₚ file_line <$> results st).

Lemma claim_accounted k q st lost :
  workers st !! k = Some q → pending_lines [q] = [] →
  accounted st lost → accounted (claim k st) lost.
Proof.
  intros Hk Hq Hacc.
  assert (Hlen : k < length (workers st)) by by eapply lookup_lt_Some.
  rewrite (pending_split _ _ _ Hk), Hq in Hacc.
  unfold FetchPool.claim.
  destruct (lines !! idx st); cbn [appended workers results];
    by rewrite pending_insert.
Qed.

Lemma resume_accounted k r st st' lost :
  accounted st lost → resume k r st = Some st' →
  ∃ lost', accounted st' lost'
           ∧ (r ≠ AppendResolved false → lost' = lost).
Proof.
  intros Hacc. unfold FetchPool.resume.
  destruct (workers st !! k) as [[i sfx url|line| |]|] eqn:Hk;
    destruct r as [o d|ok|]; try discriminate.
  - cbv zeta. intros [= <-]. exists lost. split; [|done].
    assert (Hlen : k < length (workers st)) by by eapply lookup_lt_Some.
    cbn [set_pc push_result appended workers results].
    rewrite pending_insert, fmap_app by done.
    rewrite (pending_split _ _ _ Hk) in Hacc.
    cbn [pending_lines omap list_omap app fmap list_fmap] in *.
    rewrite <- Hacc. unfold file_line.
    by rewrite <- Permutation_middle, <- Permutation_cons_append.
  - intros [= <-].
    assert (Hlen : k < length (workers st)) by by eapply lookup_lt_Some.
    rewrite (pending_split _ _ _ Hk) in Hacc.
    cbn [pending_lines omap list_omap app] in Hacc.
    destruct ok.
    + exists lost. split; [|done].
      cbn [set_pc append_line appended workers results].
      rewrite pending_insert by done. cbn [pending_lines omap list_omap app].
      rewrite <- Hacc. by rewrite <- app_assoc.
    + exists (line :: lost). split; [|done].
      cbn [set_pc appended workers results].
      rewrite pending_insert by done. cbn [pending_lines omap list_omap app].
      rewrite <- Hacc. by rewrite <- !Permutation_middle.
  - intros [= <-]. exists lost. split; [|done].
    by eapply claim_accounted.
Qed.

Lemma run_accounted sched : ∀ st st' lost,
  accounted st lost → run sched st = Some st' →
  ∃ lost', accounted st' lost' ∧ (appends_succeed sched → lost' = lost).
Proof.
  induction sched as [|[k r] sched IH]; intros st st' lost Hacc; cbn.
  - intros [= <-]. by exists lost.
  - destruct (resume k r st) as [st1|] eqn:Hst1; [|done]. cbn. intros Hrun.
    destruct (resume_accounted _ _ _ _ _ Hacc Hst1) as (lost1 & Hacc1 & H1).
    destruct (IH _ _ _ Hacc1 Hrun) as (lost2 & Hacc2 & H2).
    exists lost2. split; [done|].
    intros [Hr Hs]%Forall_cons. rewrite H2, H1; done.
Qed.

Lemma spawn_workers_accounted n :
  accounted (Nat.iter n spawn_worker empty_pool) [].
Proof.
  induction n as [|n IH]; [done|].
  rewrite Nat.iter_succ. unfold FetchPool.spawn_worker.
  set (st := Nat.iter n spawn_worker empty_pool) in *.
  eapply (claim_accounted _ Finished).
  - cbn [workers]. by rewrite lookup_app_r, Nat.sub_diag by lia.
  - done.
  - cbn [appended workers results]. unfold pending_lines in *.
    rewrite omap_app. cbn [omap list_omap]. by rewrite app_nil_r.
Qed.

Lemma all_finished_pending st :
  all_finished st → pending_lines (workers st) = [].
Proof.
  unfold all_finished. induction 1 as [|p ws -> _ IH]; [done|]. exact IH.
Qed.

(** X9. In url-checker.js, at every moment of every run, the lines
    appended to the results file are lines of distinct result objects:
    no line is written twice and none without its result. When no append
    fails and all workers have returned, the file holds exactly one line
    per result (in the order the appends completed). *)
Theorem results_file_holds_one_line_per_result
    (concurrency : Z) sched st0 st :
  start_workers concurrency = Some st0 →
  run sched st0 = Some st →
  appended st ⊆+ file_line <$> results st
  ∧ (appends_succeed sched → all_finished st →
     appended st ≡ₚ file_line <$> results st).
Proof.
  intros Hstart Hrun.
  assert (Hacc0 : accounted st0 []).
  { unfold FetchPool.start_workers in Hstart. case_match; [done|].
    injection Hstart as <-. apply spawn_workers_accounted. }
  destruct (run_accounted sched _ _ _ Hacc0 Hrun) as (lost & Hacc & Hlost).
  split.
  - rewrite <- Hacc. apply submseteq_inserts_r. done.
  - intros Hok Hfin. rewrite (Hlost Hok) in Hacc.
    by rewrite (all_finished_pending _ Hfin), !app_nil_r in Hacc.
Qed.

End FileFacts.

(* ===================================================================== *)
(** * Properties of whole runs of the worker program                      *)
(* ===================================================================== *)

Section OutcomeFacts.
Import Pipeline Outcome.
Local Open Scope nat_scope.

Variable P : platform.
Variable wd : workerData.

Local Abbreviation quiet := (quiet wd).
Local Abbreviation Quiet := (Quiet wd).
Local Abbreviation saved := (saved wd).
Local Abbreviation stored_meta := (stored_meta P wd).
Local Abbreviation reported_meta := (reported_meta P wd).
Local Abbreviation pipeline := (pipeline P wd).
Local Abbreviation run_worker := (run_worker P wd).
Local Abbreviation writable := (writable P).
Local Abbreviation anywhere := (λ _ : gmap string string, True).

Lemma triple_weaken {A} (Pre Pre' : gmap string string → Prop) (m : W A)
    (Post Post' : gmap string string → list effect → jsError + A → Prop) :
  triple Pre m Post →
  (∀ fs, Pre' fs → Pre fs) →
  (∀ fs t r, Post fs t r → Post' fs t r) →
  triple Pre' m Post'.
Proof.
  intros Hm Hpre Hpost s Hs.
  destruct (Hm s (Hpre _ Hs)) as (t & ? & ?). eauto.
Qed.

Lemma triple_bind {A B} Pre (m : W A) (f : A → W B) Mid Post :
  triple Pre m Mid →
  (∀ fs t e, Mid fs t (inl e) → Post fs t (inl e)) →
  (∀ x t1, triple (λ fs, Mid fs t1 (inr x)) (f x)
                  (λ fs t2 r, Post fs (t1 ++ t2) r)) →
  triple Pre (m ≫= f) Post.
Proof.
  intros Hm He Hf s Hs. unfold mbind, W_bind.
  destruct (Hm s Hs) as (t1 & Ht1 & Hmid).
  destruct (m s) as [s1 [e|x]]; cbn [fst snd] in *.
  - exists t1. split; [done|]. by apply He.
  - destruct (Hf x t1 s1 Hmid) as (t2 & Ht2 & Hpost).
    exists (t1 ++ t2). by rewrite Ht2, Ht1, app_assoc.
Qed.

Lemma triple_try_catch {A} Pre (m : W A) (h : jsError → W A) Mid Post :
  triple Pre m Mid →
  (∀ fs t x, Mid fs t (inr x) → Post fs t (inr x)) →
  (∀ e t1, triple (λ fs, Mid fs t1 (inl e)) (h e)
                  (λ fs t2 r, Post fs (t1 ++ t2) r)) →
  triple Pre (try_catch m h) Post.
Proof.
  intros Hm Hx Hh s Hs. unfold try_catch.
  destruct (Hm s Hs) as (t1 & Ht1 & Hmid).
  destruct (m s) as [s1 [e|x]]; cbn [fst snd] in *.
  - destruct (Hh e t1 s1 Hmid) as (t2 & Ht2 & Hpost).
    exists (t1 ++ t2). by rewrite Ht2, Ht1, app_assoc.
  - exists t1. split; [done|]. by apply Hx.
Qed.

Lemma triple_ret {A} (Pre : gmap string string → Prop) (x : A) :
  triple Pre (mret x) (λ fs t r, Pre fs ∧ t = [] ∧ r = inr x).
Proof. intros s Hs. exists []. by rewrite app_nil_r. Qed.

Lemma triple_post (Pre : gmap string string → Prop) msg :
  triple Pre (post msg) (λ fs t r, Pre fs ∧ t = [Post msg] ∧ r = inr ()).
Proof. intros s Hs. by exists [Post msg]. Qed.

Lemma triple_spawn (Pre : gmap string string → Prop) cmd args T :
  triple Pre (spawnCmd P cmd args T)
    (λ fs t r, ∃ fs0, Pre fs0 ∧ fs = (exec P cmd args T fs0).1
       ∧ t = [Spawn cmd args T]
       ∧ r = match (exec P cmd args T fs0).2 with
             | Some e => inl e
             | None => inr ()
             end).
Proof.
  intros s Hs. exists [Spawn cmd args T]. unfold spawnCmd.
  destruct (exec P cmd args T (files s)) as [fs1 r1] eqn:E.
  cbn [fst snd files trace]. split; [done|]. exists (files s).
  by rewrite E.
Qed.

Lemma triple_mkdir (Pre : gmap string string → Prop) p :
  triple Pre (mkdir P p)
    (λ fs t r, Pre fs ∧ t = [Mkdir p]
       ∧ r = match mkdir_error P p with
             | Some e => inl e
             | None => inr ()
             end).
Proof. intros s Hs. by exists [Mkdir p]. Qed.

Lemma triple_write (Pre : gmap string string → Prop) p c :
  triple Pre (writeFile P p c)
    (λ fs t r, ∃ fs0, Pre fs0
       ∧ match write_error P p with
         | Some e => fs = fs0 ∧ t = [WriteFailed p] ∧ r = inl e
         | None => fs = <[p := c]> fs0 ∧ t = [WriteFile p c] ∧ r = inr ()
         end).
Proof.
  intros s Hs. unfold writeFile.
  destruct (write_error P p) as [e|] eqn:E; cbn [fst snd files trace].
  - exists [WriteFailed p]. split; [done|]. by exists (files s).
  - exists [WriteFile p c]. split; [done|]. by exists (files s).
Qed.

Lemma triple_read (Pre : gmap string string → Prop) p :
  triple Pre (readFile p)
    (λ fs t r, Pre fs ∧ t = []
       ∧ match fs !! p with
         | Some c => r = inr c
         | None => ∃ e, r = inl e
         end).
Proof.
  intros s Hs. exists []. rewrite app_nil_r. unfold readFile.
  destruct (files s !! p) as [c|] eqn:E; cbn [fst snd];
    rewrite ?E; eauto.
Qed.

Lemma triple_access (Pre : gmap string string → Prop) p :
  triple Pre (access p)
    (λ fs t r, Pre fs ∧ t = []
       ∧ r = inr (bool_decide (is_Some (fs !! p)))).
Proof. intros s Hs. exists []. by rewrite app_nil_r. Qed.

Lemma written_app t1 t2 : written (t1 ++ t2) = written t1 ++ written t2.
Proof. apply omap_app. Qed.

Lemma commands_app t1 t2 : commands (t1 ++ t2) = commands t1 ++ commands t2.
Proof. apply omap_app. Qed.

Lemma messages_app t1 t2 : messages (t1 ++ t2) = messages t1 ++ messages t2.
Proof. apply omap_app. Qed.

(** ** The stages that cannot fail *)

(** A discovery stage: the log line, the command, and a second log line
    if the command failed. Its result is always a success. *)
Lemma triple_discovery Pre txt cmd args T (h : jsError → string) :
  triple Pre
    (post (Log txt);; try_catch (spawnCmd P cmd args T)
                                 (λ err, post (Log (h err))))
    (λ fs t r, ∃ fs0, Pre fs0 ∧ fs = (exec P cmd args T fs0).1
       ∧ r = inr () ∧ commands t = [cmd] ∧ written t = []).
Proof.
  intros s Hs. unfold post, emit, try_catch, spawnCmd, mbind, W_bind.
  cbn [files trace fst snd].
  destruct (exec P cmd args T (files s)) as [fs1 [e|]] eqn:E;
    cbn [files trace fst snd]; rewrite <- ?app_assoc;
    (eexists; split; [reflexivity|]); exists (files s); by rewrite E.
Qed.

Lemma triple_subfinder Pre :
  triple Pre (task_subfinder P wd)
    (λ fs t r, ∃ fs0, Pre fs0
       ∧ fs = (exec P "subfinder"
                 ["-d"; hostname wd; "-silent"; "-o"; subfinderOut wd]
                 (2 * 60 * 1000)%Z fs0).1
       ∧ r = inr () ∧ commands t = ["subfinder"] ∧ written t = []).
Proof. apply triple_discovery. Qed.

Lemma triple_amass Pre :
  triple Pre (task_amass P wd)
    (λ fs t r, ∃ fs0, Pre fs0
       ∧ fs = (exec P "amass"
                 ["enum"; "-passive"; "-d"; hostname wd; "-o"; amassOut wd]
                 (3 * 60 * 1000)%Z fs0).1
       ∧ r = inr () ∧ commands t = ["amass"] ∧ written t = []).
Proof. apply triple_discovery. Qed.

(** The parse stage never fails; it returns the records of httpx.jsonl,
    or none when the file cannot be read. *)
Lemma triple_parse Pre :
  triple Pre (task_parse P wd)
    (λ fs t r, Pre fs ∧ commands t = [] ∧ written t = []
       ∧ r = inr (match fs !! httpxOut wd with
                  | Some raw => parse_lines P raw
                  | None => []
                  end)).
Proof.
  intros s Hs. unfold task_parse, post, emit, try_catch, readFile, mbind,
    W_bind, mret, W_ret. cbn [files trace fst snd].
  destruct (files s !! httpxOut wd) as [raw|] eqn:E;
    cbn [files trace fst snd]; (eexists; split; [reflexivity|]);
    by rewrite ?E.
Qed.

(** ** The merge stage *)

Lemma triple_merge Pre :
  triple Pre (task_merge P wd)
    (λ fs t r, ∃ fs0, Pre fs0
       ∧ match present_parts wd fs0 with
         | [] =>
             commands t = []
             ∧ match write_error P (allList wd) with
               | Some e => fs = fs0 ∧ written t = [] ∧ r = inl e
               | None => fs = <[allList wd := ""]> fs0
                         ∧ written t = [allList wd] ∧ r = inr ()
               end
         | parts =>
             let out := exec P "bash" ["-lc"; merge_script wd parts]
                          (30 * 1000)%Z fs0 in
             fs = out.1 ∧ commands t = ["bash"] ∧ written t = []
             ∧ r = match out.2 with Some e => inl e | None => inr () end
         end).
Proof.
  intros s Hs. rewrite task_merge_unfold. unfold merge_log. cbv zeta.
  destruct (present_parts wd (files s)) as [|p ps] eqn:Hp.
  - unfold writeFile. cbn [files trace].
    destruct (write_error P (allList wd)) as [e|] eqn:E;
      cbn [files trace fst snd]; rewrite <- ?app_assoc;
      (eexists; split; [reflexivity|]); exists (files s);
      rewrite Hp, ?E; done.
  - unfold spawnCmd. cbn [files trace].
    destruct (exec P "bash" _ _ (files s)) as [fs1 r1] eqn:E.
    cbn [files trace fst snd]. rewrite <- ?app_assoc.
    eexists; split; [reflexivity|]. exists (files s).
    rewrite Hp. cbv zeta. by rewrite E.
Qed.

(** ** The probe stage *)

Lemma triple_httpx Pre :
  triple Pre (task_httpx P wd)
    (λ fs t r, ∃ fs0, Pre fs0 ∧ commands t = ["httpx"]
       ∧ let out := exec P "httpx"
                      ["-l"; allList wd; "-silent"; "-status-code"; "-title";
                       "-cl"; "-json"; "-o"; httpxOut wd]
                      (3 * 60 * 1000)%Z fs0 in
         match out.2 with
         | None => fs = out.1 ∧ written t = [] ∧ r = inr ()
         | Some _ =>
             match write_error P (httpxOut wd) with
             | Some e => fs = out.1 ∧ written t = [] ∧ r = inl e
             | None => fs = <[httpxOut wd := ""]> out.1
                       ∧ written t = [httpxOut wd] ∧ r = inr ()
             end
         end).
Proof.
  intros s Hs. unfold task_httpx, post, emit, try_catch, spawnCmd, writeFile,
    mbind, W_bind. cbn [files trace fst snd].
  destruct (exec P "httpx" _ _ (files s)) as [fs1 [e|]] eqn:E;
    cbn [files trace fst snd].
  - destruct (write_error P (httpxOut wd)) as [e'|] eqn:Ew;
      cbn [files trace fst snd]; rewrite <- ?app_assoc;
      (eexists; split; [reflexivity|]); exists (files s);
      cbv zeta; rewrite E; cbn [fst snd]; rewrite ?Ew; done.
  - rewrite <- ?app_assoc. eexists; split; [reflexivity|].
    exists (files s). cbv zeta. by rewrite E.
Qed.

(** ** The save stage *)

(** The entries stop at the first record that cannot be written; a
    [null] there gives the TypeError of reading a property of [null]. *)
Lemma txt_entries_null pre post :
  Forall writable pre →
  txt_entries P (pre ++ JNull :: post) = inl null_read.
Proof.
  induction 1 as [|it pre [l Hl] _ IH]; [done|].
  cbn [app txt_entries]. by rewrite Hl, IH.
Qed.

Lemma txt_entries_some its :
  Forall writable its →
  ∃ ls, txt_entries P its = inr ls ∧ length ls = length its.
Proof.
  induction 1 as [|it its [l Hl] _ (ls & Hls & Hlen)]; [by exists []|].
  cbn [txt_entries]. rewrite Hl, Hls. exists (l :: ls).
  split; [done|]. cbn. by rewrite Hlen.
Qed.

Lemma triple_save Pre meta its :
  triple Pre (task_save P wd meta its)
    (λ fs t r, commands t = []
       ∧ match write_error P (resultsJson wd) with
         | Some e => written t = [] ∧ r = inl e
         | None =>
             match txt_entries P its with
             | inl e => written t = [resultsJson wd] ∧ r = inl e
             | inr ls =>
                 match write_error P (resultsTxt wd) with
                 | Some e => written t = [resultsJson wd] ∧ r = inl e
                 | None =>
                     match write_error P (metaJson wd) with
                     | Some e =>
                         written t = [resultsJson wd; resultsTxt wd]
                         ∧ r = inl e
                     | None =>
                         r = inr ()
                         ∧ ∃ txt,
                             t = [Post (Log txt);
                                  WriteFile (resultsJson wd)
                                    (stringify_records P its);
                                  WriteFile (resultsTxt wd)
                                    (String.concat LF ls);
                                  WriteFile (metaJson wd)
                                    (stringify_meta P meta)]
                     end
                 end
             end
         end).
Proof.
  intros s Hs.
  unfold task_save, post, emit, writeFile, txtLines, throw, mbind, W_bind,
    mret, W_ret. cbn [files trace].
  destruct (write_error P (resultsJson wd)) as [e|]; cbn [files trace fst snd].
  { rewrite <- ?app_assoc. by eexists. }
  destruct (txt_entries P its) as [e|ls]; cbn [files trace fst snd].
  { rewrite <- ?app_assoc. by eexists. }
  destruct (write_error P (resultsTxt wd)) as [e|]; cbn [files trace fst snd].
  { rewrite <- ?app_assoc. by eexists. }
  destruct (write_error P (metaJson wd)) as [e|]; cbn [files trace fst snd].
  { rewrite <- ?app_assoc. by eexists. }
  rewrite <- ?app_assoc. eexists. split; [reflexivity|].
  split; [done|]. split; [done|]. by eexists.
Qed.

(** ** From the pipeline to the worker's last message *)

(** One stage that succeeds, then the rest. *)
Lemma triple_step {A B} Pre (m : W A) (f : A → W B)
    (Mid : gmap string string → Prop) (T : list effect → A → Prop) Post :
  triple Pre m (λ fs t r, ∃ x, r = inr x ∧ T t x ∧ Mid fs) →
  (∀ x t1, T t1 x →
           triple Mid (f x) (λ fs t2 r, Post fs (t1 ++ t2) r)) →
  triple Pre (m ≫= f) Post.
Proof.
  intros Hm Hf s Hs. unfold mbind, W_bind.
  destruct (Hm s Hs) as (t1 & Ht1 & x & Hr & HT & Hmid).
  destruct (m s) as [s1 r]; cbn [fst snd] in *. subst r.
  destruct (Hf x t1 HT s1 Hmid) as (t2 & Ht2 & Hpost).
  exists (t1 ++ t2). by rewrite Ht2, Ht1, app_assoc.
Qed.

(** The worker's trace is the pipeline's and one last message. *)
Lemma worker_of_pipeline fs
    (Post : gmap string string → list effect → jsError + Meta → Prop) :
  triple (λ fs0, fs0 = fs) pipeline Post →
  ∃ fs' t r,
    Post fs' t r
    ∧ trace (run_worker fs)
      = t ++ [Pipeline.Post match r with
                            | inr meta => Done meta
                            | inl e => Error (error_text e)
                            end].
Proof.
  intros Hp. unfold Pipeline.run_worker, worker_main, try_catch, mbind,
    W_bind, post, emit.
  destruct (Hp {| files := fs; trace := [] |} eq_refl) as (t & Ht & Hpost).
  destruct (Pipeline.pipeline P wd _) as [s1 [e|meta]];
    cbn [fst snd files trace] in *; rewrite Ht; eauto.
Qed.

(** The messages before the last one are log messages. *)
Lemma worker_messages fs t final :
  trace (run_worker fs) = t ++ [Pipeline.Post final] →
  ∃ logs, posted (run_worker fs) = (Log <$> logs) ++ [final].
Proof.
  intros Ht.
  destruct (worker_posts_one_final P wd fs) as (logs & final' & Hposted & _).
  exists logs. rewrite Hposted. f_equal.
  unfold posted in Hposted. rewrite Ht, omap_app in Hposted.
  cbn [omap list_omap] in Hposted.
  apply app_inj_tail in Hposted as [_ ->]. done.
Qed.

Lemma emits_of_triple {A} (m : W A) Φ :
  triple anywhere m (λ _ t r, Φ t r) → emits m Φ.
Proof. intros Hm s. by apply Hm. Qed.

Lemma triple_false {A} (Pre : gmap string string → Prop) (m : W A) Post :
  (∀ fs, ¬ Pre fs) → triple Pre m Post.
Proof. intros Hno s Hs. by destruct (Hno _ Hs). Qed.

(** ** A run in which the tools fail *)

Local Abbreviation yields m Φ :=
  (triple anywhere m (λ _ _ r, ∃ x, r = inr x ∧ Φ x)).

Lemma yields_bind {A B} (m : W A) (f : A → W B) (Φ : A → Prop)
    (Ψ : B → Prop) :
  yields m Φ → (∀ x, Φ x → yields (f x) Ψ) → yields (m ≫= f) Ψ.
Proof.
  intros Hm Hf.
  eapply (triple_step _ _ _ anywhere (λ _ x, Φ x)).
  - eapply triple_weaken; [exact Hm|done|]. cbn.
    intros _ _ r (x & -> & Hx). eauto.
  - intros x t1 Hx. eapply triple_weaken; [by apply Hf|done|done].
Qed.

Lemma yields_discovery txt cmd args T (h : jsError → string) :
  yields (post (Log txt);; try_catch (spawnCmd P cmd args T)
                                      (λ err, post (Log (h err))))
         (λ _, True).
Proof.
  eapply triple_weaken; [apply (triple_discovery anywhere)|done|].
  cbn. intros _ _ r (_ & _ & _ & -> & _). by exists ().
Qed.

(** X10. A failing or missing discovery or probe tool does not fail the
    job. When the work directory can be made, files can be written, the
    shell of the merge stage works, and every record of an output that a
    successful httpx leaves can be written to results.txt (none is [null],
    none has a field without a text form), then whether subfinder, amass
    and httpx succeed or fail, the worker ends with the [done] message,
    after log messages only, with all six tasks in its metadata and the
    three result files written. *)
Theorem tool_failures_do_not_fail_the_job (fs : gmap string string) :
  mkdir_error P (workdir wd) = None →
  (∀ p, write_error P p = None) →
  (∀ args T fs', (exec P "bash" args T fs').2 = None) →
  (∀ args T fs' raw,
     (exec P "httpx" args T fs').2 = None →
     (exec P "httpx" args T fs').1 !! httpxOut wd = Some raw →
     Forall writable (parse_lines P raw)) →
  (∃ logs, posted (run_worker fs) = (Log <$> logs) ++ [Done reported_meta])
  ∧ name <$> m_tasks reported_meta
    = ["subfinder"; "amass"; "merge"; "httpx"; "parse_httpx"; "save_results"]
  ∧ ∃ ws, written (trace (run_worker fs))
          = ws ++ [resultsJson wd; resultsTxt wd; metaJson wd].
Proof.
  intros Hmk Hwr Hbash Hrecords.
  assert (Hy : yields pipeline (λ meta, meta = reported_meta)).
  { unfold Pipeline.pipeline.
    eapply (yields_bind _ _ (λ _, True)).
    { eapply triple_weaken; [apply (triple_mkdir anywhere)|done|]. cbn.
      intros _ _ r (_ & _ & ->). rewrite Hmk. by exists (). }
    intros _ _. eapply (yields_bind _ _ (λ _, True)).
    { eapply triple_weaken; [apply (triple_post anywhere)|done|]. cbn.
      intros _ _ r (_ & _ & ->). by exists (). }
    intros _ _. eapply (yields_bind _ _ (λ _, True));
      [apply yields_discovery|].
    intros _ _. eapply (yields_bind _ _ (λ _, True));
      [apply yields_discovery|].
    intros _ _. eapply (yields_bind _ _ (λ _, True)).
    { eapply triple_weaken; [apply (triple_merge anywhere)|done|]. cbn.
      intros fs' t r (fs0 & _ & H).
      destruct (present_parts wd fs0).
      - rewrite Hwr in H. destruct H as (? & ? & ? & ->). by exists ().
      - destruct H as (? & ? & ? & ->). rewrite Hbash. by exists (). }
    intros _ _.
    eapply (triple_step _ _ _
              (λ f, ∀ raw, f !! httpxOut wd = Some raw →
                           Forall writable (parse_lines P raw))
              (λ _ _, True)).
    { eapply triple_weaken; [apply (triple_httpx anywhere)|done|]. cbn.
      intros fs' t r (fs0 & _ & _ & H).
      destruct (exec P "httpx" _ _ fs0).2 eqn:Eh.
      - rewrite Hwr in H. destruct H as (-> & ? & ->). exists ().
        split; [done|]. split; [done|]. intros raw.
        rewrite lookup_insert_eq. by intros [= <-].
      - destruct H as (-> & ? & ->). exists ().
        split; [done|]. split; [done|]. intros raw. by apply Hrecords. }
    intros _ t1 _.
    eapply (triple_step _ _ _ anywhere (λ _ its, Forall writable its)).
    { eapply triple_weaken;
        [apply (triple_parse
                  (λ f, ∀ raw, f !! httpxOut wd = Some raw →
                               Forall writable (parse_lines P raw)))
        |done|].
      cbn. intros fs' t r (Hfs' & _ & _ & ->). eexists. split; [done|].
      split; [|done].
      destruct (fs' !! httpxOut wd) as [raw|] eqn:Er; [by apply Hfs'|done]. }
    intros its t2 Hits. eapply (yields_bind _ _ (λ _, True)).
    { eapply triple_weaken; [apply (triple_save anywhere)|done|]. cbn.
      intros _ t r (_ & H). rewrite !Hwr in H.
      destruct (txt_entries_some its Hits) as (ls & Hls & _).
      rewrite Hls in H. destruct H as (-> & ?). by exists (). }
    intros _ _. eapply triple_weaken; [apply (triple_ret anywhere)|done|].
    cbn. intros _ _ r (_ & _ & ->). by eexists. }
  destruct (worker_main_shape P wd {| files := fs; trace := [] |})
    as (_ & pre & Hq & Hshape).
  destruct (Hy {| files := fs; trace := [] |} I) as (t & Ht & x & Hr & ->).
  assert (Hlast : ∃ t', trace (run_worker fs)
                        = t' ++ [Pipeline.Post (Done reported_meta)]).
  { unfold Pipeline.run_worker, worker_main, try_catch, mbind, W_bind, post,
      emit. destruct (Pipeline.pipeline P wd _) as [s1 r].
    cbn [fst snd] in Hr. subst r. cbn [fst snd files trace]. eauto. }
  destruct Hlast as (t' & Hlast).
  split; [by eapply worker_messages|]. split; [reflexivity|].
  fold (run_worker fs) in Hshape. rewrite Hlast in Hshape. cbn [trace app] in Hshape.
  destruct Hshape as [(e & He)|(rj & rt & c & meta & He)].
  - by apply app_inj_tail in He as [_ ?].
  - exists (written pre). rewrite Hlast.
    change [WriteFile (resultsJson wd) rj; WriteFile (resultsTxt wd) rt;
            WriteFile (metaJson wd) c; Pipeline.Post (Done meta)]
      with ([WriteFile (resultsJson wd) rj; WriteFile (resultsTxt wd) rt;
             WriteFile (metaJson wd) c] ++ [Pipeline.Post (Done meta)]) in He.
    rewrite app_assoc in He. apply app_inj_tail in He as [-> _].
    rewrite !written_app. cbn. by rewrite app_nil_r.
Qed.

(** ** A run in which the merge fails *)

Lemma cmd_step {A B} Pre (m : W A) (f : A → W B)
    (Mid : gmap string string → Prop) c1 cs (R : jsError + B → Prop) :
  triple Pre m (λ fs t r, ∃ x, r = inr x ∧ commands t = c1
                              ∧ written t = [] ∧ Mid fs) →
  (∀ x, triple Mid (f x)
          (λ _ t r, R r ∧ commands t = cs ∧ written t = [])) →
  triple Pre (m ≫= f)
    (λ _ t r, R r ∧ commands t = c1 ++ cs ∧ written t = []).
Proof.
  intros Hm Hf.
  eapply (triple_step _ _ _ Mid (λ t _, commands t = c1 ∧ written t = [])).
  - eapply triple_weaken; [exact Hm|done|]. cbn.
    intros fs t r (x & -> & ? & ? & ?). eauto.
  - intros x t1 [Hc Hw]. eapply triple_weaken; [apply Hf|done|]. cbn.
    intros _ t2 r (? & Hc2 & Hw2).
    by rewrite commands_app, written_app, Hc, Hw, Hc2, Hw2.
Qed.

(** X11. A failing merge fails the job: unlike the discovery and probe
    tools, the shell of the merge stage is not guarded. When at least one
    discovery output exists after the two discovery stages and the [bash]
    command then fails, the worker ends with the [error] message carrying
    that failure, after log messages only; it has run subfinder, amass and
    bash and nothing else, and it has written no file. *)
Theorem failed_merge_fails_the_job (fs : gmap string string) (e : jsError) :
  mkdir_error P (workdir wd) = None →
  let fs1 := (exec P "subfinder"
                ["-d"; hostname wd; "-silent"; "-o"; subfinderOut wd]
                (2 * 60 * 1000)%Z fs).1 in
  let fs2 := (exec P "amass"
                ["enum"; "-passive"; "-d"; hostname wd; "-o"; amassOut wd]
                (3 * 60 * 1000)%Z fs1).1 in
  present_parts wd fs2 ≠ [] →
  (exec P "bash" ["-lc"; merge_script wd (present_parts wd fs2)]
     (30 * 1000)%Z fs2).2 = Some e →
  (∃ logs, posted (run_worker fs)
           = (Log <$> logs) ++ [Error (error_text e)])
  ∧ commands (trace (run_worker fs)) = ["subfinder"; "amass"; "bash"]
  ∧ written (trace (run_worker fs)) = [].
Proof.
  intros Hmk fs1 fs2 Hparts Hbash.
  assert (Hp : triple (λ f, f = fs) pipeline
                 (λ _ t r, r = inl e
                    ∧ commands t
                      = [] ++ [] ++ ["subfinder"] ++ ["amass"] ++ ["bash"]
                    ∧ written t = [])).
  { unfold Pipeline.pipeline.
    eapply (cmd_step _ _ _ (λ f, f = fs)).
    { eapply triple_weaken; [apply (triple_mkdir (λ f, f = fs))|done|]. cbn.
      intros f t r (-> & -> & ->). rewrite Hmk. by exists (). }
    intros _. eapply (cmd_step _ _ _ (λ f, f = fs)).
    { eapply triple_weaken; [apply (triple_post (λ f, f = fs))|done|]. cbn.
      intros f t r (-> & -> & ->). by exists (). }
    intros _. eapply (cmd_step _ _ _ (λ f, f = fs1)).
    { eapply triple_weaken; [apply (triple_subfinder (λ f, f = fs))|done|]. cbn.
      intros f t r (f0 & -> & -> & -> & ? & ?). by exists (). }
    intros _. eapply (cmd_step _ _ _ (λ f, f = fs2)).
    { eapply triple_weaken; [apply (triple_amass (λ f, f = fs1))|done|]. cbn.
      intros f t r (f0 & -> & -> & -> & ? & ?). by exists (). }
    intros _. eapply triple_bind; [apply (triple_merge (λ f, f = fs2))| |].
    - cbn. intros f t e0 (f0 & -> & H).
      destruct (present_parts wd fs2) as [|p ps] eqn:Hpp; [done|].
      cbv zeta in H. rewrite Hbash in H.
      by destruct H as (? & ? & ? & [= ->]).
    - intros x t1. apply triple_false. intros f (f0 & -> & H).
      destruct (present_parts wd fs2) as [|p ps] eqn:Hpp; [done|].
      cbv zeta in H. rewrite Hbash in H. by destruct H as (? & ? & ? & ?). }
  destruct (worker_of_pipeline fs _ Hp)
    as (fs' & t & r & (-> & Hc & Hw) & Htrace).
  split; [by eapply worker_messages|].
  rewrite Htrace, commands_app, written_app, Hc, Hw. done.
Qed.

(** X12. When the work directory cannot be made, the worker does nothing
    but post one [error] message with the text of that failure: no log
    message, no command, no file. *)
Theorem unmakeable_work_directory_fails_the_job
    (fs : gmap string string) (e : jsError) :
  mkdir_error P (workdir wd) = Some e →
  trace (run_worker fs)
  = [Mkdir (workdir wd); Pipeline.Post (Error (error_text e))]
  ∧ files (run_worker fs) = fs.
Proof.
  intros Hmk.
  unfold Pipeline.run_worker, worker_main, Pipeline.pipeline, try_catch,
    mbind, W_bind, mkdir. cbn [files trace fst snd].
  by rewrite Hmk.
Qed.

(** ** What meta.json holds *)

Lemma quiet_then {A B} (m : W A) (f : A → W B)
    (Φ : list effect → jsError + B → Prop) :
  (∀ t e, quiet t → Φ t (inl e)) →
  (∀ t1 t2 r, quiet t1 → Φ t2 r → Φ (t1 ++ t2) r) →
  emits m Quiet → (∀ x, emits (f x) Φ) → emits (m ≫= f) Φ.
Proof.
  intros Herr Hpre Hm Hf.
  eapply emits_weaken; [by apply (emits_bind m f Quiet (λ _, Φ))|].
  intros t r (t1 & t2 & -> & [(e & H1 & -> & ->)|(x & H1 & H2)]).
  - rewrite app_nil_r. by apply Herr.
  - by apply Hpre.
Qed.

Lemma emits_and {A} (m : W A) (Φ Ψ : list effect → jsError + A → Prop) :
  emits m Φ → emits m Ψ → emits m (λ t r, Φ t r ∧ Ψ t r).
Proof.
  intros H1 H2 s. destruct (H1 s) as (t & Ht & ?), (H2 s) as (t' & Ht' & ?).
  exists t. split; [done|]. split; [done|].
  rewrite Ht in Ht'. by apply app_inv_head in Ht' as ->.
Qed.

(** The save stage fails without touching meta.json, or ends with the
    three writes, the last of them the metadata it was given. *)
Local Abbreviation stores meta :=
  (λ (t : list effect) (r : jsError + Meta),
     (∃ e, r = inl e ∧ quiet t)
     ∨ (r = inr reported_meta
        ∧ ∃ pre rj rt,
            quiet pre
            ∧ t = pre ++ [WriteFile (resultsJson wd) rj;
                          WriteFile (resultsTxt wd) rt;
                          WriteFile (metaJson wd)
                            (stringify_meta P meta)])).

Lemma stores_pipeline : emits pipeline (stores stored_meta).
Proof.
  assert (Herr : ∀ t (e : jsError), quiet t → stores stored_meta t (inl e)).
  { intros t e Hq. left. eauto. }
  assert (Hpre : ∀ t1 t2 r, quiet t1 → stores stored_meta t2 r →
                            stores stored_meta (t1 ++ t2) r).
  { intros t1 t2 r Hq [(e & -> & Hq2)|(-> & pre & rj & rt & Hq2 & ->)].
    - left. exists e. split; [done|]. by apply Forall_app.
    - right. split; [done|]. exists (t1 ++ pre), rj, rt.
      split; [by apply Forall_app|]. by rewrite app_assoc. }
  unfold Pipeline.pipeline.
  apply quiet_then; [done|done|apply quiet_mkdir|]. intros _.
  apply quiet_then; [done|done|apply quiet_log|]. intros _.
  apply quiet_then; [done|done|apply quiet_subfinder|]. intros _.
  apply quiet_then; [done|done|apply quiet_amass|]. intros _.
  apply quiet_then; [done|done|apply quiet_merge|]. intros _.
  apply quiet_then; [done|done|apply quiet_httpx|]. intros _.
  apply quiet_then; [done|done|apply quiet_parse|]. intros its.
  eapply emits_weaken.
  { eapply emits_bind.
    - apply emits_and; [apply (saved_save P wd stored_meta its)|].
      apply emits_of_triple, (triple_save anywhere stored_meta its).
    - intros x. apply emits_ret. }
  cbn. intros t r (t1 & t2 & -> & [(e & H1 & -> & ->)|(x & H1 & -> & ->)]);
    rewrite app_nil_r; destruct H1 as [Hsaved [_ H1]].
  - left. exists e. split; [done|].
    by destruct Hsaved as [(e' & _ & ?)|(y & pre & rj & rt & c & [=] & _)].
  - right. split; [done|].
    destruct (write_error P (resultsJson wd)); [by destruct H1|].
    destruct (txt_entries P its) as [|ls]; [by destruct H1|].
    destruct (write_error P (resultsTxt wd)); [by destruct H1|].
    destruct (write_error P (metaJson wd)); [by destruct H1|].
    destruct H1 as (_ & txt & ->).
    exists [Pipeline.Post (Log txt)], (stringify_records P its),
      (String.concat LF ls).
    split; [|done]. by apply Forall_singleton.
Qed.

(** X13. The metadata stored in meta.json is not the metadata of the
    [done] message. Whenever a run writes meta.json, the file holds the
    job id, the host name, the start time and the five tasks up to
    parse_httpx, with no finish time; the [done] message that follows
    carries the same with the sixth task, save_results, and the finish
    time added. *)
Theorem stored_metadata_lacks_the_finish (fs : gmap string string) c :
  WriteFile (metaJson wd) c ∈ trace (run_worker fs) →
  c = stringify_meta P stored_meta
  ∧ (∃ logs, posted (run_worker fs)
             = (Log <$> logs) ++ [Done reported_meta])
  ∧ m_finishedAt stored_meta = None
  ∧ name <$> m_tasks stored_meta
    = ["subfinder"; "amass"; "merge"; "httpx"; "parse_httpx"]
  ∧ m_finishedAt reported_meta = Some (finishedAt_iso P)
  ∧ m_tasks reported_meta
    = m_tasks stored_meta ++ [mk_task P "save_results"].
Proof.
  intros Hin.
  assert (Htr : ∃ t r, stores stored_meta t r
                  ∧ trace (run_worker fs)
                    = t ++ [Pipeline.Post match r with
                                          | inr meta => Done meta
                                          | inl e => Error (error_text e)
                                          end]).
  { destruct (worker_of_pipeline fs (λ _ t r, stores stored_meta t r))
      as (_ & t & r & ? & ?); [|eauto].
    intros s _. apply stores_pipeline. }
  destruct Htr as (t & r & Hst & Htr).
  assert (Hmeta : ∀ t0, quiet t0 → WriteFile (metaJson wd) c ∉ t0).
  { intros t0 Hq Hc. eapply Forall_forall in Hq; [|exact Hc]. by apply Hq. }
  rewrite Htr in Hin. apply elem_of_app in Hin as [Hin|Hin].
  2:{ apply list_elem_of_singleton in Hin. by destruct r. }
  destruct Hst as [(e & -> & Hq)|(-> & pre & rj & rt & Hq & ->)].
  { by destruct (Hmeta _ Hq). }
  apply elem_of_app in Hin as [Hin|Hin]; [by destruct (Hmeta _ Hq)|].
  rewrite !elem_of_cons in Hin.
  destruct Hin as [[= Hp _]|[[= Hp _]|[[= <-]|Hin]]].
  - by apply path_join_inj in Hp.
  - by apply path_join_inj in Hp.
  - split; [done|]. split; [by eapply worker_messages|]. done.
  - by apply elem_of_nil in Hin.
Qed.

(** ** A probe line that is [null] *)

Local Abbreviation only_merged ws := (Forall (λ p, p = allList wd) ws).

Lemma calm_step {A B} Pre (m : W A) (f : A → W B)
    (Mid : gmap string string → Prop) (Φ : A → Prop)
    (R : jsError + B → Prop) :
  triple Pre m (λ fs t r, ∃ x, r = inr x ∧ Φ x ∧ only_merged (written t)
                              ∧ Mid fs) →
  (∀ x, Φ x →
     triple Mid (f x)
       (λ _ t r, R r ∧ ∃ ws, only_merged ws
                             ∧ written t = ws ++ [resultsJson wd])) →
  triple Pre (m ≫= f)
    (λ _ t r, R r ∧ ∃ ws, only_merged ws
                          ∧ written t = ws ++ [resultsJson wd]).
Proof.
  intros Hm Hf.
  eapply (triple_step _ _ _ Mid (λ t x, Φ x ∧ only_merged (written t))).
  - eapply triple_weaken; [exact Hm|done|]. cbn.
    intros fs t r (x & -> & ? & ? & ?). eauto.
  - intros x t1 [Hx Hw]. eapply triple_weaken; [by apply Hf|done|]. cbn.
    intros _ t2 r (? & ws & Hws & Hw2). split; [done|].
    exists (written t1 ++ ws). split; [by apply Forall_app|].
    by rewrite written_app, Hw2, app_assoc.
Qed.

(** X14. One probe line that parses to [null] fails the whole job. When
    httpx succeeds and leaves an output with such a line, the records
    before it can be written and nothing else fails, the worker writes
    results.json, then stops at the read of a field of [null]: it ends with
    the [error] message of that TypeError and writes neither results.txt
    nor meta.json. (An earlier record with a field that has no text form
    stops the worker there instead, with the TypeError of the
    conversion.) *)
Theorem null_record_fails_the_job
    (fs : gmap string string) (out : string) (before after : list json) :
  mkdir_error P (workdir wd) = None →
  (∀ p, write_error P p = None) →
  (∀ args T fs', (exec P "bash" args T fs').2 = None) →
  (∀ args T fs', (exec P "httpx" args T fs').2 = None
                 ∧ (exec P "httpx" args T fs').1 !! httpxOut wd = Some out) →
  parse_lines P out = before ++ JNull :: after →
  Forall writable before →
  (∃ logs,
     posted (run_worker fs)
     = (Log <$> logs)
       ++ [Error "Cannot read properties of null (reading '_parseError')"])
  ∧ (resultsJson wd ∈ written (trace (run_worker fs)))
  ∧ (resultsTxt wd ∉ written (trace (run_worker fs)))
  ∧ (metaJson wd ∉ written (trace (run_worker fs))).
Proof.
  intros Hmk Hwr Hbash Hhttpx Hnull Hbefore.
  assert (Hp : triple (λ f, f = fs) pipeline
                 (λ _ t r, r = inl null_read
                    ∧ ∃ ws, only_merged ws
                            ∧ written t = ws ++ [resultsJson wd])).
  { unfold Pipeline.pipeline.
    eapply (calm_step _ _ _ anywhere (λ _, True)).
    { eapply triple_weaken; [apply (triple_mkdir anywhere)|done|]. cbn.
      intros f t r (_ & -> & ->). rewrite Hmk. by exists (). }
    intros _ _. eapply (calm_step _ _ _ anywhere (λ _, True)).
    { eapply triple_weaken; [apply (triple_post anywhere)|done|]. cbn.
      intros f t r (_ & -> & ->). by exists (). }
    intros _ _. eapply (calm_step _ _ _ anywhere (λ _, True)).
    { eapply triple_weaken; [apply (triple_subfinder anywhere)|done|]. cbn.
      intros f t r (f0 & _ & ? & -> & ? & ->). by exists (). }
    intros _ _. eapply (calm_step _ _ _ anywhere (λ _, True)).
    { eapply triple_weaken; [apply (triple_amass anywhere)|done|]. cbn.
      intros f t r (f0 & _ & ? & -> & ? & ->). by exists (). }
    intros _ _. eapply (calm_step _ _ _ anywhere (λ _, True)).
    { eapply triple_weaken; [apply (triple_merge anywhere)|done|]. cbn.
      intros f t r (f0 & _ & H).
      destruct (present_parts wd f0).
      - rewrite Hwr in H. destruct H as (? & ? & -> & ->). exists ().
        split; [done|]. split; [done|]. split; [|done].
        by apply Forall_singleton.
      - destruct H as (? & ? & -> & ->). rewrite Hbash. by exists (). }
    intros _ _.
    eapply (calm_step _ _ _ (λ f, f !! httpxOut wd = Some out) (λ _, True)).
    { eapply triple_weaken; [apply (triple_httpx anywhere)|done|]. cbn.
      intros f t r (f0 & _ & _ & H).
      destruct (Hhttpx ["-l"; allList wd; "-silent"; "-status-code";
                        "-title"; "-cl"; "-json"; "-o"; httpxOut wd]
                       (3 * 60 * 1000)%Z f0) as [Hok Hout].
      rewrite Hok in H. destruct H as (-> & -> & ->). by exists (). }
    intros _ _.
    eapply (calm_step _ _ _ anywhere (λ its, its = before ++ JNull :: after)).
    { eapply triple_weaken;
        [apply (triple_parse (λ f, f !! httpxOut wd = Some out))|done|].
      cbn. intros f t r (Hf & _ & -> & ->). rewrite Hf. eauto 6. }
    intros its ->. eapply triple_bind.
    - apply (triple_save anywhere).
    - cbn. intros f t e (_ & H). rewrite Hwr in H.
      rewrite (txt_entries_null before after Hbefore) in H.
      destruct H as [Hw [= ->]]. split; [done|]. by exists [].
    - intros x t1. apply triple_false. intros f (_ & H). rewrite Hwr in H.
      rewrite (txt_entries_null before after Hbefore) in H. by destruct H. }
  destruct (worker_of_pipeline fs _ Hp)
    as (fs' & t & r & (-> & ws & Hws & Hw) & Htrace).
  split; [by eapply worker_messages|].
  rewrite Htrace, written_app, Hw. cbn. rewrite app_nil_r.
  assert (Hne : ∀ p, p ∈ ws ++ [resultsJson wd] →
                     p ≠ resultsTxt wd ∧ p ≠ metaJson wd).
  { intros p [Hp'|Hp']%elem_of_app.
    - eapply Forall_forall in Hws; [|exact Hp']. subst p.
      split; by intros ?%path_join_inj.
    - apply list_elem_of_singleton in Hp' as ->.
      split; by intros ?%path_join_inj. }
  split; [apply elem_of_app; right; left|].
  split; intros Hin; by destruct (Hne _ Hin).
Qed.

End OutcomeFacts.

(* ===================================================================== *)
(** * Properties of the job table over a whole run                        *)
(* ===================================================================== *)

Section LifecycleFacts.
Import Pipeline Coordinator Lifecycle.

Variable SCANS_DIR : string.
Variable URL_hostname : string → option string.
Variable JSON_parse : string → option json.
Variable template_throws : option jsError.

Local Abbreviation handle :=
  (handle SCANS_DIR URL_hostname JSON_parse template_throws).
Local Abbreviation run_events :=
  (run_events SCANS_DIR URL_hostname JSON_parse template_throws).
Local Abbreviation get_status := (get_status SCANS_DIR JSON_parse).
Local Abbreviation get_download := (get_download SCANS_DIR).
Local Abbreviation delete_finish := (delete_finish SCANS_DIR).
Local Abbreviation workdir_of := (workdir_of SCANS_DIR).
Local Abbreviation on_request :=
  (on_request SCANS_DIR URL_hostname JSON_parse template_throws).
Local Abbreviation post_scan :=
  (post_scan SCANS_DIR URL_hostname template_throws).

(** ** The status and the worker thread *)

Lemma tracks_step s s' : good s → tracks s → sstep s s' → tracks s'.
Proof.
  intros Hgood Htr Hstep. destruct Hstep; unfold tracks in *; cbn in *.
  - by left.
  - by destruct (g_fresh _ Hgood eq_refl) as (_ & ? & _).
  - destruct H as [-> | ->]; by exists Signalled.
  - by exists (Exited c).
  - destruct e as [[]|]; try done.
    + destruct Htr as [[= ->]|[= ->]]; [|by destruct H].
      destruct H0 as [->|[?|?]]; [by right|done|done].
    + by exists (Exited c).
    + by exists (Exited c).
  - done.
Qed.

Lemma run_events_tracks evs : ∀ st st',
  (∀ id, good (summarize id st)) →
  (∀ id, tracks (summarize id st)) →
  run_events evs st = Some st' →
  ∀ id, tracks (summarize id st').
Proof.
  induction evs as [|ev evs IH]; intros st st' Hgood Htr; cbn.
  - by intros [= <-].
  - destruct (allowed ev st) eqn:Hal; [|done].
    apply IH.
    + intros id.
      destruct (handle_summary SCANS_DIR URL_hostname JSON_parse
                  template_throws ev st id Hal)
        as [->|Hstep]; [done|]. by eapply good_step.
    + intros id.
      destruct (handle_summary SCANS_DIR URL_hostname JSON_parse
                  template_throws ev st id Hal)
        as [->|Hstep]; [done|]. by eapply tracks_step.
Qed.

(** X15. The status a job reports goes with what its worker thread has
    done, in every state the server reaches: [queued] only while no worker
    was constructed for the job; [running] only while the worker has sent
    neither [done] nor [error] nor died of an error, and has not exited
    with a code other than 0; [done] and [failed] only after such a message
    or an exit. So a job whose worker could not be constructed is never
    reported as running, done or failed, and stays queued until it is
    deleted. *)
Theorem status_goes_with_the_worker fs evs st id :
  run_events evs (boot fs) = Some st →
  match j_status <$> jobs st !! id with
  | None => True
  | Some queued => threads st !! id = None
  | Some running =>
      threads st !! id = Some Alive ∨ threads st !! id = Some (Exited 0)
  | Some _ => ∃ th, threads st !! id = Some th ∧ th ≠ Alive
  end
  ∧ (threads st !! id = None →
     j_status <$> jobs st !! id = None
     ∨ j_status <$> jobs st !! id = Some queued).
Proof.
  intros Hrun.
  assert (H : tracks (summarize id st)).
  { apply (run_events_tracks evs (boot fs) st); [| |done].
    - intros id'. apply good_boot.
    - intros id'. unfold tracks, summarize, boot. cbn.
      by rewrite lookup_empty. }
  unfold tracks, summarize in H. cbn in H. split; [exact H|].
  intros Hth. rewrite Hth in H.
  destruct (j_status <$> jobs st !! id) as [[]|]; auto.
  - by destruct H.
  - by destruct H as (? & ? & _).
  - by destruct H as (? & ? & _).
Qed.

(** ** The fields of an entry *)

Lemma entry_ok_queued :
  entry_ok {| j_status := queued; j_worker := false; j_meta := None;
              j_error := None |}.
Proof.
  repeat split; cbn; try done; by intros [? [=]].
Qed.

Lemma entry_ok_running :
  entry_ok {| j_status := running; j_worker := true; j_meta := None;
              j_error := None |}.
Proof.
  repeat split; cbn; try done; by intros [? [=]].
Qed.

Lemma entry_ok_done meta :
  entry_ok {| j_status := done; j_worker := false; j_meta := Some meta;
              j_error := None |}.
Proof.
  repeat split; cbn; try done; by intros [? [=]].
Qed.

Lemma entry_ok_failed e :
  entry_ok {| j_status := failed; j_worker := false; j_meta := None;
              j_error := Some e |}.
Proof.
  repeat split; cbn; try done; by intros [? [=]].
Qed.

Lemma handle_entries ev st :
  map_Forall (λ _, entry_ok) (jobs st) →
  map_Forall (λ _, entry_ok) (jobs (handle ev st).1).
Proof.
  intros Hall.
  destruct ev as [rq rnd started|id ok|id m|id err|id c|id f cnt];
    cbn [Coordinator.handle].
  - unfold Coordinator.on_request.
    destruct (dispatch rq) as [[[] params]|]; try done.
    + unfold Coordinator.post_scan.
      destruct (rq_url rq) as [u|]; [|done].
      destruct (decide (u = "")); [done|].
      destruct (URL_hostname u) as [h|]; [|done].
      destruct (validateHostname (units h)); [|done].
      unfold startScanWorker.
      destruct template_throws; [|destruct started]; cbn;
        repeat apply map_Forall_insert_2;
        auto using entry_ok_queued, entry_ok_running.
    + by destruct params as [|? []].
    + by destruct params as [|? []].
    + by destruct params as [|? []].
  - unfold Coordinator.delete_finish. destruct ok as [|gone]; [|done]. cbn.
    by apply map_Forall_delete.
  - destruct m as [txt|meta|e]; cbn; [done| |];
      apply map_Forall_insert_2; auto using entry_ok_done, entry_ok_failed.
  - cbn. apply map_Forall_insert_2; auto using entry_ok_failed.
  - cbn [fst]. unfold on_exit. destruct (decide (c ≠ 0)); [|done].
    destruct (decide _); [|done]. cbn.
    apply map_Forall_insert_2; auto using entry_ok_failed.
  - done.
Qed.

Lemma run_events_entries evs : ∀ st st',
  map_Forall (λ _, entry_ok) (jobs st) →
  run_events evs st = Some st' →
  map_Forall (λ _, entry_ok) (jobs st').
Proof.
  induction evs as [|ev evs IH]; intros st st' Hall; cbn.
  - by intros [= <-].
  - destruct (allowed ev st); [|done]. apply IH. by apply handle_entries.
Qed.

(** X16. In every state the server reaches, the optional fields of a
    table entry go with its status: the worker handle is there exactly
    when the status is [running], the metadata exactly when it is [done],
    the error text exactly when it is [failed]. So a DELETE request calls
    [terminate()] exactly for the jobs that are reported as running. *)
Theorem entry_fields_go_with_the_status fs evs st id j :
  run_events evs (boot fs) = Some st →
  jobs st !! id = Some j →
  (j_worker j = true ↔ j_status j = running)
  ∧ (is_Some (j_meta j) ↔ j_status j = done)
  ∧ (is_Some (j_error j) ↔ j_status j = failed)
  ∧ (id ∈ terminated (delete_start id st)
     ↔ id ∈ terminated st ∨ j_status j = running).
Proof.
  intros Hrun Hj.
  assert (Hok : entry_ok j).
  { eapply (run_events_entries evs (boot fs) st); [|done|exact Hj].
    apply map_Forall_empty. }
  destruct Hok as (Hw & Hm & He). split; [done|]. split; [done|].
  split; [done|].
  unfold delete_start. cbn. rewrite Hj.
  destruct (j_worker j) eqn:E.
  - rewrite elem_of_union, elem_of_singleton.
    split; [intros _; right; by apply Hw|auto].
  - split; [auto|]. intros [?|Hr]; [done|]. by apply Hw in Hr.
Qed.

(** X17. The job table, the worker threads and the log of writes only
    ever hold job ids that POST /scan has handed out: no other request and
    no event creates an entry for an id of its own. *)
Theorem only_issued_ids_are_tracked fs evs st id :
  run_events evs (boot fs) = Some st →
  id ∉ issued st →
  jobs st !! id = None ∧ threads st !! id = None ∧ history id st = [].
Proof.
  intros Hrun Hid.
  destruct (reachable_good SCANS_DIR URL_hostname JSON_parse template_throws
              fs evs st id Hrun) as [Hfresh _ _ _ _ _].
  cbn in Hfresh. rewrite bool_decide_eq_false_2 in Hfresh by done.
  destruct (Hfresh eq_refl) as (Hh & Ht & Hs). split; [|done].
  by destruct (jobs st !! id).
Qed.

(** ** Paths *)

Local Abbreviation chars := String.list_ascii_of_string.

Lemma append_assoc a b c : (a +:+ b) +:+ c = a +:+ (b +:+ c).
Proof.
  induction a as [|x a IH]; [done|]. by rewrite !append_cons, IH.
Qed.

Lemma append_empty a : a +:+ "" = a.
Proof. induction a as [|x a IH]; [done|]. by rewrite append_cons, IH. Qed.

Lemma prefix_cancel p x y :
  String.prefix (p +:+ x) (p +:+ y) = String.prefix x y.
Proof.
  induction p as [|c p IH]; [done|]. rewrite !append_cons.
  cbn [String.prefix]. by destruct (Ascii.ascii_dec c c).
Qed.

Lemma eqb_cancel p x y : String.eqb (p +:+ x) (p +:+ y) = String.eqb x y.
Proof.
  induction p as [|c p IH]; [done|]. rewrite !append_cons.
  cbn [String.eqb]. by rewrite Ascii.eqb_refl.
Qed.

Lemma under_workdir dir f : under dir (path_join dir f) = true.
Proof.
  unfold under, path_join. rewrite prefix_cancel.
  rewrite append_cons, append_nil. cbn [String.prefix].
  destruct (Ascii.ascii_dec _ _); [by destruct f|done].
Qed.

Lemma reaches_workdir dir f : reaches dir (path_join dir f) = true.
Proof. unfold reaches. by rewrite under_workdir, orb_true_r. Qed.

Lemma reaches_self dir : reaches dir dir = true.
Proof. unfold reaches. by rewrite String.eqb_refl. Qed.

(** A text that begins with [a/] holds a slash. *)
Lemma prefix_slash a b :
  String.prefix (a +:+ "/") b = true → SLc ∈ chars b.
Proof.
  revert b. induction a as [|x a IH]; intros [|y b]; cbn [chars].
  - done.
  - rewrite append_nil. cbn [String.prefix].
    destruct (Ascii.ascii_dec _ y) as [<-|]; [left|done].
  - by rewrite append_cons.
  - rewrite append_cons. cbn [String.prefix].
    destruct (Ascii.ascii_dec x y) as [->|]; [|done].
    intros H. right. by apply IH.
Qed.

Lemma prefix_slash_inj a b f :
  SLc ∉ chars a → SLc ∉ chars b →
  String.prefix (a +:+ "/") (b +:+ "/" +:+ f) = true → a = b.
Proof.
  revert b.
  induction a as [|x a IH]; intros [|y b] Ha Hb; cbn [chars] in Ha, Hb.
  - done.
  - rewrite append_nil, append_cons. cbn [String.prefix].
    destruct (Ascii.ascii_dec _ y) as [<-|]; [|done].
    destruct Hb. left.
  - rewrite append_nil, !append_cons, append_nil. cbn [String.prefix].
    destruct (Ascii.ascii_dec x _) as [->|]; [|done].
    destruct Ha. left.
  - rewrite !append_cons. cbn [String.prefix].
    destruct (Ascii.ascii_dec x y) as [->|]; [|done].
    intros Hp. f_equal. apply IH; [| |done].
    + intros ?. apply Ha. by right.
    + intros ?. apply Hb. by right.
Qed.

Lemma chars_app a b : chars (a +:+ b) = chars a ++ chars b.
Proof.
  induction a as [|x a IH]; [done|]. rewrite append_cons. cbn. by rewrite IH.
Qed.

Lemma split_on_app s t :
  SLc ∉ chars s →
  split_on SLc (s +:+ t)
  = match split_on SLc t with
    | [] => [s]
    | w :: ws => (s +:+ w) :: ws
    end.
Proof.
  induction s as [|a s IH]; intros Hs.
  - rewrite append_nil. by destruct (split_on_cons SLc t) as (w & ws & ->).
  - cbn [chars] in Hs. apply not_elem_of_cons in Hs as [Ha Hs].
    rewrite append_cons. cbn [split_on]. rewrite decide_False by done.
    rewrite (IH Hs). by destruct (split_on SLc t).
Qed.

Lemma split_on_plain s : SLc ∉ chars s → split_on SLc s = [s].
Proof.
  intros Hs. rewrite <- (append_empty s) at 1.
  rewrite split_on_app by done. cbn. by rewrite append_empty.
Qed.

Lemma of_segments_cons s segs :
  of_segments (s :: segs) = "/" +:+ s +:+ of_segments segs.
Proof.
  unfold of_segments. cbn [fmap list_fmap String.concat].
  destruct ((λ s0, "/" +:+ s0) <$> segs) eqn:E.
  - cbn. by rewrite append_empty.
  - by rewrite append_nil, append_assoc.
Qed.

Lemma of_segments_snoc segs s :
  of_segments (segs ++ [s]) = of_segments segs +:+ "/" +:+ s.
Proof.
  induction segs as [|x segs IH].
  - cbn [app]. rewrite of_segments_cons. cbn. by rewrite !append_empty.
  - cbn [app]. rewrite !of_segments_cons, IH. by rewrite !append_assoc.
Qed.

Lemma segments_of_segments segs :
  Forall (λ s, SLc ∉ chars s) segs →
  segments (of_segments segs) = "" :: segs.
Proof.
  unfold segments. induction 1 as [|s segs Hs _ IH]; [done|].
  rewrite of_segments_cons, append_cons, append_nil.
  cbn [split_on]. rewrite decide_True by done.
  by rewrite split_on_app, IH, append_empty.
Qed.

Lemma resolve_plain segs : ∀ stack,
  Forall plain_segment segs → resolve stack segs = reverse stack ++ segs.
Proof.
  induction segs as [|s segs IH]; intros stack Hall; cbn [resolve].
  - by rewrite app_nil_r.
  - apply Forall_cons in Hall as [(_ & He & Hd & Hdd) Hall].
    rewrite decide_False by (by intros [?|?]). rewrite decide_False by done.
    rewrite IH by done. by rewrite reverse_cons, <- app_assoc.
Qed.

(** On a resolved directory and a plain name, [path.join] only puts the
    two together. *)
Lemma join_plain dir name :
  resolved dir → plain_segment name → join dir name = dir +:+ "/" +:+ name.
Proof.
  intros (segs & Hsegs & ->) Hname. unfold join.
  rewrite segments_of_segments.
  2:{ eapply Forall_impl; [exact Hsegs|]. by intros s [? _]. }
  unfold segments at 1. rewrite split_on_plain by apply Hname.
  cbn [app resolve]. rewrite decide_True by by left.
  rewrite resolve_plain.
  - rewrite reverse_nil. cbn [app]. by rewrite of_segments_snoc.
  - apply Forall_app. split; [done|]. by apply Forall_singleton.
Qed.

Lemma hex_no_slash id : hex_id id → SLc ∉ chars id.
Proof.
  intros Hid Hin. eapply Forall_forall in Hid; [|exact Hin]. done.
Qed.

Lemma hex_plain id : hex_id id → plain_segment ("scan-" +:+ id).
Proof.
  intros Hid.
  assert (Hscan : SLc ∉ chars "scan-")
    by (apply (bool_decide_unpack _); vm_compute; exact I).
  split; [|repeat split; discriminate].
  rewrite chars_app. intros [Hin|Hin]%elem_of_app.
  - exact (Hscan Hin).
  - exact (hex_no_slash _ Hid Hin).
Qed.

Lemma workdir_of_hex id :
  resolved SCANS_DIR → hex_id id →
  workdir_of id = SCANS_DIR +:+ "/scan-" +:+ id.
Proof.
  intros Hdir Hid. unfold Coordinator.workdir_of.
  rewrite join_plain; [reflexivity|exact Hdir|by apply hex_plain].
Qed.

(** The directories of two jobs lie side by side: [fs.rm] on one reaches
    neither the other nor a file in it. *)
Lemma not_reached_other id id' :
  resolved SCANS_DIR → hex_id id → hex_id id' → id ≠ id' →
  reaches (workdir_of id) (workdir_of id') = false
  ∧ ∀ f, reaches (workdir_of id) (path_join (workdir_of id') f) = false.
Proof.
  intros Hdir Hid Hid' Hne.
  rewrite !workdir_of_hex by done.
  pose proof (hex_no_slash _ Hid) as Hs.
  pose proof (hex_no_slash _ Hid') as Hs'.
  unfold reaches, under, path_join. split; [|intros f].
  - rewrite !append_assoc, !eqb_cancel, !prefix_cancel.
    rewrite ?(eqb_cancel "/scan-"), ?(prefix_cancel "/scan-").
    apply orb_false_iff. split.
    + apply String.eqb_neq. done.
    + apply not_true_is_false. by intros ?%prefix_slash.
  - rewrite !append_assoc, !eqb_cancel, !prefix_cancel.
    rewrite ?(eqb_cancel "/scan-"), ?(prefix_cancel "/scan-").
    apply orb_false_iff. split.
    + apply String.eqb_neq. intros ->. apply Hs.
      rewrite chars_app. apply elem_of_app. right. left.
    + apply not_true_is_false. intros Hp. apply Hne.
      by apply (prefix_slash_inj id id' f).
Qed.

(** ** Deleting a job *)

(** X18. When [fs.rm] succeeds, the DELETE handler answers 200 and the
    job is gone: its table entry is removed and nothing is left at the path
    of its work directory or below it, so a status query and a download
    for it answer 404 from then on (as long as nothing writes there
    again). When [fs.rm] fails, the handler answers 500 and leaves the job
    table as it was; on the disk, the files that [fs.rm] had removed from
    the directory before it failed are gone, and every other file is as it
    was. The job id is whatever the URL holds. *)
Theorem successful_delete_forgets_the_job (id : string) (st : server) :
  (let st' := (delete_finish id Removed st).1 in
   (delete_finish id Removed st).2 = {| code := 200; payload := Deleted id |}
   ∧ jobs st' !! id = None
   ∧ disk st' !! workdir_of id = None
   ∧ (∀ f, disk st' !! path_join (workdir_of id) f = None)
   ∧ get_status id st'
     = {| code := 404; payload := ErrorBody "job not found" |}
   ∧ get_download id st'
     = {| code := 404; payload := ErrorBody "results not found" |})
  ∧ (∀ gone,
       let st' := (delete_finish id (Rejected gone) st).1 in
       (delete_finish id (Rejected gone) st).2
       = {| code := 500; payload := ErrorBody "failed to delete" |}
       ∧ jobs st' = jobs st
       ∧ disk st' ⊆ disk st
       ∧ ∀ p, reaches (workdir_of id) p = false ∨ p ∉ gone →
              disk st' !! p = disk st !! p).
Proof.
  split; cbv zeta.
  - assert (Hgone : ∀ p, reaches (workdir_of id) p = true →
                         disk (delete_finish id Removed st).1 !! p = None).
    { intros p Hp. cbn. apply map_lookup_filter_None_2. right.
      intros c _. cbn [fst]. unfold removed_by. by rewrite Hp. }
    split; [done|]. split; [cbn; apply lookup_delete_eq|].
    split; [apply Hgone, reaches_self|].
    split; [intros f; apply Hgone, reaches_workdir|]. split.
    + unfold Coordinator.get_status. rewrite Hgone by apply reaches_workdir.
      cbn. by rewrite lookup_delete_eq.
    + unfold Coordinator.get_download.
      by rewrite Hgone by apply reaches_workdir.
  - intros gone. split; [done|]. split; [done|].
    split; [apply map_filter_subseteq|].
    intros p Hp. cbn.
    destruct (disk st !! p) as [c|] eqn:E.
    + apply map_lookup_filter_Some_2; [done|]. cbn [fst].
      unfold removed_by. destruct Hp as [->|Hp]; [done|].
      rewrite bool_decide_eq_false_2 by done. apply andb_false_r.
    + apply map_lookup_filter_None_2. by left.
Qed.

(** X19. What a DELETE does to the other jobs, whether [fs.rm] succeeds
    or fails, for whatever id the URL holds. The table entry of every
    other id stays as it was. A file stays as it was unless it is at or
    below the path that [path.join] makes of [SCANS_DIR] and the id; when
    [fs.rm] succeeds every file there is gone, whose ever it was. For ids
    as the server issues them, lower-case hexadecimal digits, under a
    [SCANS_DIR] as [path.resolve] gives it, that path is the directory of
    the one job: the other job's files, and what a status query or a
    download for it answers, stay as they were. (An id with dot segments
    can name the directory of another job, see [crafted_delete_scenario].
    Paths are POSIX paths, on a file system that tells upper case from
    lower case.) *)
Theorem delete_leaves_other_jobs_alone
    (id id' : string) (o : removal) (st : server) :
  id ≠ id' →
  let st' := (delete_finish id o st).1 in
  jobs st' !! id' = jobs st !! id'
  ∧ (∀ p, reaches (workdir_of id) p = false → disk st' !! p = disk st !! p)
  ∧ (∀ p, reaches (workdir_of id) p = true → o = Removed →
          disk st' !! p = None)
  ∧ (resolved SCANS_DIR → hex_id id → hex_id id' →
     disk st' !! workdir_of id' = disk st !! workdir_of id'
     ∧ (∀ f, disk st' !! path_join (workdir_of id') f
             = disk st !! path_join (workdir_of id') f)
     ∧ get_status id' st' = get_status id' st
     ∧ get_download id' st' = get_download id' st).
Proof.
  intros Hne st'.
  assert (Hdisk : disk st'
                  = filter (λ kv, removed_by SCANS_DIR id o kv.1 = false)
                           (disk st)) by (subst st'; by destruct o).
  assert (Hjobs : jobs st' !! id' = jobs st !! id').
  { subst st'. destruct o; cbn; [by apply lookup_delete_ne|done]. }
  assert (Hkept : ∀ p, reaches (workdir_of id) p = false →
                       disk st' !! p = disk st !! p).
  { intros p Hp. rewrite Hdisk.
    destruct (disk st !! p) as [c|] eqn:E.
    - apply map_lookup_filter_Some_2; [done|]. cbn [fst].
      unfold removed_by. by rewrite Hp.
    - apply map_lookup_filter_None_2. by left. }
  split; [done|]. split; [done|]. split.
  - intros p Hp ->. rewrite Hdisk. apply map_lookup_filter_None_2. right.
    intros c _. cbn [fst]. unfold removed_by. by rewrite Hp.
  - intros Hdir Hid Hid'.
    destruct (not_reached_other id id' Hdir Hid Hid' Hne) as [Hself Hfiles].
    split; [by apply Hkept|].
    split; [intros f; by apply Hkept|]. split.
    + unfold Coordinator.get_status. by rewrite Hjobs, Hkept.
    + unfold Coordinator.get_download. by rewrite Hkept.
Qed.

(** ** Requests *)

(** X20. A request changes the state of the server only if it is
    POST /scan or DELETE /results/<id> (the literal segment in any case of
    letters): every GET request, every request to an unknown path and
    every other method leave the job table, the disk and the rest as they
    were. *)
Theorem only_scan_and_delete_change_the_state
    (rq : request) (rnd : string) (started : bool) (st : server) :
  (on_request rq rnd started st).1 = st
  ∨ (rq_method rq = POST
     ∧ ∃ s, rq_path rq = [s] ∧ toLowerCase s = "scan")
  ∨ (rq_method rq = DELETE
     ∧ ∃ s id, rq_path rq = [s; id] ∧ toLowerCase s = "results").
Proof.
  destruct rq as [m path url]. unfold Coordinator.on_request, dispatch, routes.
  cbn [rq_method rq_path rq_url find_route].
  destruct m; destruct path as [|a [|b [|c path]]];
    cbn [match_path fmap option_fmap option_map];
    repeat (case_decide; try done;
            cbn [match_path fmap option_fmap option_map]);
    try (by left).
  - right. left. eauto.
  - right. right. eauto 6.
Qed.

(** X21. POST /scan answers 400 and changes nothing unless [url] is
    given, parses, and its host name is valid; then it answers 200 with
    the new job id, hands out that id, asks [fsSync.mkdirSync] for the
    work directory of the job, and creates exactly one table entry:
    [running] with a worker handle if the worker program could be built
    and the worker constructed, [queued] if not. The other entries stay
    as they were, and no file is created or changed. *)
Theorem scan_is_validated_before_anything_is_created
    (url : option string) (rnd : string) (started : bool) (st : server) :
  let st' := (post_scan url rnd started st).1 in
  let r := (post_scan url rnd started st).2 in
  let starts := match template_throws with
                | Some _ => false
                | None => started
                end in
  (code r = 400 ∧ st' = st ∧ ∃ msg, payload r = ErrorBody msg)
  ∨ (r = {| code := 200; payload := ScanStarted rnd |}
     ∧ (∃ u h, url = Some u ∧ URL_hostname u = Some h
               ∧ validateHostname (units h) = true)
     ∧ jobs st' !! rnd
       = Some {| j_status := if starts then running else queued;
                 j_worker := starts; j_meta := None; j_error := None |}
     ∧ (∀ id, id ≠ rnd → jobs st' !! id = jobs st !! id)
     ∧ issued st' = {[rnd]} ∪ issued st
     ∧ made st' = made st ++ [workdir_of rnd]
     ∧ disk st' = disk st).
Proof.
  cbv zeta. unfold Coordinator.post_scan.
  destruct url as [u|]; [|left; eauto].
  destruct (decide (u = "")); [left; eauto|].
  destruct (URL_hostname u) as [h|] eqn:Eu; [|left; eauto].
  destruct (validateHostname (units h)) eqn:Eh; [|left; eauto].
  right. split; [done|]. split; [eauto|].
  unfold startScanWorker.
  destruct template_throws; [|destruct started]; cbn;
    rewrite ?lookup_insert_eq; (split; [done|]); (split; [|done]);
    intros id Hne; by rewrite !lookup_insert_ne.
Qed.

(** ** Host names *)

Lemma lower_case_class (c : N) :
  forallb in_class (lower_case c) = host_unit c.
Proof.
  unfold lower_case, in_class, host_unit.
  destruct (65 <=? c)%N eqn:E1, (c <=? 90)%N eqn:E2, (c =? 8490)%N eqn:E3,
    (c =? 304)%N eqn:E4; cbn [forallb andb orb];
    rewrite ?N.leb_le, ?N.leb_gt, ?N.eqb_eq, ?N.eqb_neq in *;
    apply Bool.eq_iff_eq_true;
    rewrite ?andb_true_iff, ?orb_true_iff, ?andb_true_iff, ?N.leb_le,
      ?N.eqb_eq; lia.
Qed.

Lemma lowered_class (h : list N) :
  forallb in_class (h ≫= lower_case) = true
  ↔ Forall (λ c, host_unit c = true) h.
Proof.
  induction h as [|c h IH].
  - split; [constructor|done].
  - rewrite bind_cons, forallb_app, andb_true_iff, Forall_cons, IH,
      lower_case_class. done.
Qed.

Lemma host_unit_char (c : Ascii.ascii) :
  host_unit (Ascii.N_of_ascii c) = host_char c.
Proof. by destruct c as [[] [] [] [] [] [] [] []]. Qed.

Lemma units_dot s :
  46%N ∈ units s ↔ Ascii.ascii_of_nat 46 ∈ String.list_ascii_of_string s.
Proof.
  unfold units. rewrite list_elem_of_fmap. split.
  - intros (c & Hc & Hin).
    assert (c = Ascii.ascii_of_nat 46) as <-; [|done].
    apply (f_equal Ascii.ascii_of_N) in Hc.
    by rewrite Ascii.ascii_N_embedding in Hc.
  - intros Hin. exists (Ascii.ascii_of_nat 46). by split.
Qed.

(** X22. [validateHostname] accepts exactly the non-empty names made of
    ASCII letters of either case, digits, dots, hyphens and Kelvin signs
    (U+212A, which [toLowerCase] takes to [k]) that hold at least one dot.
    On a name of 8-bit characters, as [URL.hostname] gives it, these are
    the non-empty names of letters, digits, dots and hyphens with at least
    one dot. It therefore rejects every name with white space, a slash, a
    quote or a shell character, and it accepts names that begin with a
    hyphen or a dot. *)
Theorem validateHostname_accepts_dotted_names_only :
  (∀ h : list N,
     validateHostname h = true
     ↔ h ≠ [] ∧ Forall (λ c, host_unit c = true) h ∧ 46%N ∈ h)
  ∧ (∀ s : string,
       validateHostname (units s) = true
       ↔ s ≠ ""
         ∧ Forall (λ c, host_char c = true) (String.list_ascii_of_string s)
         ∧ Ascii.ascii_of_nat 46 ∈ String.list_ascii_of_string s).
Proof.
  assert (Hunits : ∀ h : list N,
            validateHostname h = true
            ↔ h ≠ [] ∧ Forall (λ c, host_unit c = true) h ∧ 46%N ∈ h).
  { intros h. unfold validateHostname. destruct h as [|c h].
    - split; [done|]. by intros [? _].
    - rewrite andb_true_iff, bool_decide_eq_true, lowered_class.
      split; [by intros [? ?]|by intros (_ & ? & ?)]. }
  split; [exact Hunits|]. intros s.
  rewrite Hunits, units_dot. unfold units. rewrite Forall_fmap.
  split.
  - intros (Hne & Hall & Hdot). split; [by intros ->|]. split; [|done].
    eapply Forall_impl; [exact Hall|]. intros c Hc. cbn in Hc.
    by rewrite <- host_unit_char.
  - intros (Hne & Hall & Hdot). split; [by destruct s|]. split; [|done].
    eapply Forall_impl; [exact Hall|]. intros c Hc. cbn.
    by rewrite host_unit_char.
Qed.

End LifecycleFacts.

(* ===================================================================== *)
(** * server.js as it is: no worker is ever built                         *)
(* ===================================================================== *)

Section ShippedFacts.
Import Pipeline Coordinator Lifecycle.

Variable SCANS_DIR : string.
Variable URL_hostname : string → option string.
Variable JSON_parse : string → option json.

Local Abbreviation handle :=
  (handle SCANS_DIR URL_hostname JSON_parse workerCode_error).
Local Abbreviation run_events :=
  (run_events SCANS_DIR URL_hostname JSON_parse workerCode_error).
Local Abbreviation on_request :=
  (on_request SCANS_DIR URL_hostname JSON_parse workerCode_error).
Local Abbreviation post_scan :=
  (post_scan SCANS_DIR URL_hostname workerCode_error).
Local Abbreviation get_status := (get_status SCANS_DIR JSON_parse).
Local Abbreviation workdir_of := (workdir_of SCANS_DIR).
Local Abbreviation forgotten := (forgotten SCANS_DIR).

(** The first substitution of line 103 reads [parts], which nothing in
    scope binds. *)
Lemma workerCode_throws :
  workerCode_error = Some (ReferenceError "parts").
Proof. vm_compute. reflexivity. Qed.

Lemma run_events_keeps (I : server → Prop) :
  (∀ ev st, allowed ev st = true → I st → I (handle ev st).1) →
  ∀ evs st st', I st → run_events evs st = Some st' → I st'.
Proof.
  intros Hstep. induction evs as [|ev evs IH]; intros st st' HI; cbn.
  - by intros [= <-].
  - destruct (allowed ev st) eqn:Hal; [|done]. apply IH. by apply Hstep.
Qed.

(** Without a worker thread only requests and settled removals come. *)
Lemma idle_allowed ev st :
  threads st = ∅ → allowed ev st = true → own_event ev.
Proof.
  intros Hth. destruct ev; unfold allowed, own_event; try done;
    rewrite Hth; intros H%bool_decide_eq_true_1; revert H;
    rewrite lookup_empty; naive_solver.
Qed.

(** What a request or a settled removal does, the worker program being
    what it is: no thread, no entry other than [queued], no new file. *)
Lemma shipped_step ev st :
  allowed ev st = true → threads st = ∅ →
  threads (handle ev st).1 = ∅
  ∧ issued st ⊆ issued (handle ev st).1
  ∧ disk (handle ev st).1 ⊆ disk st
  ∧ ∀ id, jobs (handle ev st).1 !! id = jobs st !! id
          ∨ jobs (handle ev st).1 !! id = None
          ∨ ((id ∉ issued st)
             ∧ jobs (handle ev st).1 !! id = Some queued_entry).
Proof.
  intros Hal Hth. pose proof (idle_allowed ev st Hth Hal) as Hown.
  destruct ev as [rq rnd started|id' o| | | |]; try done;
    cbn [allowed Coordinator.handle] in *.
  - unfold Coordinator.on_request.
    destruct (dispatch rq) as [[[] params]|]; try (by auto).
    + apply bool_decide_eq_true_1 in Hal.
      unfold Coordinator.post_scan.
      destruct (rq_url rq) as [u|]; [|by auto].
      destruct (decide (u = "")); [by auto|].
      destruct (URL_hostname u) as [h|]; [|by auto].
      destruct (validateHostname (units h)); [|by auto].
      unfold startScanWorker. rewrite workerCode_throws. cbn.
      split; [done|]. split; [set_solver|]. split; [done|].
      intros id. destruct (decide (rnd = id)) as [->|Hne].
      * right. right. split; [done|]. by rewrite lookup_insert_eq.
      * left. by rewrite lookup_insert_ne.
    + destruct params as [|? []]; auto.
    + destruct params as [|? []]; auto.
    + destruct params as [|? []]; auto.
  - unfold delete_finish.
    assert (Hsub : filter (λ kv, removed_by SCANS_DIR id' o kv.1 = false)
                     (disk st) ⊆ disk st) by apply map_filter_subseteq.
    destruct o as [|gone]; cbn; [|by auto].
    split; [done|]. split; [done|]. split; [done|].
    intros id. destruct (decide (id' = id)) as [->|Hne].
    + right. left. apply lookup_delete_eq.
    + left. by apply lookup_delete_ne.
Qed.

Lemma idle_boot fs : idle (boot fs).
Proof.
  split; [done|]. intros id j.
  change (jobs (boot fs)) with (∅ : gmap string job).
  by rewrite lookup_empty.
Qed.

Lemma shipped_runs evs : ∀ st st',
  idle st → run_events evs st = Some st' →
  idle st' ∧ Forall own_event evs ∧ disk st' ⊆ disk st
  ∧ issued st ⊆ issued st'.
Proof.
  induction evs as [|ev evs IH]; intros st st' [Hth Hjobs]; cbn.
  - by intros [= <-].
  - destruct (allowed ev st) eqn:Hal; [|done]. intros Hrun.
    destruct (shipped_step ev st Hal Hth) as (Hth' & Hiss & Hdisk & Hj).
    assert (Hidle' : idle (handle ev st).1).
    { split; [done|]. intros id j H.
      destruct (Hj id) as [Heq|[Heq|[_ Heq]]]; rewrite Heq in H.
      - by eapply Hjobs.
      - done.
      - by injection H as <-. }
    destruct (IH _ _ Hidle' Hrun) as (Hidle & Hown & Hd & Hi).
    split; [done|]. split.
    + constructor; [exact (idle_allowed ev st Hth Hal)|done].
    + split; by etrans.
Qed.

Lemma forgotten_step id ev st :
  allowed ev st = true → forgotten id st → forgotten id (handle ev st).1.
Proof.
  intros Hal (Hth & Hid & Hjob & Hdisk).
  destruct (shipped_step ev st Hal Hth) as (Hth' & Hiss & Hsub & Hj).
  split; [done|]. split; [set_solver|]. split.
  - destruct (Hj id) as [->|[->|[? _]]]; done.
  - intros p Hp. eapply lookup_weaken_None; [by apply Hdisk|done].
Qed.

Lemma dispatch_status id :
  dispatch (status_query id) = Some (EStatus, [id]).
Proof. reflexivity. Qed.



(** C6, as the code has it. The merge stage never runs. On server.js as
    it is, evaluating the text of the worker program throws
    [ReferenceError: parts is not defined] in [startScanWorker], before
    [new Worker]: in every state the server reaches there is no worker
    thread, every job of the table is [queued], only requests and settled
    removals have been handled, and the disk holds no file that was not
    there when the server started; so no all.txt is ever made, empty or
    merged. A scan request that is accepted there is answered 200 and
    leaves its job [queued], with no worker and the disk as it was. *)
Theorem accepted_scan_never_reaches_the_merge fs evs st :
  run_events evs (boot fs) = Some st →
  workerCode_error = Some (ReferenceError "parts")
  ∧ Forall own_event evs
  ∧ threads st = ∅
  ∧ (∀ id j, jobs st !! id = Some j → j = queued_entry)
  ∧ disk st ⊆ fs
  ∧ ∀ url rnd started,
      (post_scan url rnd started st).2
      = {| code := 200; payload := ScanStarted rnd |} →
      jobs (post_scan url rnd started st).1 !! rnd = Some queued_entry
      ∧ threads (post_scan url rnd started st).1 = ∅
      ∧ disk (post_scan url rnd started st).1 = disk st.
Proof.
  intros Hrun.
  destruct (shipped_runs evs _ _ (idle_boot fs) Hrun)
    as ([Hth Hjobs] & Hown & Hdisk & _).
  split; [apply workerCode_throws|]. split; [done|]. split; [done|].
  split; [done|]. split; [done|].
  intros url rnd started. unfold Coordinator.post_scan.
  destruct url as [u|]; [|done].
  destruct (decide (u = "")); [done|].
  destruct (URL_hostname u) as [h|]; [|done].
  destruct (validateHostname (units h)); [|done]. intros _.
  unfold startScanWorker. rewrite workerCode_throws. cbn.
  by rewrite lookup_insert_eq.
Qed.

End ShippedFacts.

(* ===================================================================== *)
(** * The worker's messages, delivered to the coordinator                 *)
(* ===================================================================== *)

Section DeliveryFacts.
Import Pipeline Coordinator.

Variable SCANS_DIR : string.
Variable URL_hostname : string → option string.
Variable JSON_parse : string → option json.
Variable template_throws : option jsError.
Variable P : platform.
Variable wd : workerData.

Local Abbreviation run_events :=
  (run_events SCANS_DIR URL_hostname JSON_parse template_throws).

Lemma run_events_app evs1 evs2 st :
  run_events (evs1 ++ evs2) st
  = st' ← run_events evs1 st; run_events evs2 st'.
Proof.
  revert st. induction evs1 as [|ev evs1 IH]; intros st; [done|].
  cbn. destruct (allowed ev st); [apply IH|done].
Qed.

Lemma run_events_logs id logs st :
  threads st !! id = Some Alive →
  run_events (Message id <$> (Log <$> logs)) st = Some st.
Proof.
  intros Hth. induction logs as [|txt logs IH]; [done|].
  cbn. by rewrite bool_decide_eq_true_2.
Qed.

(** X27. Whatever the platform does, the messages of one run of the
    worker, delivered in order to the coordinator of a running job, are all
    accepted and leave the job [done] with the metadata of the [done]
    message or [failed] with the text of the [error] message, never
    [running] or [queued]. *)
Theorem delivered_run_ends_done_or_failed
    (fs : gmap string string) (st : server) (id : string) :
  threads st !! id = Some Alive →
  ∃ st',
    run_events (Message id <$> posted (run_worker P wd fs)) st = Some st'
    ∧ threads st' !! id = Some Signalled
    ∧ ((∃ m, last (posted (run_worker P wd fs)) = Some (Done m)
             ∧ jobs st' !! id
               = Some {| j_status := done; j_worker := false;
                         j_meta := Some m; j_error := None |})
       ∨ (∃ e, last (posted (run_worker P wd fs)) = Some (Error e)
               ∧ jobs st' !! id
                 = Some {| j_status := failed; j_worker := false;
                           j_meta := None; j_error := Some e |})).
Proof.
  intros Hth.
  destruct (worker_posts_one_final P wd fs)
    as (logs & final & -> & [(m & ->)|(e & ->)]);
    rewrite fmap_app, run_events_app, (run_events_logs id logs st Hth),
      last_snoc; cbn; rewrite bool_decide_eq_true_2 by done;
    eexists; (split; [reflexivity|]); cbn;
    (split; [by rewrite lookup_insert_eq|]).
  - left. exists m. by rewrite lookup_insert_eq.
  - right. exists e. by rewrite lookup_insert_eq.
Qed.

End DeliveryFacts.

(* ===================================================================== *)
(** * Properties of [spawnCmd]                                            *)
(* ===================================================================== *)

Section SpawnFacts.
Import Spawn.

Variable cmd : string.
Variable timeout : Z.

Variable refused : option jsError.

Local Abbreviation step := (step cmd timeout).
Local Abbreviation after := (after cmd timeout refused).

Lemma step_settled c ev r :
  sp_settled c = Some r → sp_settled (step c ev) = Some r.
Proof.
  intros Hc. destruct ev; cbn; unfold settle; cbn;
    repeat case_decide; by rewrite ?Hc.
Qed.

Lemma foldl_settled evs : ∀ c r,
  sp_settled c = Some r → sp_settled (foldl step c evs) = Some r.
Proof.
  induction evs as [|ev evs IH]; intros c r Hc; [done|].
  cbn. apply IH. by apply step_settled.
Qed.

Lemma append_empty_r s : s +:+ "" = s.
Proof. induction s as [|a s IH]; [done|]. by rewrite append_cons, IH. Qed.

Lemma concat_empty_app (l k : list string) :
  String.concat "" (l ++ k) = String.concat "" l +:+ String.concat "" k.
Proof.
  induction l as [|x l IH]; [done|].
  destruct l as [|y l].
  - cbn [app]. destruct k as [|z k]; cbn.
    + by rewrite append_empty_r.
    + done.
  - change (String.concat "" ((x :: y :: l) ++ k))
      with (x +:+ "" +:+ String.concat "" ((y :: l) ++ k)).
    rewrite IH.
    change (String.concat "" (x :: y :: l))
      with (x +:+ "" +:+ String.concat "" (y :: l)).
    by rewrite !append_assoc.
Qed.

(** Data events only collect output. *)
Lemma after_data pre :
  Forall is_data pre →
  after pre
  = {| sp_stdout := collected_out pre; sp_stderr := collected_err pre;
       sp_settled := sp_settled (Spawn.started refused); sp_kills := 0 |}.
Proof.
  induction pre as [|ev pre IH] using rev_ind; [done|].
  intros [Hpre Hev]%Forall_app. rewrite Forall_singleton in Hev.
  unfold Spawn.after. rewrite foldl_app. cbn [foldl].
  fold (after pre). rewrite (IH Hpre).
  unfold collected_out, collected_err. rewrite !omap_app, !concat_empty_app.
  destruct ev; try done; cbn; by rewrite ?append_empty_r.
Qed.

(** X23. The promise of [spawnCmd] is settled once. [spawn] refuses a
    negative [timeout]. When [spawn] refuses its arguments, the promise is
    rejected with what [spawn] threw before any event, and stays so. When
    [spawn] returns a child, the timeout is not negative and the promise
    is settled by the first of
    ['error'], ['close'] and the timer, and never again: after output [pre]
    only, it is not settled; if an ['error'] comes next, it rejects with
    that error; if a ['close'] with code 0, it resolves with the output
    collected so far; if any other ['close'] (a null code included), it
    rejects with the exit code and the collected stderr; if the timer of a
    given timeout, it rejects with the timeout text. Whatever events
    follow, the outcome stays. *)
Theorem spawnCmd_is_settled_by_the_first_event
    (pre post : list child_event) :
  (timeout < 0 → is_Some refused) →
  Forall is_data pre →
  (∀ e, refused = Some e →
        sp_settled (Spawn.started refused) = Some (inl e)
        ∧ ∀ evs, sp_settled (after evs) = Some (inl e))
  ∧ (refused = None →
     0 ≤ timeout
     ∧ sp_settled (after pre) = None
     ∧ (∀ err, sp_settled (after (pre ++ ChildError err :: post))
               = Some (inl err))
     ∧ sp_settled (after (pre ++ ChildClose (Some 0) :: post))
       = Some (inr (collected_out pre, collected_err pre))
     ∧ (∀ code, code ≠ Some 0 →
                sp_settled (after (pre ++ ChildClose code :: post))
                = Some (inl (exit_error cmd code (collected_err pre))))
     ∧ (timeout ≠ 0 →
        sp_settled (after (pre ++ TimerFired :: post))
        = Some (inl (timeout_error cmd timeout)))).
Proof.
  intros Hneg Hpre. split.
  { intros e He.
    assert (Hs : sp_settled (Spawn.started refused) = Some (inl e))
      by (unfold Spawn.started; cbn; by rewrite He).
    split; [done|]. intros evs. by apply foldl_settled. }
  intros Hnone. split.
  { destruct (decide (timeout < 0)) as [Hlt|]; [|lia].
    destruct (Hneg Hlt) as [e He]. by rewrite Hnone in He. }
  assert (Hev : ∀ ev, after (pre ++ ev :: post)
                      = foldl step (step (after pre) ev) post).
  { intros ev. unfold Spawn.after. by rewrite foldl_app. }
  rewrite !Hev. setoid_rewrite Hev. rewrite (after_data pre Hpre).
  unfold Spawn.started. cbn [sp_settled]. rewrite Hnone.
  split; [done|]. split; [|split; [|split]].
  - intros err. by apply foldl_settled.
  - by apply foldl_settled.
  - intros code Hcode. apply foldl_settled. cbn.
    by rewrite decide_False.
  - intros Ht. apply foldl_settled. cbn. by rewrite decide_False.
Qed.

(** X24. The timer of [spawnCmd] is never cleared: when a timeout was
    given and the timer fires, [child.kill('SIGTERM')] is called once more,
    also after the command has closed and the promise is settled; the
    outcome of a settled call does not change. *)
Theorem spawnCmd_timer_fires_after_the_command_closed
    (evs : list child_event) :
  timeout ≠ 0 →
  sp_kills (after (evs ++ [TimerFired])) = S (sp_kills (after evs))
  ∧ (∀ r, sp_settled (after evs) = Some r →
          sp_settled (after (evs ++ [TimerFired])) = Some r).
Proof.
  intros Ht. unfold Spawn.after. rewrite foldl_app. cbn [foldl].
  fold (after evs). cbn. rewrite decide_False by done. unfold settle. cbn.
  split.
  - by destruct (sp_settled (after evs)).
  - by intros r ->.
Qed.

End SpawnFacts.

(* ===================================================================== *)
(** * The further properties on concrete inputs                           *)
(* ===================================================================== *)

Section Instances.
Import Pipeline Coordinator Outcome Lifecycle.

Lemma parsed_concurrency_starts_workers_or_throws_witness :
  Demo.lines ≠ []
  ∧ match FetchPool.start_workers Demo.buildUrl Demo.baseUrl Demo.lines
            (Checker.a_concurrency
               (Checker.parseArgs Cases.parseInt ["--concurrency"; "-3"]))
    with
    | None =>
        Checker.a_concurrency
          (Checker.parseArgs Cases.parseInt ["--concurrency"; "-3"]) < 0
    | Some st =>
        0 < Checker.a_concurrency
              (Checker.parseArgs Cases.parseInt ["--concurrency"; "-3"])
        ∧ (1 ≤ length (FetchPool.workers st))%nat
        ∧ Z.of_nat (length (FetchPool.workers st))
          = Z.min (Checker.a_concurrency
                     (Checker.parseArgs Cases.parseInt
                        ["--concurrency"; "-3"]))
                  (Z.of_nat (length Demo.lines))
    end.
Proof.
  split; [discriminate|].
  apply (parsed_concurrency_starts_workers_or_throws Cases.parseInt
           Demo.buildUrl Demo.baseUrl Demo.lines ["--concurrency"; "-3"]).
  discriminate.
Defined.

(** A negative [--concurrency] is kept and the pool is not built. *)
Example negative_concurrency_scenario :
  Checker.a_concurrency
    (Checker.parseArgs Cases.parseInt ["--concurrency"; "-3"]) = -3
  ∧ FetchPool.start_workers Demo.buildUrl Demo.baseUrl Demo.lines (-3) = None
  ∧ Checker.a_concurrency
      (Checker.parseArgs Cases.parseInt ["--concurrency"; "0"]) = 10
  ∧ Checker.parseArgs Cases.parseInt ["-c"; "20"]
    = {| Checker.a_baseUrl := "-c"; Checker.a_concurrency := 10;
         Checker.a_timeoutMs := 5000; Checker.a_outFile := "results.txt";
         Checker.a_port := 3000 |}.
Proof. vm_compute. repeat split; reflexivity. Qed.

(** The lines of a try.txt with a comment, an empty line, a carriage
    return and surrounding blanks. *)
Example readLines_scenario :
  Checker.readLines
    ("admin" +:+ String Checker.CRc LF +:+ "# a comment" +:+ LF +:+ LF
     +:+ "  login  " +:+ LF +:+ "?query=1")
  = ["admin"; "login"; "?query=1"].
Proof. vm_compute. reflexivity. Qed.

Lemma results_are_well_formed_witness :
  FetchPool.start_workers Demo.buildUrl Demo.baseUrl Demo.lines 2
  = Some Cases.pool_start
  ∧ FetchPool.run Demo.buildUrl FetchPool.UrlChecker Demo.baseUrl
      Demo.timeoutMs Demo.lines Demo.schedule Cases.pool_start
    = Some Cases.pool_end
  ∧ Forall (Checker.well_formed Demo.buildUrl FetchPool.UrlChecker
              Demo.baseUrl Demo.lines)
           (FetchPool.results Cases.pool_end).
Proof.
  split; [vm_compute; reflexivity|]. split; [vm_compute; reflexivity|].
  apply (results_are_well_formed Demo.buildUrl FetchPool.UrlChecker
           Demo.baseUrl Demo.timeoutMs Demo.lines 2 Demo.schedule
           Cases.pool_start Cases.pool_end);
    vm_compute; reflexivity.
Defined.

Lemma summary_counts_agree_with_tags_witness :
  FetchPool.start_workers Demo.buildUrl Demo.baseUrl Demo.lines 2
  = Some Cases.pool_start
  ∧ FetchPool.run Demo.buildUrl FetchPool.UrlChecker Demo.baseUrl
      Demo.timeoutMs Demo.lines Demo.schedule Cases.pool_start
    = Some Cases.pool_end
  ∧ Checker.okCount (FetchPool.results Cases.pool_end)
    = length (filter (λ r, FetchPool.r_tag r = Some "OK")
                (FetchPool.results Cases.pool_end))
  ∧ Checker.redirectCount (FetchPool.results Cases.pool_end)
    = length (filter (λ r, Checker.status_in 300 400 r = true)
                (FetchPool.results Cases.pool_end))
  ∧ (Checker.okCount (FetchPool.results Cases.pool_end)
     + Checker.redirectCount (FetchPool.results Cases.pool_end)
     + length (filter (λ r, FetchPool.r_status r = FetchPool.StatusERROR)
                 (FetchPool.results Cases.pool_end))
     ≤ length (FetchPool.results Cases.pool_end))%nat.
Proof.
  split; [vm_compute; reflexivity|]. split; [vm_compute; reflexivity|].
  apply (summary_counts_agree_with_tags Demo.buildUrl FetchPool.UrlChecker
           Demo.baseUrl Demo.timeoutMs Demo.lines 2 Demo.schedule
           Cases.pool_start Cases.pool_end);
    vm_compute; reflexivity.
Defined.

(** The summary of the run of [Demo]: one OK, no redirect, of three. *)
Example summary_scenario :
  Checker.okCount (FetchPool.results Cases.pool_end) = 1%nat
  ∧ Checker.redirectCount (FetchPool.results Cases.pool_end) = 0%nat
  ∧ length (FetchPool.results Cases.pool_end) = 3%nat.
Proof. vm_compute. repeat split; reflexivity. Qed.

Lemma results_file_holds_one_line_per_result_witness :
  FetchPool.start_workers Demo.buildUrl Demo.baseUrl Demo.lines 2
  = Some Cases.pool_start
  ∧ FetchPool.run Demo.buildUrl FetchPool.UrlChecker Demo.baseUrl
      Demo.timeoutMs Demo.lines Demo.schedule Cases.pool_start
    = Some Cases.pool_end
  ∧ FetchPool.appended Cases.pool_end
    ⊆+ Checker.file_line <$> FetchPool.results Cases.pool_end
  ∧ (Checker.appends_succeed Demo.schedule →
     FetchPool.all_finished Cases.pool_end →
     FetchPool.appended Cases.pool_end
     ≡ₚ Checker.file_line <$> FetchPool.results Cases.pool_end).
Proof.
  split; [vm_compute; reflexivity|]. split; [vm_compute; reflexivity|].
  apply (results_file_holds_one_line_per_result Demo.buildUrl Demo.baseUrl
           Demo.timeoutMs Demo.lines 2 Demo.schedule
           Cases.pool_start Cases.pool_end);
    vm_compute; reflexivity.
Defined.

Lemma checkers_build_the_same_url_witness :
  "login" ∈ Checker.readLines ("admin" +:+ LF +:+ "  login  ")
  ∧ Checker.endsWith_slash "https://example.test/" = true
  ∧ Checker.startsWith_slash "login" = false
  ∧ Checker.buildUrl (λ _ _, None) "https://example.test/" "login"
    = Checker.buildUrl_route (λ _ _, None) "https://example.test/" "login".
Proof.
  assert (H : "login" ∈ Checker.readLines ("admin" +:+ LF +:+ "  login  ")).
  { vm_compute. repeat constructor. }
  split; [exact H|]. split; [reflexivity|]. split; [reflexivity|].
  exact (checkers_build_the_same_url (λ _ _, None)
           ("admin" +:+ LF +:+ "  login  ") "https://example.test/" "login"
           H eq_refl eq_refl).
Defined.

(** ** The worker *)

Lemma tool_failures_do_not_fail_the_job_witness :
  mkdir_error Cases.bare (workdir Demo.wd) = None
  ∧ (∀ p, write_error Cases.bare p = None)
  ∧ (∀ args T fs', (exec Cases.bare "bash" args T fs').2 = None)
  ∧ (∀ args T fs' raw,
       (exec Cases.bare "httpx" args T fs').2 = None →
       (exec Cases.bare "httpx" args T fs').1 !! httpxOut Demo.wd = Some raw →
       Forall (writable Cases.bare) (parse_lines Cases.bare raw))
  ∧ (∃ logs, posted (run_worker Cases.bare Demo.wd ∅)
             = (Log <$> logs) ++ [Done (reported_meta Cases.bare Demo.wd)])
  ∧ name <$> m_tasks (reported_meta Cases.bare Demo.wd)
    = ["subfinder"; "amass"; "merge"; "httpx"; "parse_httpx";
       "save_results"]
  ∧ ∃ ws, written (trace (run_worker Cases.bare Demo.wd ∅))
          = ws ++ [resultsJson Demo.wd; resultsTxt Demo.wd;
                   metaJson Demo.wd].
Proof.
  split; [reflexivity|]. split; [reflexivity|]. split; [reflexivity|].
  split; [discriminate|].
  apply (tool_failures_do_not_fail_the_job Cases.bare Demo.wd ∅);
    [reflexivity|reflexivity|reflexivity|discriminate].
Defined.

Lemma failed_merge_fails_the_job_witness :
  mkdir_error Cases.no_shell (workdir Demo.wd) = None
  ∧ present_parts Demo.wd
      {[ subfinderOut Demo.wd := "a.example.test" +:+ LF ]} ≠ []
  ∧ (∃ logs, posted (run_worker Cases.no_shell Demo.wd ∅)
             = (Log <$> logs) ++ [Error "spawn bash ENOENT"])
  ∧ commands (trace (run_worker Cases.no_shell Demo.wd ∅))
    = ["subfinder"; "amass"; "bash"]
  ∧ written (trace (run_worker Cases.no_shell Demo.wd ∅)) = [].
Proof.
  split; [reflexivity|]. split; [vm_compute; discriminate|].
  apply (failed_merge_fails_the_job Cases.no_shell Demo.wd ∅
           (Cases.enoent "bash")).
  - reflexivity.
  - vm_compute. discriminate.
  - vm_compute. reflexivity.
Defined.

Lemma unmakeable_work_directory_fails_the_job_witness :
  mkdir_error Cases.read_only (workdir Demo.wd)
  = Some {| err_name := "Error";
            err_message := "EACCES: permission denied, mkdir '"
                           +:+ workdir Demo.wd +:+ "'" |}
  ∧ trace (run_worker Cases.read_only Demo.wd ∅)
    = [Mkdir (workdir Demo.wd);
       Post (Error ("EACCES: permission denied, mkdir '"
                    +:+ workdir Demo.wd +:+ "'"))]
  ∧ files (run_worker Cases.read_only Demo.wd ∅) = ∅.
Proof.
  split; [reflexivity|].
  apply (unmakeable_work_directory_fails_the_job Cases.read_only Demo.wd ∅
           {| err_name := "Error";
              err_message := "EACCES: permission denied, mkdir '"
                             +:+ workdir Demo.wd +:+ "'" |}).
  reflexivity.
Defined.

Lemma stored_metadata_lacks_the_finish_witness :
  WriteFile (metaJson Demo.wd) "{}" ∈ trace (run_worker Cases.bare Demo.wd ∅)
  ∧ "{}" = stringify_meta Cases.bare (stored_meta Cases.bare Demo.wd)
  ∧ (∃ logs, posted (run_worker Cases.bare Demo.wd ∅)
             = (Log <$> logs) ++ [Done (reported_meta Cases.bare Demo.wd)])
  ∧ m_finishedAt (stored_meta Cases.bare Demo.wd) = None
  ∧ name <$> m_tasks (stored_meta Cases.bare Demo.wd)
    = ["subfinder"; "amass"; "merge"; "httpx"; "parse_httpx"]
  ∧ m_finishedAt (reported_meta Cases.bare Demo.wd)
    = Some (finishedAt_iso Cases.bare)
  ∧ m_tasks (reported_meta Cases.bare Demo.wd)
    = m_tasks (stored_meta Cases.bare Demo.wd)
      ++ [mk_task Cases.bare "save_results"].
Proof.
  assert (H : WriteFile (metaJson Demo.wd) "{}"
              ∈ trace (run_worker Cases.bare Demo.wd ∅)).
  { vm_compute. repeat constructor. }
  split; [exact H|].
  exact (stored_metadata_lacks_the_finish Cases.bare Demo.wd ∅ "{}" H).
Defined.

Lemma null_record_fails_the_job_witness :
  mkdir_error Cases.null_probe (workdir Demo.wd) = None
  ∧ parse_lines Cases.null_probe Cases.null_output
    = [JObj []] ++ JNull :: [JBool true]
  ∧ Forall (writable Cases.null_probe) [JObj []]
  ∧ (∃ logs,
       posted (run_worker Cases.null_probe Demo.wd ∅)
       = (Log <$> logs)
         ++ [Error "Cannot read properties of null (reading '_parseError')"])
  ∧ (resultsJson Demo.wd
     ∈ written (trace (run_worker Cases.null_probe Demo.wd ∅)))
  ∧ (resultsTxt Demo.wd
     ∉ written (trace (run_worker Cases.null_probe Demo.wd ∅)))
  ∧ (metaJson Demo.wd
     ∉ written (trace (run_worker Cases.null_probe Demo.wd ∅))).
Proof.
  assert (H : Forall (writable Cases.null_probe) [JObj []]).
  { apply Forall_singleton. eexists. vm_compute. reflexivity. }
  split; [reflexivity|]. split; [vm_compute; reflexivity|]. split; [exact H|].
  apply (null_record_fails_the_job Cases.null_probe Demo.wd ∅
           Cases.null_output [JObj []] [JBool true]).
  - reflexivity.
  - reflexivity.
  - reflexivity.
  - intros args T fs'. split; [reflexivity|]. apply lookup_insert_eq.
  - vm_compute. reflexivity.
  - exact H.
Defined.

(** A probe line with a field that has no text form fails the job as
    well: no record is [null], results.json is written, and the worker
    ends with the TypeError of the conversion. *)
Example unprintable_field_scenario :
  parse_lines Cases.unprintable_probe Cases.unprintable_output
  = [Cases.unprintable_record]
  ∧ txt_entry Cases.unprintable_probe Cases.unprintable_record
    = inl Cases.no_primitive
  ∧ last (posted (run_worker Cases.unprintable_probe Demo.wd ∅))
    = Some (Error "Cannot convert object to primitive value")
  ∧ written (trace (run_worker Cases.unprintable_probe Demo.wd ∅))
    = [allList Demo.wd; resultsJson Demo.wd].
Proof. vm_compute. repeat split; reflexivity. Qed.

(** ** Host names *)

(** A usual name; a name that begins with a hyphen; a name with a space;
    a name without a dot; [K.com] written with the Kelvin sign, which
    [toLowerCase] takes to [k]; and a name with U+0130, which it takes to
    [i] and a combining dot. *)
Example hostname_scenario :
  validateHostname (units "example.test") = true
  ∧ validateHostname (units "-a.b") = true
  ∧ validateHostname (units "a b.c") = false
  ∧ validateHostname (units "localhost") = false
  ∧ validateHostname [8490; 46; 99; 111; 109]%N = true
  ∧ validateHostname [304; 46; 99; 111; 109]%N = false.
Proof. vm_compute. repeat split; reflexivity. Qed.

(** ** The job table *)

Lemma status_goes_with_the_worker_witness :
  Demo.run_events Demo.started (boot ∅) = Some (Demo.after Demo.started)
  ∧ j_status <$> jobs (Demo.after Demo.started) !! Demo.id = Some running
  ∧ match j_status <$> jobs (Demo.after Demo.started) !! Demo.id with
    | None => True
    | Some queued => threads (Demo.after Demo.started) !! Demo.id = None
    | Some running =>
        threads (Demo.after Demo.started) !! Demo.id = Some Alive
        ∨ threads (Demo.after Demo.started) !! Demo.id = Some (Exited 0)
    | Some _ =>
        ∃ th, threads (Demo.after Demo.started) !! Demo.id = Some th
              ∧ th ≠ Alive
    end
  ∧ (threads (Demo.after Demo.started) !! Demo.id = None →
     j_status <$> jobs (Demo.after Demo.started) !! Demo.id = None
     ∨ j_status <$> jobs (Demo.after Demo.started) !! Demo.id
       = Some queued).
Proof.
  split; [vm_compute; reflexivity|]. split; [vm_compute; reflexivity|].
  apply (status_goes_with_the_worker Demo.SCANS_DIR Demo.URL_hostname
           Demo.JSON_parse None ∅ Demo.started).
  vm_compute. reflexivity.
Defined.

Lemma entry_fields_go_with_the_status_witness :
  Demo.run_events Demo.finished_run (boot ∅)
  = Some (Demo.after Demo.finished_run)
  ∧ jobs (Demo.after Demo.finished_run) !! Demo.id
    = Some {| j_status := done; j_worker := false;
              j_meta := Some Demo.meta; j_error := None |}
  ∧ (false = true ↔ done = running)
  ∧ (is_Some (Some Demo.meta) ↔ done = done)
  ∧ (is_Some (@None string) ↔ done = failed)
  ∧ (Demo.id ∈ terminated (delete_start Demo.id
                             (Demo.after Demo.finished_run))
     ↔ Demo.id ∈ terminated (Demo.after Demo.finished_run)
       ∨ done = running).
Proof.
  split; [vm_compute; reflexivity|]. split; [vm_compute; reflexivity|].
  apply (entry_fields_go_with_the_status Demo.SCANS_DIR Demo.URL_hostname
           Demo.JSON_parse None ∅ Demo.finished_run
           (Demo.after Demo.finished_run) Demo.id
           {| j_status := done; j_worker := false;
              j_meta := Some Demo.meta; j_error := None |});
    vm_compute; reflexivity.
Defined.

Lemma only_issued_ids_are_tracked_witness :
  Demo.run_events Demo.started (boot ∅) = Some (Demo.after Demo.started)
  ∧ (Cases.other_id ∉ issued (Demo.after Demo.started))
  ∧ jobs (Demo.after Demo.started) !! Cases.other_id = None
  ∧ threads (Demo.after Demo.started) !! Cases.other_id = None
  ∧ history Cases.other_id (Demo.after Demo.started) = [].
Proof.
  assert (H : Cases.other_id ∉ issued (Demo.after Demo.started)).
  { apply (bool_decide_unpack _). vm_compute. exact I. }
  split; [vm_compute; reflexivity|]. split; [exact H|].
  apply (only_issued_ids_are_tracked Demo.SCANS_DIR Demo.URL_hostname
           Demo.JSON_parse None ∅ Demo.started (Demo.after Demo.started)
           Cases.other_id); [vm_compute; reflexivity|exact H].
Defined.

Lemma delete_leaves_other_jobs_alone_witness :
  Demo.id ≠ Cases.other_id
  ∧ resolved Demo.SCANS_DIR ∧ hex_id Demo.id ∧ hex_id Cases.other_id
  ∧ jobs (delete_finish Demo.SCANS_DIR Demo.id Removed Cases.two_jobs).1
      !! Cases.other_id
    = jobs Cases.two_jobs !! Cases.other_id
  ∧ disk (delete_finish Demo.SCANS_DIR Demo.id Removed Cases.two_jobs).1
      !! path_join (workdir_of Demo.SCANS_DIR Demo.id) "results.txt"
    = None
  ∧ disk (delete_finish Demo.SCANS_DIR Demo.id Removed Cases.two_jobs).1
      !! workdir_of Demo.SCANS_DIR Cases.other_id
    = disk Cases.two_jobs !! workdir_of Demo.SCANS_DIR Cases.other_id
  ∧ (∀ f, disk (delete_finish Demo.SCANS_DIR Demo.id Removed
                  Cases.two_jobs).1
          !! path_join (workdir_of Demo.SCANS_DIR Cases.other_id) f
          = disk Cases.two_jobs
            !! path_join (workdir_of Demo.SCANS_DIR Cases.other_id) f)
  ∧ Coordinator.get_status Demo.SCANS_DIR Demo.JSON_parse Cases.other_id
      (delete_finish Demo.SCANS_DIR Demo.id Removed Cases.two_jobs).1
    = Coordinator.get_status Demo.SCANS_DIR Demo.JSON_parse Cases.other_id
        Cases.two_jobs
  ∧ get_download Demo.SCANS_DIR Cases.other_id
      (delete_finish Demo.SCANS_DIR Demo.id Removed Cases.two_jobs).1
    = get_download Demo.SCANS_DIR Cases.other_id Cases.two_jobs.
Proof.
  assert (H0 : resolved Demo.SCANS_DIR).
  { exists ["srv"; "scans"]. split; [|reflexivity].
    repeat constructor; try discriminate;
      apply (bool_decide_unpack _); vm_compute; exact I. }
  assert (H1 : hex_id Demo.id) by (repeat constructor).
  assert (H2 : hex_id Cases.other_id) by (repeat constructor).
  assert (H3 : Demo.id ≠ Cases.other_id) by discriminate.
  destruct (delete_leaves_other_jobs_alone Demo.SCANS_DIR Demo.JSON_parse
              Demo.id Cases.other_id Removed Cases.two_jobs H3)
    as (Hjobs & _ & Hgone & Hhex).
  split; [exact H3|]. split; [exact H0|]. split; [exact H1|].
  split; [exact H2|]. split; [exact Hjobs|].
  split; [apply Hgone; [vm_compute|]; reflexivity|].
  exact (Hhex H0 H1 H2).
Defined.

(** The id of a DELETE request comes from the URL. With dot segments it
    names the directory of another job: the files of that job are
    removed, its table entry stays, and its status is still reported. *)
Example crafted_delete_scenario :
  workdir_of Demo.SCANS_DIR Cases.crafted_id
  = workdir_of Demo.SCANS_DIR Cases.other_id
  ∧ disk (delete_finish Demo.SCANS_DIR Cases.crafted_id Removed
            Cases.two_jobs).1
      !! path_join (workdir_of Demo.SCANS_DIR Cases.other_id) "results.txt"
    = None
  ∧ disk Cases.two_jobs
      !! path_join (workdir_of Demo.SCANS_DIR Cases.other_id) "results.txt"
    = Some "url: https://a.example.test"
  ∧ jobs (delete_finish Demo.SCANS_DIR Cases.crafted_id Removed
            Cases.two_jobs).1 !! Cases.other_id
    = jobs Cases.two_jobs !! Cases.other_id.
Proof. vm_compute. repeat split; reflexivity. Qed.

(** [fs.rm] fails after it has removed results.txt: the handler answers
    500, the file is gone, the table entry stays, and the other job is
    untouched. *)
Example partial_removal_scenario :
  let gone := [path_join (workdir_of Demo.SCANS_DIR Demo.id) "results.txt"] in
  let r := delete_finish Demo.SCANS_DIR Demo.id (Rejected gone)
             Cases.two_jobs in
  r.2 = {| code := 500; payload := ErrorBody "failed to delete" |}
  ∧ disk r.1 !! path_join (workdir_of Demo.SCANS_DIR Demo.id) "results.txt"
    = None
  ∧ jobs r.1 !! Demo.id = jobs Cases.two_jobs !! Demo.id
  ∧ disk r.1
      !! path_join (workdir_of Demo.SCANS_DIR Cases.other_id) "results.txt"
    = Some "url: https://a.example.test".
Proof. vm_compute. repeat split; reflexivity. Qed.

Lemma delivered_run_ends_done_or_failed_witness :
  threads (Demo.after Demo.started) !! Demo.id = Some Alive
  ∧ ∃ st',
      Demo.run_events
        (Message Demo.id <$> posted (run_worker Demo.platform Demo.wd ∅))
        (Demo.after Demo.started) = Some st'
      ∧ threads st' !! Demo.id = Some Signalled
      ∧ ((∃ m, last (posted (run_worker Demo.platform Demo.wd ∅))
               = Some (Done m)
               ∧ jobs st' !! Demo.id
                 = Some {| j_status := done; j_worker := false;
                           j_meta := Some m; j_error := None |})
         ∨ (∃ e, last (posted (run_worker Demo.platform Demo.wd ∅))
                 = Some (Error e)
                 ∧ jobs st' !! Demo.id
                   = Some {| j_status := failed; j_worker := false;
                             j_meta := None; j_error := Some e |})).
Proof.
  split; [vm_compute; reflexivity|].
  apply (delivered_run_ends_done_or_failed Demo.SCANS_DIR Demo.URL_hostname
           Demo.JSON_parse None Demo.platform Demo.wd ∅
           (Demo.after Demo.started) Demo.id).
  vm_compute. reflexivity.
Defined.

(** ** [spawnCmd] *)

Lemma spawnCmd_is_settled_by_the_first_event_witness :
  (120000 < 0 → is_Some (@None jsError))
  ∧ (-5 < 0 → is_Some (Some Cases.out_of_range))
  ∧ Forall Spawn.is_data Cases.output
  ∧ Spawn.sp_settled (Spawn.after "subfinder" 120000 None Cases.output) = None
  ∧ Spawn.sp_settled
      (Spawn.after "subfinder" 120000 None
         (Cases.output ++ Spawn.ChildClose (Some 0) :: [Spawn.TimerFired]))
    = Some (inr ("a.example.test" +:+ LF, "warning"))
  ∧ Spawn.sp_settled
      (Spawn.after "subfinder" (-5) (Some Cases.out_of_range)
         (Cases.output ++ [Spawn.ChildClose (Some 0)]))
    = Some (inl Cases.out_of_range).
Proof.
  assert (H : Forall Spawn.is_data Cases.output).
  { repeat constructor. }
  assert (Hpos : 120000 < 0 → is_Some (@None jsError)) by lia.
  assert (Hneg : -5 < 0 → is_Some (Some Cases.out_of_range)) by eauto.
  split; [exact Hpos|]. split; [exact Hneg|]. split; [exact H|].
  pose proof (spawnCmd_is_settled_by_the_first_event "subfinder" 120000
                None Cases.output [Spawn.TimerFired] Hpos H)
    as (_ & _ & H0 & _ & H1 & _); [reflexivity|].
  split; [exact H0|]. split; [exact H1|].
  pose proof (spawnCmd_is_settled_by_the_first_event "subfinder" (-5)
                (Some Cases.out_of_range) Cases.output [] Hneg H) as [Hr _].
  exact (proj2 (Hr Cases.out_of_range eq_refl) _).
Defined.

Lemma spawnCmd_timer_fires_after_the_command_closed_witness :
  120000 ≠ 0
  ∧ Spawn.sp_kills
      (Spawn.after "subfinder" 120000 None
         ((Cases.output ++ [Spawn.ChildClose (Some 0)])
          ++ [Spawn.TimerFired]))
    = S (Spawn.sp_kills
           (Spawn.after "subfinder" 120000 None
              (Cases.output ++ [Spawn.ChildClose (Some 0)])))
  ∧ (∀ r, Spawn.sp_settled
            (Spawn.after "subfinder" 120000 None
               (Cases.output ++ [Spawn.ChildClose (Some 0)])) = Some r →
          Spawn.sp_settled
            (Spawn.after "subfinder" 120000 None
               ((Cases.output ++ [Spawn.ChildClose (Some 0)])
                ++ [Spawn.TimerFired])) = Some r).
Proof.
  split; [discriminate|].
  apply (spawnCmd_timer_fires_after_the_command_closed "subfinder" 120000
           None (Cases.output ++ [Spawn.ChildClose (Some 0)])).
  discriminate.
Defined.

(** ** server.js as it is *)

(** A scan is asked for and accepted: the directory is asked for, the
    job is [queued], and a status query says so; there is no worker. *)
Example shipped_scan_scenario :
  (Coordinator.handle Demo.SCANS_DIR Demo.URL_hostname Demo.JSON_parse
     workerCode_error (Http Demo.scan_request Demo.id false) (boot ∅)).2
  = Some {| code := 200; payload := ScanStarted Demo.id |}
  ∧ made (Cases.shipped_after Cases.scanned) = [workdir Demo.wd]
  ∧ Coordinator.get_status Demo.SCANS_DIR Demo.JSON_parse Demo.id
      (Cases.shipped_after Cases.scanned)
    = {| code := 200; payload := JobStatus Demo.id queued None None |}
  ∧ threads (Cases.shipped_after Cases.scanned) !! Demo.id = None.
Proof. vm_compute. repeat split; reflexivity. Qed.

Lemma accepted_scan_never_reaches_the_merge_witness :
  Cases.shipped_events Cases.scanned (boot ∅)
  = Some (Cases.shipped_after Cases.scanned)
  ∧ jobs (Cases.shipped_after Cases.scanned) !! Demo.id = Some queued_entry
  ∧ workerCode_error = Some (ReferenceError "parts")
  ∧ Forall own_event Cases.scanned
  ∧ threads (Cases.shipped_after Cases.scanned) = ∅
  ∧ (∀ id j, jobs (Cases.shipped_after Cases.scanned) !! id = Some j →
             j = queued_entry)
  ∧ disk (Cases.shipped_after Cases.scanned) ⊆ ∅.
Proof.
  split; [vm_compute; reflexivity|]. split; [vm_compute; reflexivity|].
  destruct (accepted_scan_never_reaches_the_merge Demo.SCANS_DIR
              Demo.URL_hostname Demo.JSON_parse ∅ Cases.scanned
              (Cases.shipped_after Cases.scanned))
    as (H1 & H2 & H3 & H4 & H5 & _); [vm_compute; reflexivity|].
  split; [exact H1|]. split; [exact H2|]. split; [exact H3|].
  split; [exact H4|exact H5].
Defined.



End Instances.
